(** * Convex hull engines of [CPU.cpp]: QuickHull and Graham Scan

    A shallow embedding of [src/ii_compat/src/CPU/CPU.cpp] and the properties
    stated about it.

    Modelling decisions.
    - Coordinates.  The source computes on [float]; the embedding uses exact
      integers ([Z]), the "finite real numbers" reading of the data model.
      Every concrete evaluation below uses integers of magnitude below 10:
      every intermediate value is then an integer far below [2^24], on which
      [float] arithmetic is exact, so the embedding and the source agree
      there bit for bit.
    - Memory.  The global array [ps] is a [list point]; a [point*] is the
      offset ([nat]) into it and an [int] is a [Z].  Every read or write
      checks the offset against the length of the array and reports
      [OutOfBounds] otherwise.  Every [int] of [grahamScan] stays within
      [-1, n + 1], so no wrap-around is involved.
    - [ASSERT] (from [Debug/Assert.h]) halts the computation: [AssertFailed].
    - Loops [for (it = first; it != last; ++it)] are run on the number of
      slots that remain in the array: a pointer that was already past [last]
      walks to the end of the array and faults there.
    - [findHull] recurses on a sub-range; the embedding recurses on [fuel],
      and [findHull_fuel] shows that the size of the range is enough.  The
      [while] loops of [grahamScan] are run on fuel as well; neither engine
      ever reports [OutOfFuel] ([quickHull_fuel], [grahamScan_fuel]).
    - The C++ standard library.  [std::swap_ranges], [std::min_element] and
      [std::minmax_element] are the loops of their reference implementation.
      [std::sort] is modelled by insertion sort and [std::partition] by two
      filters: the standard leaves the algorithm open, but both calls to
      [std::partition] are followed by a sort of each side, and for the
      orders used here the sorted sequence is unique ([sort_unique]). *)

From Stdlib Require Import ZArith Lia List Bool Permutation Sorted String.
From stdpp Require Import base list sorting.
Import ListNotations.

Local Open Scope Z_scope.

(** ** Point primitive *)

Record point : Type := Point { x : Z; y : Z }.

Definition cross (u v : point) : Z := x u * y v - y u * x v.

(** [std::tie(x, y) < std::tie(p.x, p.y)] *)
Definition point_lt (p q : point) : bool :=
  (x p <? x q) || ((x p =? x q) && (y p <? y q)).

Definition point_gt (p q : point) : bool := point_lt q p.

Definition point_eq (p q : point) : bool := (x p =? x q) && (y p =? y q).

Definition point_sub (p q : point) : point := Point (x p - x q) (y p - y q).

Definition point_add (p q : point) : point := Point (x p + x q) (y p + y q).

Declare Scope point_scope.
Delimit Scope point_scope with pt.
Bind Scope point_scope with point.
Infix "-" := point_sub : point_scope.
Infix "+" := point_add : point_scope.

(** ** Faults and the outcome of a computation *)

Inductive fault : Type :=
| OutOfBounds     (* an access outside the array *)
| AssertFailed    (* an [ASSERT] that does not hold *)
| InvalidRange    (* a standard algorithm called on [first > last] *)
| Uninitialized   (* [far] read before it was assigned *)
| OutOfFuel.      (* artefact of the embedding, never produced *)

Inductive outcome (A : Type) : Type :=
| Ok (a : A)
| Fault (e : fault).
Arguments Ok {A} a.
Arguments Fault {A} e.

#[global] Instance outcome_ret : MRet outcome := fun A a => Ok a.
#[global] Instance outcome_bind : MBind outcome := fun A B f m =>
  match m with
  | Ok a => f a
  | Fault e => Fault e
  end.

Definition ASSERT (b : bool) : outcome unit :=
  if b then Ok tt else Fault AssertFailed.

(** ** The array *)

Local Open Scope nat_scope.

Definition rd (a : list point) (i : nat) : outcome point :=
  match a !! i with
  | Some p => Ok p
  | None => Fault OutOfBounds
  end.

Definition wr (a : list point) (i : nat) (p : point) : outcome (list point) :=
  if decide (i < length a) then Ok (<[i := p]> a) else Fault OutOfBounds.

(** [std::swap] of the two slots [i] and [j] *)
Definition swap (a : list point) (i j : nat) : outcome (list point) :=
  p ← rd a i;
  q ← rd a j;
  a ← wr a i q;
  wr a j p.

(** [for (it = first; it != last; ++it) body], run on the [room] slots that
    lie between [it] and the end of the array. *)
Fixpoint for_ptr {St : Type} (room : nat) (it last : nat)
    (body : nat → St → outcome St) (s : St) : outcome St :=
  if it =? last then Ok s
  else match room with
       | O => Fault OutOfBounds
       | S room => s ← body it s; for_ptr room (S it) last body s
       end.

(** ** Partition utility *)

Definition half_stable_partition (a : list point) (first last : nat)
    (pred : point → bool) : outcome (list point * nat) :=
  for_ptr (length a - first) first last
    (fun it '(a, pivot) =>
       p ← rd a it;
       if pred p then a ← swap a it pivot; Ok (a, S pivot)
       else Ok (a, pivot))
    (a, first).

(** [std::swap_ranges(first1, last1, first2)] *)
Definition swap_ranges (a : list point) (first1 last1 first2 : nat)
    : outcome (list point * nat) :=
  for_ptr (length a - first1) first1 last1
    (fun it '(a, first2) => a ← swap a it first2; Ok (a, S first2))
    (a, first2).

(** ** The standard algorithms the engines call *)

(** The elements of [first, last) and the array with that range replaced. *)
Definition seg (a : list point) (first last : nat) : list point :=
  take (last - first) (drop first a).

Definition splice (a : list point) (first last : nat) (mid : list point)
    : list point :=
  take first a ++ mid ++ drop last a.

(** [std::min_element(first, last)]: the first smallest element. *)
Definition min_element (a : list point) (first last : nat) : outcome nat :=
  if first =? last then Ok last
  else for_ptr (length a - S first) (S first) last
         (fun it smallest =>
            p ← rd a it;
            q ← rd a smallest;
            Ok (if point_lt p q then it else smallest))
         first.

(** [std::minmax_element(first, last)]: the first smallest and the last
    largest element. *)
Definition minmax_element (a : list point) (first last : nat)
    : outcome (nat * nat) :=
  if first =? last then Ok (first, first)
  else for_ptr (length a - S first) (S first) last
         (fun it '(smallest, largest) =>
            p ← rd a it;
            q ← rd a smallest;
            r ← rd a largest;
            Ok (if point_lt p q then it else smallest,
                if point_lt p r then largest else it))
         (first, first).

(** [std::transform(first, last, first, f)] *)
Definition transform (a : list point) (first last : nat) (f : point → point)
    : outcome (list point) :=
  for_ptr (length a - first) first last
    (fun it a => p ← rd a it; wr a it (f p))
    a.

(** [std::partition(first, last, pred)] *)
Definition partition (a : list point) (first last : nat) (pred : point → bool)
    : outcome (list point * nat) :=
  if decide (first ≤ last ≤ length a) then
    let s := seg a first last in
    Ok (splice a first last
          (List.filter pred s ++ List.filter (fun p => negb (pred p)) s),
        first + length (List.filter pred s))
  else Fault InvalidRange.

(** [std::sort(first, last, comp)] *)
Fixpoint insert (comp : point → point → bool) (p : point) (l : list point)
    : list point :=
  match l with
  | [] => [p]
  | q :: l' => if comp p q then p :: l else q :: insert comp p l'
  end.

Definition sort (comp : point → point → bool) (l : list point) : list point :=
  foldr (insert comp) [] l.

Definition sort_range (comp : point → point → bool) (a : list point)
    (first last : nat) : outcome (list point) :=
  if decide (first ≤ last ≤ length a) then
    Ok (splice a first last (sort comp (seg a first last)))
  else Fault InvalidRange.

(** ** QuickHull engine *)

(** The lambda [isOuterior] of [findHull], with its captures. *)
Definition isOuterior (uf vf far_p : point) (p : point) : bool :=
  let pf := (p - far_p)%pt in
  (0 <? cross pf vf)%Z || (0 <? cross uf pf)%Z.

(** The search loop of [findHull] (lines 159-172): the state is
    [(dist, far)], and [far] has no value before the first assignment. *)
Definition farthest (a : list point) (first last : nat) (d u : point)
    : outcome (Z * option nat) :=
  for_ptr (length a - S first) (S first) last
    (fun it '(dist, far) =>
       p ← rd a it;
       let cur_dist := cross d (u - p) in
       _ ← ASSERT (0 <=? cur_dist)%Z;
       if (dist <? cur_dist)%Z then Ok (cur_dist, Some it)
       else Ok (dist, far))
    ((-1)%Z, None).

Definition deref (far : option nat) : outcome nat :=
  match far with
  | Some i => Ok i
  | None => Fault Uninitialized
  end.

Fixpoint findHull (fuel : nat) (a : list point) (first last : nat)
    (u v : point) : outcome (list point * nat) :=
  match fuel with
  | O => Fault OutOfFuel
  | S fuel =>
      p ← rd a first;
      _ ← ASSERT (point_eq p u);
      if first + 1 =? last then Ok (a, last)
      else
        let d := (v - u)%pt in
        '(_, far) ← farthest a first last d u;
        far ← deref far;
        far_p ← rd a far;
        let uf := (u - far_p)%pt in
        let vf := (v - far_p)%pt in
        '(a, pivot) ← half_stable_partition a (first + 1) far
                        (isOuterior uf vf far_p);
        '(a, left_boundary) ← findHull fuel a first pivot u far_p;
        '(a, pivot) ← half_stable_partition a (far + 1) last
                        (isOuterior uf vf far_p);
        '(a, right_boundary) ← findHull fuel a far pivot far_p v;
        swap_ranges a far right_boundary left_boundary
  end.

(** The predicate given to [std::partition] in [quickHull]. *)
Definition upper_side (right v : point) (p : point) : bool :=
  point_eq p right || (0 <? cross (p - right) v)%Z.

(** Lines 207-217: the fix-up of the right boundary. *)
Definition edge_case (a : list point) (pivot last right_boundary : nat)
    (left right : point) : outcome nat :=
  if pivot + 1 =? last then Ok right_boundary
  else
    p ← rd a (pivot + 1);
    if (cross (right - left) (p - left) =? 0)%Z then
      _ ← ASSERT (pivot + 2 =? right_boundary);
      Ok (right_boundary - 1)
    else Ok right_boundary.

(** Lines 190-206 of [quickHull]: the two sides and their hulls.  The result
    is the array with [pivot], [left_boundary], [right_boundary], [left] and
    [right]. *)
Definition hull_sides (a : list point) (first last : nat)
    : outcome (list point * nat * nat * nat * point * point) :=
  '(min, max) ← minmax_element a first last;
  left ← rd a min;
  right ← rd a max;
  let v := (left - right)%pt in
  '(a, pivot) ← partition a first last (upper_side right v);
  a ← sort_range point_gt a first pivot;
  a ← sort_range point_lt a pivot last;
  p ← rd a first;
  _ ← ASSERT (point_eq p right);
  p ← rd a pivot;
  _ ← ASSERT (point_eq p left);
  '(a, left_boundary) ← findHull (S (pivot - first)) a first pivot right left;
  '(a, right_boundary) ← findHull (S (last - pivot)) a pivot last left right;
  Ok (a, pivot, left_boundary, right_boundary, left, right).

Definition quickHull (a : list point) (first last : nat)
    : outcome (list point * Z) :=
  '(a, pivot, left_boundary, right_boundary, left', right') ←
    hull_sides a first last;
  right_boundary ← edge_case a pivot last right_boundary left' right';
  '(a, boundary) ← swap_ranges a pivot right_boundary left_boundary;
  Ok (a, (Z.of_nat boundary - Z.of_nat first)%Z).

(** ** Graham Scan engine *)

Local Open Scope Z_scope.

Definition rdZ (a : list point) (i : Z) : outcome point :=
  if i <? 0 then Fault OutOfBounds else rd a (Z.to_nat i).

Definition wrZ (a : list point) (i : Z) (p : point) : outcome (list point) :=
  if i <? 0 then Fault OutOfBounds else wr a (Z.to_nat i) p.

Definition swapZ (a : list point) (i j : Z) : outcome (list point) :=
  if (i <? 0) || (j <? 0) then Fault OutOfBounds
  else swap a (Z.to_nat i) (Z.to_nat j).

(** The comparator given to [std::sort] in [grahamScan]. *)
Definition angle_lt (u v : point) : bool :=
  let c := cross u v in
  if negb (c =? 0) then 0 <? c
  else if negb (x u =? x v) then x u <? x v
  else y u <? y v.

(** Lines 254-261: the inner [while] of the collapse, with its [break]. *)
Fixpoint skip_run (fuel : nat) (ps : list point) (n : Z) (u : point) (i : Z)
    : outcome (point * Z) :=
  if i <? n - 1 then
    match fuel with
    | O => Fault OutOfFuel
    | S fuel =>
        v ← rdZ ps (i + 1);
        if negb (cross u v =? 0) then Ok (u, i)
        else skip_run fuel ps n v (i + 1)
    end
  else Ok (u, i).

(** Lines 250-263: the collapse of the runs of equal angle. *)
Fixpoint collapse (fuel : nat) (ps : list point) (n m i : Z)
    : outcome (list point * Z) :=
  if i <? n then
    match fuel with
    | O => Fault OutOfFuel
    | S fuel =>
        u ← rdZ ps i;
        '(u, i) ← skip_run (Z.to_nat (n - i)) ps n u i;
        ps ← wrZ ps m u;
        collapse fuel ps n (m + 1) (i + 1)
    end
  else Ok (ps, m).

(** Lines 271-276: the pops of the sweep. *)
Fixpoint pop (fuel : nat) (ps : list point) (cur p v : point) (s : Z)
    : outcome (point * point * Z) :=
  if (0 <? s) && (0 <=? cross (cur - p) v) then
    match fuel with
    | O => Fault OutOfFuel
    | S fuel =>
        let s := s - 1 in
        p ← rdZ ps (s - 1);
        q ← rdZ ps s;
        pop fuel ps cur p (q - p) s
    end
  else Ok (p, v, s).

(** Lines 268-280: the sweep. *)
Fixpoint sweep (fuel : nat) (ps : list point) (m : Z) (p v : point) (s i : Z)
    : outcome (list point * Z) :=
  if i <? m then
    match fuel with
    | O => Fault OutOfFuel
    | S fuel =>
        cur ← rdZ ps i;
        '(p, v, s) ← pop (Z.to_nat s) ps cur p v s;
        let s := s + 1 in
        ps ← swapZ ps i s;
        let p := (p + v)%pt in
        let v := (cur - p)%pt in
        sweep fuel ps m p v s (i + 1)
    end
  else Ok (ps, s).

Definition grahamScan (ps : list point) (n : nat) : outcome (list point * Z) :=
  min_it ← min_element ps 0 n;
  min ← rd ps min_it;
  ps ← swap ps min_it 0;
  ps ← transform ps 0 n (fun p => p - min)%pt;
  ps ← sort_range angle_lt ps 1 n;
  '(ps, m) ← collapse n ps (Z.of_nat n) 1 1;
  p ← rdZ ps 0;
  q ← rdZ ps 1;
  let v := (q - p)%pt in
  '(ps, s) ← sweep (Z.to_nat m) ps m p v 1 2;
  ps ← transform ps 0 n (fun p => p + min)%pt;
  Ok (ps, s + 1).

Local Close Scope Z_scope.

(** ** Orchestrator *)

(** What [calculate] lets the outside see: its log line, the two timers and
    the upload of the array to the rendering buffer. *)
Inductive event : Type :=
| Print (n : nat)
| TimerStart (name : string)
| TimerStop (name : string)
| BufferSubData (n : nat) (data : list point).

(** The two global arrays. *)
Record globals : Type := Globals { ps : list point; buffer : list point }.

(** A computation that logs events; the log is kept when it faults. *)
Definition logged (A : Type) : Type := (list event * outcome A)%type.

#[global] Instance logged_ret : MRet logged := fun A a => ([], Ok a).
#[global] Instance logged_bind : MBind logged := fun A B f m =>
  match m with
  | (log, Ok a) => let '(log', r) := f a in (log ++ log', r)
  | (log, Fault e) => (log, Fault e)
  end.

Definition emit (e : event) : logged unit := ([e], Ok tt).
Definition run {A : Type} (m : outcome A) : logged A := ([], m).

(** Lines 82-88: the generated points go to both arrays.  The generator is
    external; [gen i] is the point it produces at step [i]. *)
Definition generate (gen : nat → point) (g : globals) (n : nat)
    : outcome globals :=
  foldl (fun r i =>
           g ← r;
           b ← wr (buffer g) i (gen i);
           a ← wr (ps g) i (gen i);
           Ok (Globals a b))
        (Ok g) (seq 0 n).

(** [std::copy(buffer, buffer + n, ps)] *)
Definition copy (src : list point) (n : nat) (dst : list point)
    : outcome (list point) :=
  foldl (fun r i => dst ← r; p ← rd src i; wr dst i p) (Ok dst) (seq 0 n).

Definition calculate (gen : nat → point) (g : globals) (n : nat)
    : logged (globals * Z) :=
  _ ← emit (Print n);
  g ← run (generate gen g n);
  _ ← emit (TimerStart "Graham Scan");
  '(a, _) ← run (grahamScan (ps g) n);
  _ ← emit (TimerStop "Graham Scan");
  a ← run (copy (buffer g) n a);
  _ ← emit (TimerStart "QuickHull");
  '(a, hull_count) ← run (quickHull a 0 n);
  _ ← emit (TimerStop "QuickHull");
  _ ← emit (BufferSubData n a);
  mret (Globals a (buffer g), hull_count).

(** * Auxiliary definitions for the statements and proofs *)

(** What the single pass leaves behind the boundary: an element that fails
    the predicate joins the back; one that satisfies it is exchanged with the
    first element of the back, which moves to its end. *)
Definition rotate1 (l : list point) : list point :=
  match l with
  | [] => []
  | m :: ms => ms ++ [m]
  end.

Definition hsp_back (pred : point → bool) (l : list point) : list point :=
  foldl (fun back p => if pred p then rotate1 back else back ++ [p]) [] l.


(** The distances that the search loop of [findHull] computes. *)
Definition dists (d u : point) (l : list point) : list Z :=
  map (fun p => cross d (u - p)%pt) l.

(** [f] is the first position of the largest element of [ds], and no
    element of [ds] is negative. *)
Definition first_max (ds : list Z) (f : nat) (D : Z) : Prop :=
  ds !! f = Some D ∧
  Forall (fun d => (0 ≤ d ≤ D)%Z) ds ∧
  Forall (fun d => (d < D)%Z) (take f ds).

(** The invariant of the search loop at [it]. *)
Definition farthest_at (a : list point) (first : nat) (d u : point)
    (it : nat) (st : Z * option nat) : Prop :=
  (it = S first ∧ st = ((-1)%Z, None)) ∨
  (∃ f, st.2 = Some (S first + f) ∧
        first_max (dists d u (seg a (S first) it)) f st.1).

(** The recursion of [findHull] on the contents [l] of its range, as a
    relation: [hull_chain l u v c r] when the call on [l] with the edge
    [(u, v)] leaves [c ++ r] in the range and returns the boundary between
    [c] and [r].  [findHull_sound] and [findHull_complete] relate it to
    [findHull]. *)
Inductive hull_chain :
    list point → point → point → list point → list point → Prop :=
| hull_chain_one (u v : point) : hull_chain [u] u v [u] []
| hull_chain_far (u v : point) (rest : list point) (f : nat) (D : Z)
    (far_p : point) (c1 r1 c2 r2 : list point) :
    first_max (dists (v - u) u rest) f D →
    rest !! f = Some far_p →
    hull_chain
      (u :: List.filter (isOuterior (u - far_p) (v - far_p) far_p) (take f rest))
      u far_p c1 r1 →
    hull_chain
      (far_p :: List.filter (isOuterior (u - far_p) (v - far_p) far_p)
                  (drop (S f) rest))
      far_p v c2 r2 →
    hull_chain (u :: rest) u v (c1 ++ c2)
      (Nat.iter (length c2) rotate1
         (r1 ++ hsp_back (isOuterior (u - far_p) (v - far_p) far_p)
                  (take f rest))
       ++ r2
       ++ hsp_back (isOuterior (u - far_p) (v - far_p) far_p)
            (drop (S f) rest)).

(** The smallest and the largest point of a range, for the order of
    [point_lt]. *)
Definition is_min (s : list point) (m : point) : Prop :=
  m ∈ s ∧ Forall (fun p => point_lt p m = false) s.

Definition is_max (s : list point) (m : point) : Prop :=
  m ∈ s ∧ Forall (fun p => point_lt m p = false) s.

(** A list that [sort comp] leaves as it is. *)
Definition ordered (comp : point → point → bool) (l : list point) : Prop :=
  Sorted (fun p q => comp p q = true ∨ p = q) l.

(** The invariant of the loop of [minmax_element] at [it]. *)
Definition minmax_at (a : list point) (first : nat) (it : nat)
    (st : nat * nat) : Prop :=
  ∃ m M, a !! st.1 = Some m ∧ a !! st.2 = Some M ∧
         is_min (seg a first it) m ∧ is_max (seg a first it) M.

(** The number [kk] of vertices of the second chain that the fix-up of
    [quickHull] (lines 207-217) keeps, when the second call has left
    [c2 ++ r2] in its range. *)
Definition edge_keep (left right : point) (c2 r2 : list point) (kk : nat)
    : Prop :=
  match (c2 ++ r2) !! 1 with
  | None => kk = length c2
  | Some p =>
      if (cross (right - left) (p - left) =? 0)%Z
      then length c2 = 2 ∧ kk = 1
      else kk = length c2
  end.

(** The two sides that [quickHull] hands to [findHull]. *)
Definition upper (left right : point) (s : list point) : list point :=
  sort point_gt (List.filter (upper_side right (left - right)) s).

Definition lower (left right : point) (s : list point) : list point :=
  sort point_lt
    (List.filter (fun p => negb (upper_side right (left - right) p)) s).

(** [quickHull] on the contents [s] of its range: it leaves [res] there and
    returns [k]. *)
Definition quickHull_spec (s res : list point) (k : nat) : Prop :=
  ∃ left right c1 r1 c2 r2 kk,
    is_min s left ∧ is_max s right ∧
    hull_chain (upper left right s) right left c1 r1 ∧
    hull_chain (lower left right s) left right c2 r2 ∧
    edge_keep left right c2 r2 kk ∧
    res = c1 ++ take kk c2 ++ Nat.iter kk rotate1 r1 ++ drop kk c2 ++ r2 ∧
    k = length c1 + kk.

(** Three points on one line. *)
Definition collinear (a b c : point) : Prop :=
  cross (b - a) (c - a) = 0%Z.

(** The origin, and the half plane of the points that are not smaller than
    it: where the points are once [grahamScan] has translated them. *)
Definition origin : point := Point 0 0.

Definition in_half (p : point) : Prop := point_lt p origin = false.

(** The inner loop of the collapse on the points that follow [u]: the last
    point of the run of [u], and the points after the run. *)
Fixpoint skip (u : point) (l : list point) : point * list point :=
  match l with
  | [] => (u, [])
  | v :: l' => if (cross u v =? 0)%Z then skip v l' else (u, l)
  end.

(** The collapse: the last point of every run. *)
Fixpoint compact (l : list point) : list point :=
  match l with
  | [] => []
  | u :: l' =>
      match l' with
      | [] => [u]
      | v :: _ => if (cross u v =? 0)%Z then compact l' else u :: compact l'
      end
  end.

(** Every three consecutive points of [l] make a strict left turn: the pop
    test of the sweep fails on them. *)
Fixpoint left_turns (l : list point) : Prop :=
  match l with
  | a :: l' =>
      match l' with
      | b :: c :: _ => (cross (c - a) (b - a) < 0)%Z ∧ left_turns l'
      | _ => True
      end
  | [] => True
  end.

(** The invariant of the loop of [min_element] at [it]: [smallest] is the
    first position of the smallest point of [first, it). *)
Definition min_at (a : list point) (first : nat) (it : nat) (smallest : nat)
    : Prop :=
  first ≤ smallest < it ∧
  ∃ m, a !! smallest = Some m ∧ is_min (seg a first it) m ∧
       Forall (fun p => point_lt m p = true) (seg a first smallest).

(** The invariant of the sweep of [grahamScan], where [ps0] is the array
    that the sweep starts from: the slots [0, s] of [ps] are the stack,
    a subsequence of the points met so far that makes left turns only, [p]
    is the point below the top and [v] leads from [p] to the top; the slots
    from [i] on are as in [ps0]. *)
Definition sweep_inv (ps0 : list point) (m : nat) (ps : list point)
    (p v : point) (s i : nat) : Prop :=
  length ps = length ps0 ∧ 1 ≤ s ∧ s < i ∧ i ≤ m ∧ m ≤ length ps0 ∧
  drop i ps = drop i ps0 ∧
  ps !! 0 = ps0 !! 0 ∧ ps !! 1 = ps0 !! 1 ∧
  ps !! (s - 1) = Some p ∧ ps !! s = Some (p + v)%pt ∧
  left_turns (take (S s) ps) ∧
  take (S s) ps `sublist_of` take i ps0.

(** The two engines, as [calculate] calls them on the first [n] points of
    an array. *)
Inductive engine : Type := QuickHull | GrahamScan.

Definition run_engine (e : engine) (a : list point) (n : nat)
    : outcome (list point * Z) :=
  match e with
  | QuickHull => quickHull a 0 n
  | GrahamScan => grahamScan a n
  end.

(** [calculate] refuses its input: it faults before it has started an
    engine. *)
Definition rejected_up_front {A : Type} (r : logged A) : Prop :=
  (∃ e, r.2 = Fault e) ∧ ∀ name, TimerStart name ∉ r.1.

(** The order of [point_lt], made reflexive, and the order in which a side
    of [quickHull] is sorted: descending ([desc = true], the upper side,
    [std::greater]) or ascending (the lower side). *)
Definition lex_le (p q : point) : Prop := point_lt q p = false.

Definition before (desc : bool) (p q : point) : Prop :=
  if desc then lex_le q p else lex_le p q.


(** The sweep of [grahamScan] on the stack alone, the top first: the pops
    for the point [cur] (lines 271-276), and the rounds of the sweep for
    the points [cs]. *)
Fixpoint pops (cur : point) (st : list point) : list point :=
  match st with
  | t :: st' =>
      match st' with
      | y :: _ =>
          if (0 <=? cross (cur - y) (t - y))%Z then pops cur st' else st
      | [] => st
      end
  | [] => []
  end.

Definition scan (st : list point) (cs : list point) : list point :=
  foldl (fun st cur => cur :: pops cur st) st cs.

(** [q] is on the left of the directed line from [a] to [b], or on it. *)
Definition left_of (a b q : point) : Prop :=
  (0 ≤ cross (b - a) (q - a))%Z.

(** [q] is on the left of every edge of the closed polygon with the
    vertices [poly], or on it. *)
Definition inside (poly : list point) (q : point) : Prop :=
  ∀ j a b, poly !! j = Some a → (poly ++ take 1 poly) !! S j = Some b →
           left_of a b q.

(** Every three consecutive vertices of the closed polygon [poly] make a
    strict left turn. *)
Definition strictly_convex (poly : list point) : Prop :=
  ∀ j a b c, poly !! j = Some a → (poly ++ take 2 poly) !! S j = Some b →
             (poly ++ take 2 poly) !! S (S j) = Some c →
             (0 < cross (b - a) (c - b))%Z.

(** On a stack [st] of the sweep, the top first: [q] is on the left of
    every edge, and every three consecutive points make a strict left
    turn. *)
Fixpoint edges_ok (st : list point) (q : point) : Prop :=
  match st with
  | t :: st' =>
      match st' with
      | y :: _ => left_of y t q ∧ edges_ok st' q
      | [] => True
      end
  | [] => True
  end.

Fixpoint turns_ok (st : list point) : Prop :=
  match st with
  | t :: st' =>
      match st' with
      | y :: x :: _ => (0 < cross (y - x) (t - y))%Z ∧ turns_ok st'
      | _ => True
      end
  | [] => True
  end.

(** The invariant of the sweep on the stack [st], after the points [done]:
    the stack ends with the origin, its top is the last point of [done],
    its points are points of [done], in their order, every three
    consecutive points make a strict left turn, and the origin and every
    point of [done] are on the left of every edge. *)
Definition scan_inv (done st : list point) : Prop :=
  ∃ T t, st = T :: t ++ [origin] ∧
         last done = Some T ∧
         rev (T :: t) `sublist_of` done ∧
         turns_ok st ∧
         (∀ q, q ∈ origin :: done → edges_ok st q).




(** * Properties *)

(** ** The outcome monad *)

Lemma bind_Ok {A B : Type} (a : A) (f : A → outcome B) : Ok a ≫= f = f a.
Proof. reflexivity. Qed.

Lemma bind_Fault {A B : Type} (e : fault) (f : A → outcome B) :
  Fault e ≫= f = Fault e.
Proof. reflexivity. Qed.

Lemma bind_Ok_inv {A B : Type} (m : outcome A) (f : A → outcome B) (b : B) :
  m ≫= f = Ok b → ∃ a, m = Ok a ∧ f a = Ok b.
Proof. destruct m as [a|e]; [eauto | discriminate]. Qed.

Lemma ASSERT_Ok_inv (b : bool) (u : unit) : ASSERT b = Ok u → b = true.
Proof. destruct b; [reflexivity | discriminate]. Qed.

(** Split a hypothesis [m ≫= f = Ok b] into its two runs. *)
Ltac inv_bind H :=
  let a := fresh "r" in
  let H1 := fresh H "l" in
  apply bind_Ok_inv in H as (a & H1 & H).

Tactic Notation "bind_inv" hyp(H) "as" simple_intropattern(a) ident(H1) :=
  apply bind_Ok_inv in H as (a & H1 & H).

(** ** Reads, writes and swaps *)

Lemma rd_Ok (a : list point) (i : nat) (p : point) :
  rd a i = Ok p ↔ a !! i = Some p.
Proof. unfold rd. destruct (a !! i); split; congruence. Qed.

Lemma rd_lt (a : list point) (i : nat) (p : point) :
  rd a i = Ok p → i < length a.
Proof. rewrite rd_Ok. apply lookup_lt_Some. Qed.

Lemma rd_total (a : list point) (i : nat) :
  i < length a → ∃ p, rd a i = Ok p.
Proof.
  intros Hi. destruct (lookup_lt_is_Some_2 a i Hi) as [p Hp].
  exists p. by apply rd_Ok.
Qed.

Lemma rd_Fault (a : list point) (i : nat) (e : fault) :
  rd a i = Fault e → e = OutOfBounds ∧ length a ≤ i.
Proof.
  unfold rd. destruct (a !! i) eqn:E; [discriminate|].
  intros [= <-]. split; [done|]. by apply lookup_ge_None.
Qed.

Lemma wr_Ok (a : list point) (i : nat) (p : point) (a' : list point) :
  wr a i p = Ok a' ↔ i < length a ∧ a' = <[i := p]> a.
Proof.
  unfold wr. case_decide; split.
  - intros [= <-]. done.
  - intros [_ ->]. done.
  - discriminate.
  - intros [? _]. lia.
Qed.

Lemma swap_Ok (a : list point) (i j : nat) (a' : list point) :
  swap a i j = Ok a' ↔
  ∃ p q, a !! i = Some p ∧ a !! j = Some q ∧ a' = <[j := p]> (<[i := q]> a).
Proof.
  unfold swap. split.
  - intros H. inv_bind H. inv_bind H. inv_bind H.
    apply rd_Ok in Hl, Hl0. apply wr_Ok in Hl1 as [_ ->].
    apply wr_Ok in H as [_ ->]. eauto.
  - intros (p & q & Hp & Hq & ->).
    apply rd_Ok in Hp as Hp', Hq as Hq'. rewrite Hp', Hq'. simpl.
    apply lookup_lt_Some in Hp, Hq.
    unfold wr. rewrite decide_True by done. simpl.
    rewrite decide_True by (by rewrite length_insert). done.
Qed.

Lemma swap_length (a : list point) (i j : nat) (a' : list point) :
  swap a i j = Ok a' → length a' = length a.
Proof.
  rewrite swap_Ok. intros (p & q & _ & _ & ->). by rewrite !length_insert.
Qed.

Lemma swap_self (a : list point) (i : nat) :
  i < length a → swap a i i = Ok a.
Proof.
  intros Hi. destruct (lookup_lt_is_Some_2 a i Hi) as [p Hp].
  apply swap_Ok. exists p, p. split_and!; [done..|].
  rewrite list_insert_insert_eq. by rewrite list_insert_id.
Qed.

Lemma swap_total (a : list point) (i j : nat) :
  i < length a → j < length a → ∃ a', swap a i j = Ok a'.
Proof.
  intros Hi Hj.
  destruct (lookup_lt_is_Some_2 a i Hi) as [p Hp].
  destruct (lookup_lt_is_Some_2 a j Hj) as [q Hq].
  eexists. apply swap_Ok. eauto.
Qed.

Lemma swap_Permutation (a : list point) (i j : nat) (a' : list point) :
  swap a i j = Ok a' → a ≡ₚ a'.
Proof.
  rewrite swap_Ok. intros (p & q & Hp & Hq & ->).
  destruct (decide (i = j)) as [->|Hne].
  { rewrite list_insert_insert_eq.
    replace q with p by congruence. by rewrite list_insert_id. }
  symmetry.
  apply (Permutation_inj _ _) . split; [by rewrite !length_insert|].
  exists (fun k => if decide (k = i) then j else if decide (k = j) then i else k).
  split.
  - intros k1 k2. repeat case_decide; congruence.
  - intros k. repeat case_decide; subst.
    + rewrite list_lookup_insert_ne by done.
      rewrite list_lookup_insert_eq by (by eapply lookup_lt_Some). done.
    + rewrite list_lookup_insert_eq; [done|].
      rewrite length_insert. by eapply lookup_lt_Some.
    + by rewrite !list_lookup_insert_ne.
Qed.
(** ** The pointer loop *)

Lemma for_ptr_done {St : Type} (room it : nat) (body : nat → St → outcome St)
    (s : St) :
  for_ptr room it it body s = Ok s.
Proof. destruct room; simpl; by rewrite Nat.eqb_refl. Qed.

Lemma for_ptr_step {St : Type} (room it last : nat)
    (body : nat → St → outcome St) (s : St) :
  it ≠ last →
  for_ptr (S room) it last body s = body it s ≫= for_ptr room (S it) last body.
Proof. intros Hne. simpl. by apply Nat.eqb_neq in Hne as ->. Qed.

(** A pointer that starts behind [last] never meets it. *)
Lemma for_ptr_past {St : Type} (room it last : nat)
    (body : nat → St → outcome St) (s : St) (s' : St) :
  last < it → for_ptr room it last body s ≠ Ok s'.
Proof.
  revert it s. induction room as [|room IH]; intros it s Hlt; simpl;
    (destruct (Nat.eqb_spec it last) as [->|_]; [lia|]); [done|].
  destruct (body it s) as [s1|e]; simpl; [|done]. apply IH. lia.
Qed.

(** Total correctness of the loop under an invariant. *)
Lemma for_ptr_total {St : Type} (I : nat → St → Prop) (room first last : nat)
    (body : nat → St → outcome St) (s : St) :
  first ≤ last → last - first ≤ room →
  I first s →
  (∀ it s, first ≤ it < last → I it s → ∃ s', body it s = Ok s' ∧ I (S it) s') →
  ∃ s', for_ptr room first last body s = Ok s' ∧ I last s'.
Proof.
  intros Hle Hroom HI Hbody.
  remember (last - first) as k eqn:Hk.
  revert room first s Hle Hroom HI Hbody Hk.
  induction k as [|k IH]; intros room first s Hle Hroom HI Hbody Hk.
  - assert (first = last) as -> by lia. exists s. by rewrite for_ptr_done.
  - destruct room as [|room]; [lia|].
    rewrite for_ptr_step by lia.
    destruct (Hbody first s) as (s1 & -> & HI1); [lia|done|]. simpl.
    apply IH; [lia|lia|done| |lia].
    intros it s2 Hit. apply Hbody. lia.
Qed.

(** Partial correctness of the loop under an invariant. *)
Lemma for_ptr_inv {St : Type} (I : nat → St → Prop) (room first last : nat)
    (body : nat → St → outcome St) (s s' : St) :
  I first s →
  (∀ it s s', first ≤ it < last → I it s → body it s = Ok s' → I (S it) s') →
  for_ptr room first last body s = Ok s' →
  first ≤ last ∧ I last s'.
Proof.
  intros HI Hbody Hrun.
  assert (first ≤ last) as Hle.
  { destruct (decide (first ≤ last)); [done|].
    exfalso. eapply (for_ptr_past room first last body s s'); [lia|done]. }
  split; [done|].
  revert first s HI Hbody Hrun Hle.
  induction room as [|room IH]; intros first s HI Hbody Hrun Hle; simpl in Hrun.
  - destruct (Nat.eqb_spec first last) as [->|_]; [|done]. congruence.
  - destruct (Nat.eqb_spec first last) as [->|Hne]; [congruence|].
    inv_bind Hrun. eapply (IH (S first)); [| |done|lia].
    + eapply Hbody; [lia|done..].
    + intros it s2 s3 Hit. apply Hbody. lia.
Qed.

(** The last iteration. *)
Lemma for_ptr_snoc {St : Type} (room first last : nat)
    (body : nat → St → outcome St) (s : St) :
  first ≤ last → last - first < room →
  for_ptr room first (S last) body s
  = for_ptr room first last body s ≫= body last.
Proof.
  revert first s. induction room as [|room IH]; intros first s Hle Hroom; [lia|].
  destruct (decide (first = last)) as [->|Hne].
  - rewrite for_ptr_done, for_ptr_step by lia. simpl.
    destruct (body last s); simpl; [|done]. by rewrite for_ptr_done.
  - rewrite !for_ptr_step by lia.
    destruct (body first s) as [s1|e]; simpl; [|done].
    apply IH; lia.
Qed.
(** ** Ranges of the array *)

Lemma seg_length (a : list point) (first last : nat) :
  last ≤ length a → length (seg a first last) = last - first.
Proof. intros H. unfold seg. rewrite length_take, length_drop. lia. Qed.

Lemma seg_nil (a : list point) (first : nat) : seg a first first = [].
Proof. unfold seg. by rewrite Nat.sub_diag. Qed.

Lemma seg_split (a : list point) (first last : nat) :
  first ≤ last →
  a = take first a ++ seg a first last ++ drop last a.
Proof.
  intros H. unfold seg.
  rewrite <- (take_drop first a) at 1. f_equal.
  rewrite <- (take_drop (last - first) (drop first a)) at 1. f_equal.
  rewrite drop_drop. f_equal. lia.
Qed.

Lemma splice_seg (a : list point) (first last : nat) :
  first ≤ last → splice a first last (seg a first last) = a.
Proof. intros H. unfold splice. by rewrite <- seg_split. Qed.

Lemma splice_length (a : list point) (first last : nat) (mid : list point) :
  first ≤ last → last ≤ length a → length mid = last - first →
  length (splice a first last mid) = length a.
Proof.
  intros H1 H2 H3. unfold splice.
  rewrite !length_app, length_take, length_drop. lia.
Qed.

Lemma seg_snoc (a : list point) (first last : nat) (p : point) :
  first ≤ last → a !! last = Some p →
  seg a first (S last) = seg a first last ++ [p].
Proof.
  intros H Hp. unfold seg.
  replace (S last - first) with (S (last - first)) by lia.
  erewrite take_S_r; [done|].
  rewrite lookup_drop. rewrite <- Hp. f_equal. lia.
Qed.

Lemma seg_cons (a : list point) (first last : nat) (p : point) :
  first < last → a !! first = Some p →
  seg a first last = p :: seg a (S first) last.
Proof.
  intros H Hp. unfold seg.
  rewrite (drop_S _ _ _ Hp).
  replace (last - first) with (S (last - S first)) by lia. done.
Qed.

Lemma seg_app (a : list point) (first mid last : nat) :
  first ≤ mid → mid ≤ last →
  seg a first last = seg a first mid ++ seg a mid last.
Proof.
  intros H1 H2. unfold seg.
  replace (last - first) with ((mid - first) + (last - mid)) by lia.
  rewrite <- take_take_drop. f_equal. rewrite drop_drop. do 2 f_equal. lia.
Qed.

Lemma seg_all (a : list point) : seg a 0 (length a) = a.
Proof. unfold seg. rewrite drop_0, Nat.sub_0_r. apply firstn_all. Qed.

Lemma seg_splice (a : list point) (first last : nat) (mid : list point) :
  first ≤ last → last ≤ length a → length mid = last - first →
  seg (splice a first last mid) first last = mid.
Proof.
  intros H1 H2 H3. unfold seg, splice.
  rewrite drop_app_length' by (rewrite length_take; lia).
  rewrite take_app_length' by lia. done.
Qed.

Lemma take_splice (a : list point) (first last : nat) (mid : list point) :
  first ≤ length a → take first (splice a first last mid) = take first a.
Proof.
  intros H. unfold splice. rewrite take_app_length'; [done|].
  rewrite length_take. lia.
Qed.

Lemma drop_splice (a : list point) (first last : nat) (mid : list point) :
  first ≤ last → last ≤ length a → length mid = last - first →
  drop last (splice a first last mid) = drop last a.
Proof.
  intros H1 H2 H3. unfold splice.
  rewrite app_assoc. rewrite drop_app_length'; [done|].
  rewrite length_app, length_take. lia.
Qed.

Lemma splice_Permutation (a : list point) (first last : nat)
    (mid : list point) :
  first ≤ last → seg a first last ≡ₚ mid → a ≡ₚ splice a first last mid.
Proof.
  intros H Hp. rewrite (seg_split a first last H) at 1.
  unfold splice. by rewrite Hp.
Qed.

Lemma swap_comm (a : list point) (i j : nat) : swap a i j = swap a j i.
Proof.
  destruct (swap a i j) as [a'|e] eqn:E.
  - symmetry. apply swap_Ok in E as (p & q & Hp & Hq & ->).
    apply swap_Ok. exists q, p. split_and!; [done..|].
    destruct (decide (i = j)) as [->|Hne].
    + replace q with p by congruence. done.
    + by apply list_insert_insert_ne.
  - destruct (swap a j i) as [a'|e'] eqn:E'.
    + apply swap_Ok in E' as (p & q & Hp & Hq & ->).
      assert (swap a i j = Ok (<[j:=q]> (<[i:=p]> a))) as E''.
      { apply swap_Ok. eauto. }
      congruence.
    + unfold swap in E, E'.
      destruct (rd a i) as [p|e1] eqn:Ei, (rd a j) as [q|e2] eqn:Ej;
        simpl in *; rewrite ?Ei, ?Ej in *; simpl in *.
      * apply rd_lt in Ei, Ej. unfold wr in E.
        rewrite decide_True in E by done. simpl in E.
        rewrite decide_True in E by (by rewrite length_insert). done.
      * apply rd_Fault in Ej as [-> _]. congruence.
      * apply rd_Fault in Ei as [-> _]. congruence.
      * apply rd_Fault in Ej as [-> _]. apply rd_Fault in Ei as [-> _].
        congruence.
Qed.

(** A swap seen on the pieces of the array. *)
Lemma swap_app (l1 l2 l3 : list point) (p q : point) (i j : nat) :
  i = length l1 → j = length l1 + S (length l2) →
  swap (l1 ++ p :: l2 ++ q :: l3) i j = Ok (l1 ++ q :: l2 ++ p :: l3).
Proof.
  intros -> ->. apply swap_Ok. exists p, q. split_and!.
  - by rewrite list_lookup_middle.
  - rewrite lookup_app_r by lia.
    replace (length l1 + S (length l2) - length l1) with (S (length l2)) by lia.
    simpl. by rewrite list_lookup_middle.
  - rewrite insert_app_r_alt by lia. rewrite Nat.sub_diag. simpl.
    rewrite insert_app_r_alt by lia.
    replace (length l1 + S (length l2) - length l1) with (S (length l2)) by lia.
    simpl. rewrite insert_app_r_alt by lia. by rewrite Nat.sub_diag.
Qed.
(** ** The partition utility *)

Lemma rotate1_Permutation (l : list point) : rotate1 l ≡ₚ l.
Proof. destruct l as [|m ms]; simpl; [done|]. by rewrite Permutation_app_comm. Qed.

Lemma rotate1_length (l : list point) : length (rotate1 l) = length l.
Proof. by rewrite rotate1_Permutation. Qed.

Lemma hsp_back_snoc (pred : point → bool) (l : list point) (p : point) :
  hsp_back pred (l ++ [p])
  = if pred p then rotate1 (hsp_back pred l) else hsp_back pred l ++ [p].
Proof. unfold hsp_back. by rewrite foldl_app. Qed.

Lemma hsp_back_Permutation (pred : point → bool) (l : list point) :
  hsp_back pred l ≡ₚ List.filter (fun p => negb (pred p)) l.
Proof.
  induction l as [|p l IH] using rev_ind; [done|].
  rewrite hsp_back_snoc, List.filter_app. simpl.
  destruct (pred p); simpl.
  - by rewrite rotate1_Permutation, app_nil_r.
  - by rewrite IH.
Qed.

Lemma hsp_back_length (pred : point → bool) (l : list point) :
  length (List.filter pred l) + length (hsp_back pred l) = length l.
Proof.
  induction l as [|p l IH] using rev_ind; [done|].
  rewrite hsp_back_snoc, List.filter_app, !length_app. simpl.
  destruct (pred p); simpl; rewrite ?rotate1_length, ?length_app; simpl; lia.
Qed.

Lemma hsp_back_all (pred : point → bool) (l : list point) :
  Forall (fun p => pred p = true) l → hsp_back pred l = [].
Proof.
  intros H. apply Permutation_nil_r. rewrite hsp_back_Permutation.
  induction H as [|p l Hp _ IH]; simpl; [done|]. by rewrite Hp.
Qed.

Lemma filter_all (pred : point → bool) (l : list point) :
  Forall (fun p => pred p = true) l → List.filter pred l = l.
Proof. induction 1 as [|p l Hp _ IH]; simpl; [done|]. by rewrite Hp, IH. Qed.

(** The pass, element by element. *)
Lemma half_stable_partition_run (a : list point) (first : nat)
    (pred : point → bool) (k : nat) :
  first + k ≤ length a →
  half_stable_partition a first (first + k) pred
  = Ok (splice a first (first + k)
          (List.filter pred (seg a first (first + k))
           ++ hsp_back pred (seg a first (first + k))),
        first + length (List.filter pred (seg a first (first + k)))).
Proof.
  unfold half_stable_partition.
  induction k as [|k IH]; intros Hk.
  - rewrite Nat.add_0_r, for_ptr_done, seg_nil. simpl.
    rewrite Nat.add_0_r. do 2 f_equal. unfold splice. simpl.
    by rewrite take_drop.
  - replace (first + S k) with (S (first + k)) by lia.
    rewrite for_ptr_snoc by lia. rewrite IH by lia. clear IH. simpl.
    destruct (lookup_lt_is_Some_2 a (first + k)) as [p Hp]; [lia|].
    rewrite (seg_snoc a first (first + k) p) by (done || lia).
    set (s := seg a first (first + k)).
    assert (length s = k) as Hs by (unfold s; rewrite seg_length; lia).
    pose proof (hsp_back_length pred s) as Hlen.
    assert (length (take first a) = first) as Htk by (rewrite length_take; lia).
    assert (rd (splice a first (first + k)
                  (List.filter pred s ++ hsp_back pred s)) (first + k) = Ok p)
      as ->.
    { apply rd_Ok. unfold splice.
      rewrite (drop_S a p (first + k) Hp).
      rewrite !app_assoc. apply list_lookup_middle.
      rewrite !length_app. lia. }
    simpl. rewrite List.filter_app, hsp_back_snoc. simpl.
    destruct (pred p) eqn:Epred; simpl.
    + rewrite swap_comm.
      destruct (hsp_back pred s) as [|m ms] eqn:Eback; simpl in *.
      * rewrite app_nil_r in *. replace (first + length (List.filter pred s))
          with (first + k) by lia.
        rewrite swap_self.
        2:{ rewrite splice_length; rewrite ?length_app; simpl; lia. }
        simpl. rewrite length_app. simpl. do 2 f_equal; [|lia].
        unfold splice. rewrite (drop_S a p (first + k) Hp).
        rewrite app_nil_r. rewrite <- (app_assoc (List.filter pred s)). done.
      * unfold splice. rewrite (drop_S a p (first + k) Hp).
        replace (take first a ++ (List.filter pred s ++ m :: ms)
                 ++ p :: drop (S (first + k)) a)
          with ((take first a ++ List.filter pred s)
                ++ m :: ms ++ p :: drop (S (first + k)) a)
          by (by rewrite <- ?app_assoc).
        rewrite (swap_app _ ms _ m p) by (rewrite length_app; lia).
        simpl. rewrite length_app. simpl. do 2 f_equal; [|lia].
        rewrite <- ?app_assoc. simpl. by rewrite <- ?app_assoc.
    + rewrite !app_nil_r. do 2 f_equal.
      unfold splice. rewrite (drop_S a p (first + k) Hp).
      rewrite <- ?app_assoc. simpl. done.
Qed.

Lemma half_stable_partition_Ok (a : list point) (first last : nat)
    (pred : point → bool) :
  first ≤ last ≤ length a →
  half_stable_partition a first last pred
  = Ok (splice a first last
          (List.filter pred (seg a first last)
           ++ hsp_back pred (seg a first last)),
        first + length (List.filter pred (seg a first last))).
Proof.
  intros [H1 H2]. replace last with (first + (last - first)) by lia.
  apply half_stable_partition_run. lia.
Qed.

(** The two sides of a partitioned range. *)
Lemma seg_splice_app (a : list point) (first last : nat) (l1 l2 : list point) :
  first ≤ last → last ≤ length a → length (l1 ++ l2) = last - first →
  seg (splice a first last (l1 ++ l2)) first (first + length l1) = l1 ∧
  seg (splice a first last (l1 ++ l2)) (first + length l1) last = l2.
Proof.
  intros H1 H2 H3. rewrite length_app in H3.
  pose proof (seg_splice a first last (l1 ++ l2) H1 H2) as Hs.
  rewrite length_app in Hs. specialize (Hs H3).
  rewrite (seg_app _ first (first + length l1) last) in Hs by lia.
  apply app_inj_1 in Hs; [done|].
  rewrite seg_length; [lia|].
  rewrite splice_length; rewrite ?length_app; lia.
Qed.

Lemma Forall_filter_true (pred : point → bool) (l : list point) :
  Forall (fun p => pred p = true) (List.filter pred l).
Proof.
  apply List.Forall_forall. intros p Hp. by apply List.filter_In in Hp as [_ ?].
Qed.

(** C4. For every range [first, last) of the array and every predicate,
    [half_stable_partition] returns; it leaves the array outside the range
    as it was and the range a permutation of its contents; the returned
    boundary [p] lies in the range, [first, p) holds exactly the elements
    that satisfy the predicate, in their original relative order, and no
    element of [p, last) satisfies it. *)
Theorem half_stable_partition_spec (a : list point) (first last : nat)
    (pred : point → bool) :
  first ≤ last ≤ length a →
  ∃ a' p,
    half_stable_partition a first last pred = Ok (a', p) ∧
    first ≤ p ≤ last ∧
    length a' = length a ∧
    take first a' = take first a ∧
    drop last a' = drop last a ∧
    seg a' first last ≡ₚ seg a first last ∧
    seg a' first p = List.filter pred (seg a first last) ∧
    Forall (fun q => pred q = true) (seg a' first p) ∧
    Forall (fun q => pred q = false) (seg a' p last).
Proof.
  intros [H1 H2].
  set (s := seg a first last).
  assert (length s = last - first) as Hs by (by apply seg_length).
  pose proof (hsp_back_length pred s) as Hlen.
  assert (length (List.filter pred s ++ hsp_back pred s) = last - first)
    as Hmid by (rewrite length_app; lia).
  destruct (seg_splice_app a first last _ _ H1 H2 Hmid) as [Hfront Hback].
  eexists _, _. split; [by apply half_stable_partition_Ok|]. fold s.
  split_and!.
  - lia.
  - lia.
  - by apply splice_length.
  - apply take_splice. lia.
  - by apply drop_splice.
  - rewrite seg_splice by done.
    rewrite hsp_back_Permutation.
    clear. induction s as [|q s IH]; simpl; [done|].
    destruct (pred q); simpl; [by rewrite IH|].
    by rewrite <- Permutation_middle, IH.
  - done.
  - rewrite Hfront. apply Forall_filter_true.
  - rewrite Hback.
    eapply Permutation_Forall; [symmetry; apply hsp_back_Permutation|].
    apply List.Forall_forall. intros q Hq.
    apply List.filter_In in Hq as [_ Hq]. by apply negb_true_iff.
Qed.

Lemma half_stable_partition_spec_witness :
  ∃ a' p,
    half_stable_partition [Point 0 0; Point 3 1; Point 1 0; Point 2 2; Point 5 0]
      1 5 (fun q => (y q =? 0)%Z) = Ok (a', p) ∧
    p = 3 ∧ a' = [Point 0 0; Point 1 0; Point 5 0; Point 2 2; Point 3 1].
Proof.
  destruct (half_stable_partition_spec
              [Point 0 0; Point 3 1; Point 1 0; Point 2 2; Point 5 0] 1 5
              (fun q => (y q =? 0)%Z)) as (a' & p & Hrun & _).
  { simpl. lia. }
  exists a', p. split; [exact Hrun|].
  vm_compute in Hrun. injection Hrun as <- <-. split; reflexivity.
Defined.
(** ** [std::swap_ranges] *)

Lemma iter_rotate1_Permutation (k : nat) (l : list point) :
  Nat.iter k rotate1 l ≡ₚ l.
Proof. induction k as [|k IH]; simpl; [done|]. by rewrite rotate1_Permutation. Qed.

Lemma iter_rotate1_length (k : nat) (l : list point) :
  length (Nat.iter k rotate1 l) = length l.
Proof. by rewrite iter_rotate1_Permutation. Qed.

Lemma iter_rotate1_nil (k : nat) : Nat.iter k rotate1 [] = [].
Proof. apply Permutation_nil_r. apply iter_rotate1_Permutation. Qed.

(** The exchange, slot by slot: the range [far, far + k) lands at [lb] and
    the slots in between are rotated behind it. *)
Lemma swap_ranges_run (a : list point) (lb far k : nat) :
  lb ≤ far → far + k ≤ length a →
  swap_ranges a far (far + k) lb
  = Ok (splice a lb (far + k)
          (seg a far (far + k) ++ Nat.iter k rotate1 (seg a lb far)),
        lb + k).
Proof.
  unfold swap_ranges. intros Hlb.
  induction k as [|k IH]; intros Hk.
  - rewrite Nat.add_0_r, for_ptr_done, seg_nil. simpl.
    rewrite Nat.add_0_r. do 2 f_equal. by rewrite splice_seg.
  - replace (far + S k) with (S (far + k)) by lia.
    rewrite for_ptr_snoc by lia. rewrite IH by lia. clear IH. simpl.
    destruct (lookup_lt_is_Some_2 a (far + k)) as [p Hp]; [lia|].
    rewrite (seg_snoc a far (far + k) p) by (done || lia).
    set (h := seg a far (far + k)).
    assert (length h = k) as Hh by (unfold h; rewrite seg_length; lia).
    pose proof (iter_rotate1_length k (seg a lb far)) as Hlen.
    rewrite seg_length in Hlen by lia.
    assert (length (take lb a) = lb) as Htk by (rewrite length_take; lia).
    unfold splice. rewrite (drop_S a p (far + k) Hp).
    rewrite swap_comm.
    destruct (Nat.iter k rotate1 (seg a lb far)) as [|m ms] eqn:Eback;
      simpl in *.
    + rewrite app_nil_r.
      replace (lb + k) with (far + k) by lia.
      rewrite swap_self.
      2:{ rewrite !length_app. simpl. lia. }
      simpl. do 2 f_equal; [|lia].
      by rewrite <- ?app_assoc.
    + replace (take lb a ++ (h ++ m :: ms) ++ p :: drop (S (far + k)) a)
        with ((take lb a ++ h) ++ m :: ms ++ p :: drop (S (far + k)) a)
        by (by rewrite <- ?app_assoc).
      rewrite (swap_app _ ms _ m p) by (rewrite length_app; lia).
      simpl. do 2 f_equal; [|lia].
      rewrite <- ?app_assoc. simpl. by rewrite <- ?app_assoc.
Qed.

Lemma swap_ranges_Ok (a : list point) (lb far rb : nat) :
  lb ≤ far → far ≤ rb → rb ≤ length a →
  swap_ranges a far rb lb
  = Ok (splice a lb rb
          (seg a far rb ++ Nat.iter (rb - far) rotate1 (seg a lb far)),
        lb + (rb - far)).
Proof.
  intros H1 H2 H3. replace rb with (far + (rb - far)) at 1 2 3 by lia.
  rewrite swap_ranges_run by lia. do 4 f_equal; lia.
Qed.

(** With nothing in between, the exchange changes nothing. *)
Lemma swap_ranges_adjacent (a : list point) (far rb : nat) :
  far ≤ rb → rb ≤ length a → swap_ranges a far rb far = Ok (a, rb).
Proof.
  intros H1 H2. rewrite swap_ranges_Ok by lia.
  rewrite seg_nil, iter_rotate1_nil, app_nil_r.
  do 2 f_equal; [|lia].
  unfold splice. rewrite (seg_split a far rb) at 4 by done. done.
Qed.
(** ** What a successful loop tells about its range *)

Lemma for_ptr_room {St : Type} (room it last : nat)
    (body : nat → St → outcome St) (s s' : St) :
  for_ptr room it last body s = Ok s' → it ≤ last ∧ last - it ≤ room.
Proof.
  intros Hrun.
  assert (it ≤ last) as Hle.
  { destruct (decide (it ≤ last)); [done|].
    exfalso. eapply (for_ptr_past room it last body s s'); [lia|done]. }
  split; [done|].
  revert it s Hrun Hle. induction room as [|room IH]; intros it s Hrun Hle;
    simpl in Hrun; destruct (Nat.eqb_spec it last) as [->|Hne]; try lia;
    [done|].
  inv_bind Hrun.
  assert (S it ≤ last) as Hle' by lia.
  specialize (IH _ _ Hrun Hle'). lia.
Qed.

Lemma for_ptr_range (a : list point) {St : Type} (first last : nat)
    (body : nat → St → outcome St) (s s' : St) :
  for_ptr (length a - first) first last body s = Ok s' →
  first ≤ last ∧ (first = last ∨ last ≤ length a).
Proof. intros H. apply for_ptr_room in H. lia. Qed.

Lemma splice_empty (a : list point) (first : nat) : splice a first first [] = a.
Proof. unfold splice. simpl. apply take_drop. Qed.

Lemma half_stable_partition_inv (a : list point) (first last : nat)
    (pred : point → bool) (a' : list point) (p : nat) :
  half_stable_partition a first last pred = Ok (a', p) →
  first ≤ last ∧ (first = last ∨ last ≤ length a) ∧
  a' = splice a first last
         (List.filter pred (seg a first last)
          ++ hsp_back pred (seg a first last)) ∧
  p = first + length (List.filter pred (seg a first last)).
Proof.
  intros H. pose proof H as Hr. apply for_ptr_range in Hr as [H1 H2].
  split; [done|]. split; [done|].
  destruct H2 as [<-|H2].
  - unfold half_stable_partition in H. rewrite for_ptr_done in H.
    injection H as <- <-. rewrite seg_nil. simpl.
    by rewrite splice_empty, Nat.add_0_r.
  - rewrite half_stable_partition_Ok in H by done. by injection H as <- <-.
Qed.

Lemma half_stable_partition_all (a : list point) (first last : nat)
    (pred : point → bool) :
  first ≤ last ≤ length a →
  Forall (fun q => pred q = true) (seg a first last) →
  half_stable_partition a first last pred = Ok (a, last).
Proof.
  intros [H1 H2] Hall. rewrite half_stable_partition_Ok by done.
  rewrite hsp_back_all, filter_all, app_nil_r by done.
  rewrite splice_seg, seg_length by done. do 2 f_equal. lia.
Qed.

Lemma swap_ranges_inv (a : list point) (lb far rb : nat) (a' : list point)
    (b : nat) :
  swap_ranges a far rb lb = Ok (a', b) →
  far ≤ rb ∧ (far = rb ∨ rb ≤ length a) ∧ b = lb + (rb - far).
Proof.
  intros H. pose proof H as Hr. apply for_ptr_range in Hr as [H1 H2].
  split; [done|]. split; [done|].
  unfold swap_ranges in H.
  eapply (for_ptr_inv (fun it '(_, f2) => f2 = lb + (it - far))) in H.
  - destruct H as [_ H]. done.
  - lia.
  - intros it [a1 f1] [a2 f2] Hit -> Hb. inv_bind Hb. injection Hb as <- <-. lia.
Qed.

Lemma half_stable_partition_Permutation (a : list point) (first last : nat)
    (pred : point → bool) (a' : list point) (p : nat) :
  half_stable_partition a first last pred = Ok (a', p) →
  a ≡ₚ a' ∧ length a' = length a.
Proof.
  unfold half_stable_partition. intros H.
  eapply (for_ptr_inv (fun _ '(a1, _) => a ≡ₚ a1 ∧ length a1 = length a)) in H.
  - by destruct H as [_ H].
  - done.
  - intros it [a1 f1] [a2 f2] Hit [Hp Hl] Hb. inv_bind Hb.
    destruct (pred r).
    + inv_bind Hb. injection Hb as <- <-.
      split; [by rewrite Hp; eapply swap_Permutation|].
      erewrite swap_length by done. done.
    + by injection Hb as <- <-.
Qed.

Lemma swap_ranges_Permutation (a : list point) (lb far rb : nat)
    (a' : list point) (b : nat) :
  swap_ranges a far rb lb = Ok (a', b) →
  a ≡ₚ a' ∧ length a' = length a.
Proof.
  unfold swap_ranges. intros H.
  eapply (for_ptr_inv (fun _ '(a1, _) => a ≡ₚ a1 ∧ length a1 = length a)) in H.
  - by destruct H as [_ H].
  - done.
  - intros it [a1 f1] [a2 f2] Hit [Hp Hl] Hb. inv_bind Hb.
    injection Hb as <- <-.
    split; [by rewrite Hp; eapply swap_Permutation|].
    erewrite swap_length by done. done.
Qed.
(** ** The search for the farthest point *)

Lemma first_max_unique (ds : list Z) (f f' : nat) (D D' : Z) :
  first_max ds f D → first_max ds f' D' → f = f' ∧ D = D'.
Proof.
  intros (H1 & H2 & H3) (H1' & H2' & H3').
  assert (D = D') as <-.
  { pose proof (Forall_lookup_1 _ _ _ _ H2 H1') as Ha.
    pose proof (Forall_lookup_1 _ _ _ _ H2' H1) as Hb. simpl in *. lia. }
  split; [|done].
  destruct (Nat.lt_total f f') as [Hlt|[->|Hlt]]; [|done|].
  - assert (take f' ds !! f = Some D) as Hin by (by rewrite lookup_take_lt).
    pose proof (Forall_lookup_1 _ _ _ _ H3' Hin). simpl in *. lia.
  - assert (take f ds !! f' = Some D) as Hin by (by rewrite lookup_take_lt).
    pose proof (Forall_lookup_1 _ _ _ _ H3 Hin). simpl in *. lia.
Qed.

Lemma first_max_lt (ds : list Z) (f : nat) (D : Z) :
  first_max ds f D → f < length ds ∧ (0 ≤ D)%Z.
Proof.
  intros (H1 & H2 & _). split; [by eapply lookup_lt_Some|].
  pose proof (Forall_lookup_1 _ _ _ _ H2 H1). simpl in *. lia.
Qed.

Lemma farthest_body (a : list point) (first : nat) (d u : point) (it : nat)
    (st : Z * option nat) (p : point) :
  S first ≤ it → a !! it = Some p → (0 ≤ cross d (u - p))%Z →
  farthest_at a first d u it st →
  farthest_at a first d u (S it)
    (if (st.1 <? cross d (u - p))%Z then (cross d (u - p)%pt, Some it) else st).
Proof.
  intros Hit Hp Hcur HI. right.
  assert (length (seg a (S first) it) = it - S first) as Hlen.
  { apply seg_length. apply lookup_lt_Some in Hp. lia. }
  unfold dists. rewrite (seg_snoc a (S first) it p) by done.
  rewrite map_app. simpl.
  set (l := map (fun p => cross d (u - p)) (seg a (S first) it)).
  assert (length l = it - S first) as Hl by (unfold l; by rewrite length_map).
  unfold farthest_at, dists in HI. fold l in HI.
  destruct HI as [[-> ->]|(f & Hf & Hmax)]; simpl.
  - assert (l = []) as -> by (apply length_zero_iff_nil; lia).
    destruct (Z.ltb_spec (-1) (cross d (u - p))); [|lia]. simpl.
    exists 0. split; [f_equal; lia|].
    split_and!; [done| |done].
    repeat constructor; lia.
  - destruct Hmax as (H1 & H2 & H3).
    destruct (Z.ltb_spec st.1 (cross d (u - p))) as [Hlt|Hge]; simpl.
    + exists (length l). split; [f_equal; lia|]. split_and!.
      * by rewrite list_lookup_middle.
      * apply Forall_app. split; [|repeat constructor; lia].
        eapply Forall_impl; [exact H2|]. simpl. intros; lia.
      * rewrite take_app_length.
        eapply Forall_impl; [exact H2|]. simpl. intros; lia.
    + exists f. split; [done|]. split_and!.
      * by rewrite lookup_app_l by (by eapply lookup_lt_Some).
      * apply Forall_app. split; [done|]. repeat constructor; lia.
      * rewrite take_app_le; [done|]. apply lookup_lt_Some in H1. lia.
Qed.

Lemma farthest_inv (a : list point) (first last : nat) (d u : point) (D : Z)
    (far : option nat) :
  farthest a first last d u = Ok (D, far) →
  S first ≤ last ∧ (S first = last ∨ last ≤ length a) ∧
  farthest_at a first d u last (D, far).
Proof.
  intros H. pose proof H as Hr. apply for_ptr_range in Hr as [H1 H2].
  split; [done|]. split; [done|].
  unfold farthest in H.
  eapply (for_ptr_inv (farthest_at a first d u)) in H.
  - by destruct H as [_ H].
  - by left.
  - intros it [D1 far1] st' Hit HI Hb. inv_bind Hb. inv_bind Hb.
    apply rd_Ok in Hbl. apply ASSERT_Ok_inv in Hbl0.
    apply Z.leb_le in Hbl0.
    pose proof (farthest_body a first d u it (D1, far1) r) as Hstep.
    simpl in Hstep.
    destruct (D1 <? cross d (u - r))%Z; injection Hb as <-;
      apply Hstep; (lia || done).
Qed.

Lemma farthest_total (a : list point) (first last : nat) (d u : point) :
  S first ≤ last ≤ length a →
  Forall (fun c => (0 ≤ c)%Z) (dists d u (seg a (S first) last)) →
  ∃ st, farthest a first last d u = Ok st ∧ farthest_at a first d u last st.
Proof.
  intros [H1 H2] Hpos. unfold farthest.
  apply (for_ptr_total (farthest_at a first d u)); [done|lia|by left|].
  intros it [D1 far1] Hit HI.
  destruct (lookup_lt_is_Some_2 a it) as [p Hp]; [lia|].
  assert (0 ≤ cross d (u - p))%Z as Hcur.
  { assert (seg a (S first) last !! (it - S first) = Some p) as Hin.
    { unfold seg. rewrite lookup_take_lt by lia. rewrite lookup_drop.
      rewrite <- Hp. f_equal. lia. }
    unfold dists in Hpos. rewrite Forall_map in Hpos.
    by apply (Forall_lookup_1 _ _ _ _ Hpos Hin). }
  apply rd_Ok in Hp as Hrd. rewrite Hrd. simpl.
  destruct (Z.leb_spec 0 (cross d (u - p))) as [_|?]; [|lia]. simpl.
  apply rd_Ok in Hrd.
  pose proof (farthest_body a first d u it (D1, far1) p) as Hstep.
  simpl in Hstep.
  destruct (D1 <? cross d (u - p))%Z; eexists; (split; [done|]);
    apply Hstep; (lia || done).
Qed.

Lemma farthest_Ok (a : list point) (first last : nat) (d u : point) (f : nat)
    (D : Z) :
  last ≤ length a →
  first_max (dists d u (seg a (S first) last)) f D →
  farthest a first last d u = Ok (D, Some (S first + f)).
Proof.
  intros H2 Hmax.
  assert (S first < last) as H1.
  { apply first_max_lt in Hmax as [Hlt _]. unfold dists in Hlt.
    rewrite length_map, seg_length in Hlt by done. lia. }
  destruct (farthest_total a first last d u) as ([D' far'] & Hrun & HI);
    [lia| |].
  { destruct Hmax as (_ & Hall & _).
    eapply Forall_impl; [exact Hall|]. simpl. intros; lia. }
  rewrite Hrun. destruct HI as [[? _]|(f' & Hf & Hmax')]; [lia|].
  simpl in *. subst far'.
  destruct (first_max_unique _ _ _ _ _ Hmax Hmax') as [-> ->]. done.
Qed.
(** ** The array as a concatenation *)

Ltac list_norm := repeat first [rewrite <- app_assoc | progress cbn [app]].
Ltac list_eq := list_norm; repeat f_equal; done.
Ltac len :=
  repeat first [rewrite length_app | rewrite length_cons
               | progress change (@length point []) with 0];
  lia.

Lemma seg_mid (l1 s l2 : list point) (first last : nat) :
  first = length l1 → last = first + length s →
  seg (l1 ++ s ++ l2) first last = s.
Proof.
  intros -> ->. unfold seg. rewrite drop_app_length.
  replace (length l1 + length s - length l1) with (length s) by lia.
  apply take_app_length.
Qed.

Lemma splice_mid (l1 s l2 : list point) (first last : nat) (mid : list point) :
  first = length l1 → last = first + length s →
  splice (l1 ++ s ++ l2) first last mid = l1 ++ mid ++ l2.
Proof.
  intros -> ->. unfold splice. rewrite take_app_length.
  rewrite (app_assoc l1 s l2), drop_app_length'; [done|]. by rewrite length_app.
Qed.

Lemma rd_mid (a l1 l2 : list point) (p : point) (i : nat) :
  a = l1 ++ p :: l2 → i = length l1 → rd a i = Ok p.
Proof. intros -> ->. apply rd_Ok. apply list_lookup_middle. done. Qed.

Lemma half_stable_partition_mid (a l1 s l2 : list point) (first last : nat)
    (pred : point → bool) :
  a = l1 ++ s ++ l2 → first = length l1 → last = first + length s →
  half_stable_partition a first last pred
  = Ok (l1 ++ (List.filter pred s ++ hsp_back pred s) ++ l2,
        first + length (List.filter pred s)).
Proof.
  intros -> H1 H2. rewrite half_stable_partition_Ok.
  - by rewrite seg_mid, (splice_mid l1 s l2).
  - rewrite !length_app. lia.
Qed.

Lemma swap_ranges_mid (a l1 g h l2 : list point) (lb far rb : nat) :
  a = l1 ++ g ++ h ++ l2 →
  lb = length l1 → far = lb + length g → rb = far + length h →
  swap_ranges a far rb lb
  = Ok (l1 ++ h ++ Nat.iter (length h) rotate1 g ++ l2, lb + length h).
Proof.
  intros -> H1 H2 H3. rewrite swap_ranges_Ok; [|lia|lia|].
  2:{ rewrite !length_app. lia. }
  replace (rb - far) with (length h) by lia.
  assert (seg (l1 ++ g ++ h ++ l2) far rb = h) as ->.
  { replace (l1 ++ g ++ h ++ l2) with ((l1 ++ g) ++ h ++ l2) by list_eq.
    apply seg_mid; [len|lia]. }
  assert (seg (l1 ++ g ++ h ++ l2) lb far = g) as ->.
  { apply seg_mid; lia. }
  replace (l1 ++ g ++ h ++ l2) with (l1 ++ (g ++ h) ++ l2) by list_eq.
  rewrite (splice_mid l1 (g ++ h) l2); [|lia|len].
  f_equal. f_equal. list_eq.
Qed.

Lemma farthest_mid_inv (a l1 rest l2 : list point) (u0 : point)
    (first last : nat) (d u : point) (D : Z) (far : option nat) :
  a = l1 ++ u0 :: rest ++ l2 → first = length l1 →
  last = S first + length rest → rest ≠ [] →
  farthest a first last d u = Ok (D, far) →
  ∃ f, far = Some (S first + f) ∧ first_max (dists d u rest) f D.
Proof.
  intros -> H1 H2 Hne H. apply farthest_inv in H as (_ & _ & HI).
  assert (seg (l1 ++ u0 :: rest ++ l2) (S first) last = rest) as Hseg.
  { replace (l1 ++ u0 :: rest ++ l2) with ((l1 ++ [u0]) ++ rest ++ l2)
      by list_eq.
    apply seg_mid; [len|lia]. }
  unfold farthest_at in HI. rewrite Hseg in HI.
  destruct HI as [[Hit _]|HI]; [|done].
  destruct rest; [done|]. simpl in *. lia.
Qed.

Lemma farthest_mid_Ok (a l1 rest l2 : list point) (u0 : point)
    (first last : nat) (d u : point) (D : Z) (f : nat) :
  a = l1 ++ u0 :: rest ++ l2 → first = length l1 →
  last = S first + length rest →
  first_max (dists d u rest) f D →
  farthest a first last d u = Ok (D, Some (S first + f)).
Proof.
  intros -> H1 H2 Hmax. apply farthest_Ok.
  - rewrite !length_app. cbn [length]. rewrite length_app. lia.
  - replace (l1 ++ u0 :: rest ++ l2) with ((l1 ++ [u0]) ++ rest ++ l2)
      by list_eq.
    rewrite seg_mid; [done|len|lia].
Qed.

Lemma point_eq_spec (p q : point) : point_eq p q = true ↔ p = q.
Proof.
  unfold point_eq. destruct p as [a b], q as [c e]. simpl.
  rewrite andb_true_iff, !Z.eqb_eq. split; [intros [-> ->]|intros [= -> ->]]; done.
Qed.

Lemma point_eq_refl (p : point) : point_eq p p = true.
Proof. by apply point_eq_spec. Qed.
(** ** [findHull] and the relation [hull_chain] *)

Lemma findHull_unfold (fuel : nat) (a : list point) (first last : nat)
    (u v : point) :
  findHull (S fuel) a first last u v
  = (p ← rd a first;
     _ ← ASSERT (point_eq p u);
     if first + 1 =? last then Ok (a, last)
     else
       '(_, far) ← farthest a first last (v - u) u;
       far ← deref far;
       far_p ← rd a far;
       '(a, pivot) ← half_stable_partition a (first + 1) far
                       (isOuterior (u - far_p) (v - far_p) far_p);
       '(a, left_boundary) ← findHull fuel a first pivot u far_p;
       '(a, pivot) ← half_stable_partition a (far + 1) last
                       (isOuterior (u - far_p) (v - far_p) far_p);
       '(a, right_boundary) ← findHull fuel a far pivot far_p v;
       swap_ranges a far right_boundary left_boundary).
Proof. reflexivity. Qed.

#[global] Arguments findHull : simpl never.

Lemma filter_hsp_back_Permutation (pred : point → bool) (l : list point) :
  List.filter pred l ++ hsp_back pred l ≡ₚ l.
Proof.
  rewrite hsp_back_Permutation.
  induction l as [|q l IH]; simpl; [done|].
  destruct (pred q); simpl; [by rewrite IH|].
  by rewrite <- Permutation_middle, IH.
Qed.

Lemma hull_chain_Permutation (l : list point) (u v : point)
    (c r : list point) :
  hull_chain l u v c r → c ++ r ≡ₚ l.
Proof.
  induction 1 as [u v|u v rest f D far_p c1 r1 c2 r2 Hmax Hfar _ IH1 _ IH2];
    [done|].
  set (out := isOuterior (u - far_p) (v - far_p) far_p) in *.
  pose proof (filter_hsp_back_Permutation out (take f rest)) as P1.
  pose proof (filter_hsp_back_Permutation out (drop (S f) rest)) as P2.
  rewrite iter_rotate1_Permutation.
  transitivity ((c1 ++ r1) ++ hsp_back out (take f rest)
                ++ (c2 ++ r2) ++ hsp_back out (drop (S f) rest)).
  { rewrite <- !app_assoc. apply Permutation_app_head.
    rewrite (app_assoc r1), (app_assoc r1 _ (c2 ++ _)).
    apply Permutation_app_swap_app. }
  rewrite IH1, IH2.
  transitivity (u :: (List.filter out (take f rest) ++ hsp_back out (take f rest))
                ++ far_p :: (List.filter out (drop (S f) rest)
                             ++ hsp_back out (drop (S f) rest))).
  { simpl. by rewrite <- !app_assoc. }
  by rewrite P1, P2, take_drop_middle.
Qed.

Lemma hull_chain_length (l : list point) (u v : point) (c r : list point) :
  hull_chain l u v c r → length c + length r = length l.
Proof.
  intros H. apply hull_chain_Permutation in H.
  rewrite <- H. by rewrite length_app.
Qed.

Lemma hull_chain_head (l : list point) (u v : point) (c r : list point) :
  hull_chain l u v c r → ∃ l' c', l = u :: l' ∧ c = u :: c'.
Proof.
  induction 1 as [u v|u v rest f D far_p c1 r1 c2 r2 _ _ _ IH1 _ _];
    [by exists [], []|].
  destruct IH1 as (l' & c' & _ & ->). by eexists _, _.
Qed.
Lemma deref_Ok (far : option nat) (i : nat) : deref far = Ok i → far = Some i.
Proof. destruct far; simpl; congruence. Qed.

(** A successful call computes a chain. *)
Lemma findHull_sound (fuel : nat) :
  ∀ (pre l post : list point) (u v : point) (a' : list point)
    (first last b : nat),
    first = length pre → last = first + length l →
    findHull fuel (pre ++ l ++ post) first last u v = Ok (a', b) →
    ∃ c r, hull_chain l u v c r ∧
           a' = pre ++ (c ++ r) ++ post ∧ b = first + length c.
Proof.
  induction fuel as [|fuel IH]; intros pre l post u v a' first last b
    Hfirst Hlast H; [done|].
  rewrite findHull_unfold in H.
  bind_inv H as p0 Hrd. bind_inv H as ? Hassert.
  apply ASSERT_Ok_inv, point_eq_spec in Hassert. subst p0.
  destruct (Nat.eqb_spec (first + 1) last) as [Hone|Hmany].
  { injection H as <- <-.
    destruct l as [|p [|q l]]; cbn [length] in Hlast; try lia.
    assert (p = u) as ->.
    { rewrite (rd_mid _ pre post p) in Hrd; [|reflexivity|done]. congruence. }
    exists [u], []. split; [constructor|]. split; [done|]. simpl. lia. }
  bind_inv H as [D far] Hfarthest. bind_inv H as fi Hderef.
  apply deref_Ok in Hderef. subst far.
  destruct l as [|p rest].
  { apply farthest_inv in Hfarthest as (? & _). simpl in *. lia. }
  assert (p = u) as ->.
  { rewrite (rd_mid _ pre (rest ++ post) p) in Hrd; [|reflexivity|done].
    congruence. }
  cbn [length] in Hlast.
  assert (rest ≠ []) as Hne.
  { intros ->. simpl in *. lia. }
  eapply (farthest_mid_inv _ pre rest post u) in Hfarthest
    as (f & [= ->] & Hmax); [|list_eq|done|lia|done].
  bind_inv H as far_p Hrdfar.
  pose proof (first_max_lt _ _ _ Hmax) as [Hf _].
  unfold dists in Hf. rewrite length_map in Hf.
  destruct (lookup_lt_is_Some_2 rest f Hf) as [far_q Hfar].
  pose proof (take_drop_middle rest f far_q Hfar) as Hrest.
  assert (length (take f rest) = f) as Htake by (rewrite length_take; lia).
  assert (length (drop (S f) rest) = length rest - S f) as Hdrop
    by (by rewrite length_drop).
  assert (far_p = far_q) as ->.
  { rewrite (rd_mid _ (pre ++ u :: take f rest) (drop (S f) rest ++ post)
               far_q) in Hrdfar; [congruence| |len].
    rewrite <- Hrest at 1. list_eq. }
  set (out := isOuterior (u - far_q) (v - far_q) far_q) in *.
  set (B := take f rest) in *. set (A := drop (S f) rest) in *.
  pose proof (hsp_back_length out B) as HlenB.
  pose proof (hsp_back_length out A) as HlenA.
  (* the first partition *)
  bind_inv H as [a1 pivot1] Hp1.
  rewrite (half_stable_partition_mid _ (pre ++ [u]) B (far_q :: A ++ post))
    in Hp1; [|rewrite <- Hrest; list_eq|len|lia].
  injection Hp1 as <- <-.
  (* the first recursive call *)
  bind_inv H as [a2 lb] Hc1.
  assert (findHull fuel
            (pre ++ (u :: List.filter out B)
             ++ hsp_back out B ++ far_q :: A ++ post)
            first (first + length (u :: List.filter out B)) u far_q
          = Ok (a2, lb)) as Hc1'.
  { rewrite <- Hc1. f_equal; [list_eq|len]. }
  clear Hc1.
  apply IH in Hc1' as (c1 & r1 & Hc1 & -> & ->); [|done..].
  pose proof (hull_chain_length _ _ _ _ _ Hc1) as Hlen1. cbn [length] in Hlen1.
  (* the second partition *)
  bind_inv H as [a3 pivot2] Hp2.
  rewrite (half_stable_partition_mid _
             (pre ++ (c1 ++ r1) ++ hsp_back out B ++ [far_q]) A post)
    in Hp2; [|list_eq|len|len].
  injection Hp2 as <- <-.
  (* the second recursive call *)
  bind_inv H as [a4 rb] Hc2.
  assert (findHull fuel
            ((pre ++ (c1 ++ r1) ++ hsp_back out B)
             ++ (far_q :: List.filter out A) ++ hsp_back out A ++ post)
            (S first + f)
            (S first + f + length (far_q :: List.filter out A)) far_q v
          = Ok (a4, rb)) as Hc2'.
  { rewrite <- Hc2. f_equal; [list_eq|len]. }
  clear Hc2.
  apply IH in Hc2' as (c2 & r2 & Hc2 & -> & ->); [|len|done].
  pose proof (hull_chain_length _ _ _ _ _ Hc2) as Hlen2. cbn [length] in Hlen2.
  (* the exchange *)
  rewrite (swap_ranges_mid _ (pre ++ c1) (r1 ++ hsp_back out B) c2
             (r2 ++ hsp_back out A ++ post)) in H; [|list_eq|len|len|len].
  injection H as <- <-.
  exists (c1 ++ c2), (Nat.iter (length c2) rotate1 (r1 ++ hsp_back out B)
                      ++ r2 ++ hsp_back out A).
  split; [by econstructor|]. split; [list_eq|len].
Qed.
Lemma filter_length_le (pred : point → bool) (l : list point) :
  length (List.filter pred l) ≤ length l.
Proof. pose proof (hsp_back_length pred l). lia. Qed.

(** A chain is what the call computes, given fuel for the size of the
    range. *)
Lemma findHull_complete (l : list point) (u v : point) (c r : list point) :
  hull_chain l u v c r →
  ∀ (fuel : nat) (pre post : list point) (first last : nat),
    length l ≤ fuel → first = length pre → last = first + length l →
    findHull fuel (pre ++ l ++ post) first last u v
    = Ok (pre ++ (c ++ r) ++ post, first + length c).
Proof.
  induction 1 as [u v|u v rest f D far_p c1 r1 c2 r2 Hmax Hfar H1 IH1 H2 IH2];
    intros fuel pre post first last Hfuel Hfirst Hlast;
    (destruct fuel as [|fuel]; [simpl in Hfuel; lia|]);
    rewrite findHull_unfold.
  - rewrite (rd_mid _ pre post u) by done. simpl.
    rewrite point_eq_refl. simpl.
    destruct (Nat.eqb_spec (first + 1) last) as [_|Hne]; [|simpl in *; lia].
    do 2 f_equal. simpl in *. lia.
  - rewrite (rd_mid _ pre (rest ++ post) u) by done. simpl.
    rewrite point_eq_refl. simpl.
    pose proof (first_max_lt _ _ _ Hmax) as [Hf _].
    unfold dists in Hf. rewrite length_map in Hf.
    cbn [length] in Hlast, Hfuel.
    destruct (Nat.eqb_spec (first + 1) last) as [?|_]; [lia|].
    rewrite (farthest_mid_Ok _ pre rest post u _ _ _ _ D f);
      [|list_eq|done|lia|done]. simpl.
    pose proof (take_drop_middle rest f far_p Hfar) as Hrest.
    assert (length (take f rest) = f) as Htake by (rewrite length_take; lia).
    assert (length (drop (S f) rest) = length rest - S f) as Hdrop
      by (by rewrite length_drop).
    rewrite (rd_mid _ (pre ++ u :: take f rest) (drop (S f) rest ++ post)
               far_p); [| |len].
    2:{ rewrite <- Hrest at 1. list_eq. }
    simpl.
    set (out := isOuterior (u - far_p) (v - far_p) far_p) in *.
    set (B := take f rest) in *. set (A := drop (S f) rest) in *.
    pose proof (hsp_back_length out B) as HlenB.
    pose proof (hsp_back_length out A) as HlenA.
    pose proof (hull_chain_length _ _ _ _ _ H1) as Hlen1.
    pose proof (hull_chain_length _ _ _ _ _ H2) as Hlen2.
    cbn [length] in Hlen1, Hlen2.
    rewrite (half_stable_partition_mid _ (pre ++ [u]) B (far_p :: A ++ post));
      [|rewrite <- Hrest; list_eq|len|lia].
    simpl.
    replace ((pre ++ [u]) ++ (List.filter out B ++ hsp_back out B)
             ++ far_p :: A ++ post)
      with (pre ++ (u :: List.filter out B)
            ++ hsp_back out B ++ far_p :: A ++ post) by list_eq.
    rewrite (IH1 fuel pre _ first); [|cbn [length]; lia|done|cbn [length]; lia].
    simpl.
    rewrite (half_stable_partition_mid _
               (pre ++ (c1 ++ r1) ++ hsp_back out B ++ [far_p]) A post);
      [|list_eq|len|len].
    simpl.
    replace ((pre ++ (c1 ++ r1) ++ hsp_back out B ++ [far_p])
             ++ (List.filter out A ++ hsp_back out A) ++ post)
      with ((pre ++ (c1 ++ r1) ++ hsp_back out B)
            ++ (far_p :: List.filter out A) ++ hsp_back out A ++ post)
      by list_eq.
    rewrite (IH2 fuel _ _ (S first + f)); [|cbn [length]; lia|len|len].
    simpl.
    rewrite (swap_ranges_mid _ (pre ++ c1) (r1 ++ hsp_back out B) c2
               (r2 ++ hsp_back out A ++ post)); [|list_eq|len|len|len].
    f_equal. f_equal; [list_eq|len].
Qed.
(** ** The order on points *)

Lemma point_lt_spec (p q : point) :
  point_lt p q = true ↔ (x p < x q ∨ (x p = x q ∧ y p < y q))%Z.
Proof.
  unfold point_lt. rewrite orb_true_iff, andb_true_iff.
  rewrite !Z.ltb_lt, Z.eqb_eq. done.
Qed.

Lemma point_lt_false (p q : point) :
  point_lt p q = false ↔ (x q < x p ∨ (x p = x q ∧ y q ≤ y p))%Z.
Proof.
  rewrite <- not_true_iff_false, point_lt_spec. lia.
Qed.

Lemma point_lt_irrefl (p : point) : point_lt p p = false.
Proof. apply point_lt_false. lia. Qed.

Lemma point_lt_trans (p q r : point) :
  point_lt p q = true → point_lt q r = true → point_lt p r = true.
Proof. rewrite !point_lt_spec. lia. Qed.

Lemma point_lt_asym (p q : point) :
  point_lt p q = true → point_lt q p = false.
Proof. rewrite point_lt_spec, point_lt_false. lia. Qed.


Lemma point_le_trans (p q r : point) :
  point_lt q p = false → point_lt r q = false → point_lt r p = false.
Proof. rewrite !point_lt_false. lia. Qed.



(** ** [std::minmax_element] *)

Lemma is_min_snoc (s : list point) (m p : point) :
  is_min s m → is_min (s ++ [p]) (if point_lt p m then p else m).
Proof.
  intros [H1 H2]. destruct (point_lt p m) eqn:E; split.
  - apply elem_of_app. right. by apply list_elem_of_singleton.
  - apply Forall_app. split; [|repeat constructor; apply point_lt_irrefl].
    eapply Forall_impl; [exact H2|]. simpl. intros q Hq.
    destruct (point_lt q p) eqn:E'; [|done].
    by rewrite (point_lt_trans q p m) in Hq.
  - apply elem_of_app. by left.
  - apply Forall_app. split; [done|]. by repeat constructor.
Qed.

Lemma is_max_snoc (s : list point) (m p : point) :
  is_max s m → is_max (s ++ [p]) (if point_lt p m then m else p).
Proof.
  intros [H1 H2]. destruct (point_lt p m) eqn:E; split.
  - apply elem_of_app. by left.
  - apply Forall_app. split; [done|].
    repeat constructor. by apply point_lt_asym.
  - apply elem_of_app. right. by apply list_elem_of_singleton.
  - apply Forall_app. split; [|repeat constructor; apply point_lt_irrefl].
    eapply Forall_impl; [exact H2|]. simpl. intros q Hq.
    by apply (point_le_trans q m p).
Qed.

Lemma minmax_element_spec (a : list point) (first last : nat) :
  first < last ≤ length a →
  ∃ st, minmax_element a first last = Ok st ∧ minmax_at a first last st.
Proof.
  intros [H1 H2]. unfold minmax_element.
  destruct (Nat.eqb_spec first last) as [?|_]; [lia|].
  destruct (lookup_lt_is_Some_2 a first) as [p0 Hp0]; [lia|].
  apply (for_ptr_total (minmax_at a first)); [lia|lia| |].
  - exists p0, p0. simpl. split_and!; [done..| |];
      rewrite (seg_cons a first (S first) p0), seg_nil by (done || lia);
      (split; [by apply list_elem_of_singleton
              |repeat constructor; apply point_lt_irrefl]).
  - intros it [mn mx] Hit (m & M & Hm & HM & Hmin & Hmax). simpl in *.
    destruct (lookup_lt_is_Some_2 a it) as [p Hp]; [lia|].
    apply rd_Ok in Hp as Hrd, Hm as Hrdm, HM as HrdM.
    rewrite Hrd, Hrdm, HrdM. simpl. eexists. split; [done|].
    exists (if point_lt p m then p else m), (if point_lt p M then M else p).
    rewrite (seg_snoc a first it p) by (done || lia). simpl.
    split_and!.
    + by destruct (point_lt p m).
    + by destruct (point_lt p M).
    + by apply is_min_snoc.
    + by apply is_max_snoc.
Qed.
(** ** [std::sort] *)

Lemma insert_Permutation (comp : point → point → bool) (p : point)
    (l : list point) :
  insert comp p l ≡ₚ p :: l.
Proof.
  induction l as [|q l IH]; simpl; [done|].
  destruct (comp p q); [done|]. rewrite IH. apply perm_swap.
Qed.

Lemma sort_Permutation (comp : point → point → bool) (l : list point) :
  sort comp l ≡ₚ l.
Proof.
  induction l as [|p l IH]; simpl; [done|].
  by rewrite insert_Permutation, IH.
Qed.

Lemma sort_length (comp : point → point → bool) (l : list point) :
  length (sort comp l) = length l.
Proof. by rewrite sort_Permutation. Qed.



Lemma insert_ordered (comp : point → point → bool) (p : point)
    (l : list point) :
  (∀ p q, comp p q = false → comp q p = true ∨ q = p) →
  ordered comp l → ordered comp (insert comp p l).
Proof.
  intros Htot. unfold ordered.
  induction l as [|q l IH]; intros H; simpl; [by repeat constructor|].
  destruct (comp p q) eqn:E.
  - constructor; [done|]. constructor. by left.
  - apply Sorted_inv in H as [Hs Hhd]. constructor; [by apply IH|].
    destruct l as [|r l]; simpl.
    + constructor. by apply Htot.
    + destruct (comp p r); constructor; [by apply Htot|].
      by apply HdRel_inv in Hhd.
Qed.

Lemma sort_ordered (comp : point → point → bool) (l : list point) :
  (∀ p q, comp p q = false → comp q p = true ∨ q = p) →
  ordered comp (sort comp l).
Proof.
  intros Htot. induction l as [|p l IH]; simpl; [constructor|].
  by apply insert_ordered.
Qed.





(** The sorted sequence is unique: whatever [std::sort] does, it returns
    what [sort] returns, for [point_lt] and for [point_gt]. *)
Lemma sort_unique (comp : point → point → bool) (l l' : list point) :
  (∀ p q r, comp p q = true → comp q r = true → comp p r = true) →
  (∀ p q, comp p q = true → comp q p = true → p = q) →
  (∀ p q, comp p q = false → comp q p = true ∨ q = p) →
  l' ≡ₚ l → ordered comp l' → l' = sort comp l.
Proof.
  intros Htrans Hanti Htot Hperm Hord.
  pose proof (sort_ordered comp l Htot) as Hord'.
  unfold ordered in *.
  apply Sorted.Sorted_StronglySorted in Hord, Hord';
    try (intros p q r [?|<-] [?|<-]; eauto).
  apply (StronglySorted_unique_strong
           (fun p q => comp p q = true ∨ p = q) l' (sort comp l)); [|done..|].
  - intros p q _ _ [H1|H1] [H2|H2]; eauto.
  - by rewrite sort_Permutation.
Qed.

(** ** [std::partition], [std::sort] and the reads on a concatenation *)

Lemma partition_mid (a l1 s l2 : list point) (first last : nat)
    (pred : point → bool) :
  a = l1 ++ s ++ l2 → first = length l1 → last = first + length s →
  partition a first last pred
  = Ok (l1 ++ (List.filter pred s ++ List.filter (fun p => negb (pred p)) s)
           ++ l2,
        first + length (List.filter pred s)).
Proof.
  intros -> H1 H2. unfold partition.
  rewrite decide_True by (rewrite !length_app; lia).
  by rewrite seg_mid, (splice_mid l1 s l2).
Qed.

Lemma sort_range_mid (comp : point → point → bool) (a l1 s l2 : list point)
    (first last : nat) :
  a = l1 ++ s ++ l2 → first = length l1 → last = first + length s →
  sort_range comp a first last = Ok (l1 ++ sort comp s ++ l2).
Proof.
  intros -> H1 H2. unfold sort_range.
  rewrite decide_True by (rewrite !length_app; lia).
  by rewrite seg_mid, (splice_mid l1 s l2).
Qed.
(** ** [quickHull] on the contents of its range *)

Lemma filter_negb_length (pred : point → bool) (l : list point) :
  length (List.filter pred l)
  + length (List.filter (fun p => negb (pred p)) l) = length l.
Proof.
  induction l as [|p l IH]; simpl; [done|].
  destruct (pred p); simpl; lia.
Qed.

Lemma upper_lower_length (left right : point) (s : list point) :
  length (upper left right s) + length (lower left right s) = length s.
Proof. unfold upper, lower. rewrite !sort_length. apply filter_negb_length. Qed.

Lemma hull_sides_sound (a : list point) (first last : nat) (a1 : list point)
    (pivot lb rb : nat) (left right : point) :
  hull_sides a first last = Ok (a1, pivot, lb, rb, left, right) →
  first < last ≤ length a ∧
  ∃ c1 r1 c2 r2,
    is_min (seg a first last) left ∧ is_max (seg a first last) right ∧
    hull_chain (upper left right (seg a first last)) right left c1 r1 ∧
    hull_chain (lower left right (seg a first last)) left right c2 r2 ∧
    a1 = take first a ++ (c1 ++ r1) ++ (c2 ++ r2) ++ drop last a ∧
    pivot = first + length (c1 ++ r1) ∧
    lb = first + length c1 ∧ rb = pivot + length c2.
Proof.
  unfold hull_sides. intros H.
  bind_inv H as [mn mx] Hminmax.
  bind_inv H as left0 Hleft. bind_inv H as right0 Hright.
  bind_inv H as [a2 pivot0] Hpart.
  assert (first ≤ last ≤ length a) as Hrange.
  { unfold partition in Hpart. by case_decide. }
  set (s := seg a first last) in *.
  set (pre := take first a). set (post := drop last a).
  assert (a = pre ++ s ++ post) as Ha by (apply seg_split; lia).
  assert (length pre = first) as Hpre by (unfold pre; rewrite length_take; lia).
  assert (length s = last - first) as Hs by (unfold s; rewrite seg_length; lia).
  rewrite (partition_mid a pre s post) in Hpart; [|done|lia|lia].
  injection Hpart as <- <-.
  set (F := List.filter (upper_side right0 (left0 - right0)) s) in *.
  set (G := List.filter (fun p => negb (upper_side right0 (left0 - right0) p)) s)
    in *.
  pose proof (filter_negb_length (upper_side right0 (left0 - right0)) s) as HFG.
  fold F G in HFG.
  bind_inv H as a3 Hsort1.
  rewrite (sort_range_mid _ _ pre F (G ++ post)) in Hsort1; [|list_eq|lia|lia].
  injection Hsort1 as <-.
  bind_inv H as a4 Hsort2.
  rewrite (sort_range_mid _ _ (pre ++ sort point_gt F) G post) in Hsort2;
    [|list_eq|rewrite length_app, sort_length; lia|lia].
  injection Hsort2 as <-.
  bind_inv H as p1 Hrd1. bind_inv H as ? Has1.
  bind_inv H as p2 Hrd2. bind_inv H as ? Has2.
  bind_inv H as [a5 lb0] Hc1.
  assert (findHull (S (first + length F - first))
            (pre ++ sort point_gt F ++ sort point_lt G ++ post)
            first (first + length (sort point_gt F)) right0 left0
          = Ok (a5, lb0)) as Hc1'.
  { rewrite <- Hc1. rewrite sort_length. f_equal. list_eq. }
  clear Hc1.
  apply findHull_sound in Hc1' as (c1 & r1 & Hc1 & -> & ->); [|done..].
  pose proof (hull_chain_length _ _ _ _ _ Hc1) as Hlen1.
  rewrite sort_length in Hlen1.
  bind_inv H as [a6 rb0] Hc2.
  assert (findHull (S (last - (first + length F)))
            ((pre ++ c1 ++ r1) ++ sort point_lt G ++ post)
            (first + length F)
            (first + length F + length (sort point_lt G)) left0 right0
          = Ok (a6, rb0)) as Hc2'.
  { rewrite <- Hc2. rewrite sort_length. f_equal; [list_eq|lia]. }
  clear Hc2.
  apply findHull_sound in Hc2' as (c2 & r2 & Hc2 & -> & ->); [|len|done].
  injection H as <- <- <- <- <- <-.
  assert (first < last) as Hlt.
  { apply hull_chain_head in Hc1 as (l' & c' & Hl' & _).
    assert (length (sort point_gt F) ≠ 0) by (by rewrite Hl').
    rewrite sort_length in *. lia. }
  split; [lia|].
  destruct (minmax_element_spec a first last) as (st & Hst & m & M & Hm & HM
    & Hmin & Hmax); [lia|].
  rewrite Hminmax in Hst. injection Hst as <-. simpl in Hm, HM.
  apply rd_Ok in Hleft, Hright.
  assert (m = left0) as -> by congruence.
  assert (M = right0) as -> by congruence.
  exists c1, r1, c2, r2.
  split_and!; first [done | list_eq | rewrite length_app; lia].
Qed.
Lemma edge_case_spec (a l1 c2 r2 l2 : list point) (pivot last rb : nat)
    (left right : point) (rb' : nat) :
  a = l1 ++ (c2 ++ r2) ++ l2 → pivot = length l1 →
  last = pivot + length (c2 ++ r2) → rb = pivot + length c2 →
  0 < length c2 →
  edge_case a pivot last rb left right = Ok rb' ↔
  ∃ kk, edge_keep left right c2 r2 kk ∧ rb' = pivot + kk.
Proof.
  intros Ha Hpivot Hlast Hrb Hpos. unfold edge_case, edge_keep.
  destruct (Nat.eqb_spec (pivot + 1) last) as [Hone|Hmany].
  - rewrite lookup_ge_None_2 by lia. split.
    + intros [= <-]. exists (length c2). split; [done|lia].
    + intros (kk & -> & ->). f_equal. lia.
  - destruct (lookup_lt_is_Some_2 (c2 ++ r2) 1) as [p Hp].
    { rewrite length_app in *. lia. }
    rewrite Hp.
    assert (rd a (pivot + 1) = Ok p) as ->.
    { apply rd_Ok. rewrite Ha. rewrite lookup_app_r by lia.
      rewrite lookup_app_l by (rewrite length_app in *; lia).
      rewrite <- Hp. f_equal. lia. }
    simpl. destruct (cross (right - left) (p - left) =? 0)%Z.
    + destruct (Nat.eqb_spec (pivot + 2) rb) as [Heq|Hneq]; simpl; split.
      * intros [= <-]. exists 1. split; [|lia]. split; lia.
      * intros (kk & [_ ->] & ->). f_equal. lia.
      * done.
      * intros (kk & [? _] & _). lia.
    + split.
      * intros [= <-]. exists (length c2). split; [done|lia].
      * intros (kk & -> & ->). f_equal. lia.
Qed.

Lemma edge_keep_le (left right : point) (c2 r2 : list point) (kk : nat) :
  edge_keep left right c2 r2 kk → 0 < length c2 → 0 < kk ≤ length c2.
Proof.
  unfold edge_keep. intros H Hpos.
  destruct ((c2 ++ r2) !! 1) as [p|]; [|lia].
  destruct (cross (right - left) (p - left) =? 0)%Z; lia.
Qed.

Lemma hull_chain_pos (l : list point) (u v : point) (c r : list point) :
  hull_chain l u v c r → 0 < length c.
Proof.
  intros H. apply hull_chain_head in H as (? & ? & _ & ->). simpl. lia.
Qed.

(** A successful [quickHull] computes what [quickHull_spec] describes. *)
Lemma quickHull_sound (a : list point) (first last : nat) (a' : list point)
    (k : Z) :
  quickHull a first last = Ok (a', k) →
  first < last ≤ length a ∧
  ∃ res k', quickHull_spec (seg a first last) res k' ∧
            a' = splice a first last res ∧ k = Z.of_nat k'.
Proof.
  unfold quickHull. intros H.
  bind_inv H as [[[[[a1 pivot] lb] rb] left'] right'] Hsides.
  apply hull_sides_sound in Hsides
    as (Hrange & c1 & r1 & c2 & r2 & Hmin & Hmax & Hc1 & Hc2 & -> & -> & ->
        & ->).
  split; [done|].
  pose proof (hull_chain_pos _ _ _ _ _ Hc2) as Hpos.
  assert (length (take first a) = first) as Hpre
    by (rewrite length_take; lia).
  bind_inv H as rb' Hedge.
  apply (edge_case_spec _ (take first a ++ c1 ++ r1) c2 r2 (drop last a))
    in Hedge as (kk & Hkeep & ->); [|list_eq|len| |done..].
  2:{ pose proof (hull_chain_length _ _ _ _ _ Hc1) as Hlen1.
      pose proof (hull_chain_length _ _ _ _ _ Hc2) as Hlen2.
      pose proof (upper_lower_length left' right' (seg a first last)).
      rewrite seg_length in * by lia. len. }
  pose proof (edge_keep_le _ _ _ _ _ Hkeep Hpos) as Hkk.
  bind_inv H as [a2 b] Hswap.
  rewrite (swap_ranges_mid _ (take first a ++ c1) r1 (take kk c2)
             (drop kk c2 ++ r2 ++ drop last a)) in Hswap.
  - injection Hswap as <- <-. injection H as <- <-.
    rewrite length_take, Nat.min_l by lia.
    exists (c1 ++ take kk c2 ++ Nat.iter kk rotate1 r1 ++ drop kk c2 ++ r2),
      (length c1 + kk).
    split; [|split; [unfold splice; list_eq|lia]].
    exists left', right', c1, r1, c2, r2, kk. done.
  - rewrite <- (take_drop kk c2) at 1. list_eq.
  - len.
  - len.
  - rewrite length_take, Nat.min_l by lia. len.
Qed.

(** ** The fuel of [findHull] *)

Lemma bind_no_fuel {A B : Type} (m : outcome A) (f : A → outcome B) :
  m ≠ Fault OutOfFuel →
  (∀ x, m = Ok x → f x ≠ Fault OutOfFuel) →
  m ≫= f ≠ Fault OutOfFuel.
Proof.
  intros Hm Hf. destruct m as [x|e]; [by apply Hf|].
  rewrite bind_Fault. intros [= ->]. by apply Hm.
Qed.

Lemma rd_no_fuel (a : list point) (i : nat) : rd a i ≠ Fault OutOfFuel.
Proof. unfold rd. by destruct (a !! i). Qed.

Lemma wr_no_fuel (a : list point) (i : nat) (p : point) :
  wr a i p ≠ Fault OutOfFuel.
Proof. unfold wr. by case_decide. Qed.

Lemma ASSERT_no_fuel (b : bool) : ASSERT b ≠ Fault OutOfFuel.
Proof. by destruct b. Qed.

Lemma swap_no_fuel (a : list point) (i j : nat) : swap a i j ≠ Fault OutOfFuel.
Proof.
  unfold swap.
  repeat (apply bind_no_fuel; [first [apply rd_no_fuel|apply wr_no_fuel]|];
          intros ? _).
  apply wr_no_fuel.
Qed.

Lemma for_ptr_no_fuel {St : Type} (body : nat → St → outcome St) :
  (∀ it s, body it s ≠ Fault OutOfFuel) →
  ∀ room it last s, for_ptr room it last body s ≠ Fault OutOfFuel.
Proof.
  intros Hbody room. induction room as [|room IH]; intros it last s; simpl;
    destruct (it =? last); try done.
  apply bind_no_fuel; [apply Hbody|]. intros s' _. apply IH.
Qed.

Lemma half_stable_partition_no_fuel (a : list point) (first last : nat)
    (pred : point → bool) :
  half_stable_partition a first last pred ≠ Fault OutOfFuel.
Proof.
  apply for_ptr_no_fuel. intros it [a' pivot].
  apply bind_no_fuel; [apply rd_no_fuel|]. intros p _.
  destruct (pred p); [|done].
  apply bind_no_fuel; [apply swap_no_fuel|]. done.
Qed.

Lemma swap_ranges_no_fuel (a : list point) (first1 last1 first2 : nat) :
  swap_ranges a first1 last1 first2 ≠ Fault OutOfFuel.
Proof.
  apply for_ptr_no_fuel. intros it [a' f2].
  apply bind_no_fuel; [apply swap_no_fuel|]. done.
Qed.

Lemma farthest_no_fuel (a : list point) (first last : nat) (d u : point) :
  farthest a first last d u ≠ Fault OutOfFuel.
Proof.
  apply for_ptr_no_fuel. intros it [dist far].
  apply bind_no_fuel; [apply rd_no_fuel|]. intros p _.
  apply bind_no_fuel; [apply ASSERT_no_fuel|]. intros _ _.
  by destruct (_ <? _)%Z.
Qed.

(** The fault [OutOfFuel] is never produced when the fuel exceeds the size
    of the range: each recursive call is on a range that is shorter. *)
Lemma findHull_fuel (fuel : nat) :
  ∀ (a : list point) (first last : nat) (u v : point),
    last - first < fuel → findHull fuel a first last u v ≠ Fault OutOfFuel.
Proof.
  induction fuel as [|fuel IH]; intros a first last u v Hfuel; [lia|].
  rewrite findHull_unfold.
  apply bind_no_fuel; [apply rd_no_fuel|]. intros p _.
  apply bind_no_fuel; [apply ASSERT_no_fuel|]. intros _ _.
  destruct (first + 1 =? last); [done|].
  apply bind_no_fuel; [apply farthest_no_fuel|]. intros [D far] Hfar.
  apply bind_no_fuel; [by destruct far|]. intros f Hf.
  apply bind_no_fuel; [apply rd_no_fuel|]. intros far_p _.
  apply bind_no_fuel; [apply half_stable_partition_no_fuel|].
  intros [a1 pivot] Hp1.
  apply farthest_inv in Hfar as (Hfl & _ & Hat).
  assert (first < f < last) as Hrange.
  { destruct Hat as [[_ [= _ ->]]|(i & Hi & Hmax)]; [done|].
    simpl in Hi. subst far. injection Hf as <-.
    apply first_max_lt in Hmax as [Hlt _]. unfold dists in Hlt.
    rewrite length_map in Hlt. unfold seg in Hlt.
    rewrite length_take in Hlt. lia. }
  apply half_stable_partition_inv in Hp1 as (_ & _ & -> & ->).
  pose proof (filter_length_le
                (isOuterior (u - far_p) (v - far_p) far_p)
                (seg a (first + 1) f)) as Hle1.
  assert (length (seg a (first + 1) f) ≤ f - (first + 1)) as Hs1
    by (unfold seg; rewrite length_take; lia).
  apply bind_no_fuel; [apply IH; lia|]. intros [a2 lb] _.
  apply bind_no_fuel; [apply half_stable_partition_no_fuel|].
  intros [a3 pivot] Hp2.
  apply half_stable_partition_inv in Hp2 as (_ & _ & -> & ->).
  pose proof (filter_length_le
                (isOuterior (u - far_p) (v - far_p) far_p)
                (seg a2 (f + 1) last)) as Hle2.
  assert (length (seg a2 (f + 1) last) ≤ last - (f + 1)) as Hs2
    by (unfold seg; rewrite length_take; lia).
  apply bind_no_fuel; [apply IH; lia|]. intros [a4 rb] _.
  apply swap_ranges_no_fuel.
Qed.

(** [quickHull] gives [findHull] enough fuel. *)
Lemma quickHull_fuel (a : list point) (first last : nat) :
  quickHull a first last ≠ Fault OutOfFuel.
Proof.
  unfold quickHull.
  apply bind_no_fuel.
  - unfold hull_sides.
    apply bind_no_fuel.
    { unfold minmax_element. destruct (first =? last); [done|].
      apply for_ptr_no_fuel. intros it [sm lg].
      repeat (apply bind_no_fuel; [apply rd_no_fuel|]; intros ? _). done. }
    intros [mn mx] _.
    apply bind_no_fuel; [apply rd_no_fuel|]. intros left' _.
    apply bind_no_fuel; [apply rd_no_fuel|]. intros right' _.
    apply bind_no_fuel; [unfold partition; by case_decide|].
    intros [a1 pivot] _.
    apply bind_no_fuel; [unfold sort_range; by case_decide|]. intros a2 _.
    apply bind_no_fuel; [unfold sort_range; by case_decide|]. intros a3 _.
    apply bind_no_fuel; [apply rd_no_fuel|]. intros p _.
    apply bind_no_fuel; [apply ASSERT_no_fuel|]. intros _ _.
    apply bind_no_fuel; [apply rd_no_fuel|]. intros q _.
    apply bind_no_fuel; [apply ASSERT_no_fuel|]. intros _ _.
    apply bind_no_fuel; [apply findHull_fuel; lia|]. intros [a4 lb] _.
    apply bind_no_fuel; [apply findHull_fuel; lia|]. intros [a5 rb] _.
    done.
  - intros [[[[[a1 pivot] lb] rb] left'] right'] _.
    apply bind_no_fuel.
    { unfold edge_case. destruct (pivot + 1 =? last); [done|].
      apply bind_no_fuel; [apply rd_no_fuel|]. intros p _.
      destruct (_ =? _)%Z; [|done].
      apply bind_no_fuel; [apply ASSERT_no_fuel|]. done. }
    intros rb' _.
    apply bind_no_fuel; [apply swap_ranges_no_fuel|]. by intros [a2 b] _.
Qed.
(** ** The fuel of the loops of [grahamScan] *)

Local Open Scope Z_scope.

Lemma rdZ_no_fuel (a : list point) (i : Z) : rdZ a i ≠ Fault OutOfFuel.
Proof. unfold rdZ. destruct (i <? 0); [done|apply rd_no_fuel]. Qed.

Lemma wrZ_no_fuel (a : list point) (i : Z) (p : point) :
  wrZ a i p ≠ Fault OutOfFuel.
Proof. unfold wrZ. destruct (i <? 0); [done|apply wr_no_fuel]. Qed.

Lemma swapZ_no_fuel (a : list point) (i j : Z) : swapZ a i j ≠ Fault OutOfFuel.
Proof. unfold swapZ. destruct (_ || _); [done|apply swap_no_fuel]. Qed.

Lemma skip_run_fuel (fuel : nat) :
  ∀ (ps : list point) (n : Z) (u : point) (i : Z),
    n - 1 - i ≤ Z.of_nat fuel → skip_run fuel ps n u i ≠ Fault OutOfFuel.
Proof.
  induction fuel as [|fuel IH]; intros ps n u i Hfuel; simpl;
    destruct (Z.ltb_spec i (n - 1)); try done; [lia|].
  apply bind_no_fuel; [apply rdZ_no_fuel|]. intros v _.
  destruct (negb _); [done|]. apply IH. lia.
Qed.

Lemma skip_run_advances (fuel : nat) :
  ∀ (ps : list point) (n : Z) (u : point) (i : Z) (u' : point) (i' : Z),
    skip_run fuel ps n u i = Ok (u', i') → i ≤ i'.
Proof.
  induction fuel as [|fuel IH]; intros ps n u i u' i' H; simpl in H;
    destruct (i <? n - 1); try done; try (injection H as _ <-; lia).
  bind_inv H as v Hv. destruct (negb _); [injection H as _ <-; lia|].
  apply IH in H. lia.
Qed.

Lemma collapse_fuel (fuel : nat) :
  ∀ (ps : list point) (n m i : Z),
    n - i ≤ Z.of_nat fuel → collapse fuel ps n m i ≠ Fault OutOfFuel.
Proof.
  induction fuel as [|fuel IH]; intros ps n m i Hfuel; simpl;
    destruct (Z.ltb_spec i n); try done; [lia|].
  apply bind_no_fuel; [apply rdZ_no_fuel|]. intros u _.
  apply bind_no_fuel; [apply skip_run_fuel; lia|]. intros [u' i'] Hskip.
  apply skip_run_advances in Hskip.
  apply bind_no_fuel; [apply wrZ_no_fuel|]. intros ps' _.
  apply IH. lia.
Qed.

Lemma pop_fuel (fuel : nat) :
  ∀ (ps : list point) (cur p v : point) (s : Z),
    s ≤ Z.of_nat fuel → pop fuel ps cur p v s ≠ Fault OutOfFuel.
Proof.
  induction fuel as [|fuel IH]; intros ps cur p v s Hfuel; simpl.
  { destruct (Z.ltb_spec 0 s); [lia|done]. }
  destruct (_ && _); [|done].
  apply bind_no_fuel; [apply rdZ_no_fuel|]. intros p' _.
  apply bind_no_fuel; [apply rdZ_no_fuel|]. intros q _.
  apply IH. lia.
Qed.

Lemma sweep_fuel (fuel : nat) :
  ∀ (ps : list point) (m : Z) (p v : point) (s i : Z),
    m - i ≤ Z.of_nat fuel → sweep fuel ps m p v s i ≠ Fault OutOfFuel.
Proof.
  induction fuel as [|fuel IH]; intros ps m p v s i Hfuel; simpl;
    destruct (Z.ltb_spec i m); try done; [lia|].
  apply bind_no_fuel; [apply rdZ_no_fuel|]. intros cur _.
  apply bind_no_fuel; [apply pop_fuel; lia|]. intros [[p' v'] s'] _.
  apply bind_no_fuel; [apply swapZ_no_fuel|]. intros ps' _.
  apply IH. lia.
Qed.

Local Close Scope Z_scope.

Lemma transform_no_fuel (a : list point) (first last : nat)
    (f : point → point) :
  transform a first last f ≠ Fault OutOfFuel.
Proof.
  apply for_ptr_no_fuel. intros it a'.
  apply bind_no_fuel; [apply rd_no_fuel|]. intros p _. apply wr_no_fuel.
Qed.

(** [grahamScan] gives its loops enough fuel. *)
Lemma grahamScan_fuel (ps : list point) (n : nat) :
  grahamScan ps n ≠ Fault OutOfFuel.
Proof.
  unfold grahamScan.
  apply bind_no_fuel.
  { unfold min_element. destruct (0 =? n); [done|].
    apply for_ptr_no_fuel. intros it sm.
    repeat (apply bind_no_fuel; [apply rd_no_fuel|]; intros ? _). done. }
  intros mi _.
  apply bind_no_fuel; [apply rd_no_fuel|]. intros mn _.
  apply bind_no_fuel; [apply swap_no_fuel|]. intros ps1 _.
  apply bind_no_fuel; [apply transform_no_fuel|]. intros ps2 _.
  apply bind_no_fuel; [unfold sort_range; by case_decide|]. intros ps3 _.
  apply bind_no_fuel; [apply collapse_fuel; lia|]. intros [ps4 m] _.
  apply bind_no_fuel; [apply rdZ_no_fuel|]. intros p _.
  apply bind_no_fuel; [apply rdZ_no_fuel|]. intros q _.
  apply bind_no_fuel; [apply sweep_fuel; lia|]. intros [ps5 s] _.
  apply bind_no_fuel; [apply transform_no_fuel|]. by intros ps6 _.
Qed.
(** ** The edge case of [quickHull] *)

Local Open Scope Z_scope.




Local Close Scope Z_scope.


Lemma filter_none (pred : point → bool) (l : list point) :
  Forall (fun p => pred p = false) l → List.filter pred l = [].
Proof. induction 1 as [|p l Hp _ IH]; simpl; [done|]. by rewrite Hp. Qed.




(** ** The array after [quickHull] *)

Lemma quickHull_spec_Permutation (s res : list point) (k : nat) :
  quickHull_spec s res k → res ≡ₚ s ∧ k ≤ length s.
Proof.
  intros (left' & right' & c1 & r1 & c2 & r2 & kk & Hmin & Hmax & Hc1 & Hc2
          & Hkeep & -> & ->).
  pose proof (hull_chain_pos _ _ _ _ _ Hc2) as Hpos.
  pose proof (edge_keep_le _ _ _ _ _ Hkeep Hpos) as Hkk.
  pose proof (hull_chain_length _ _ _ _ _ Hc1) as Hlen1.
  pose proof (hull_chain_length _ _ _ _ _ Hc2) as Hlen2.
  pose proof (upper_lower_length left' right' s) as Hul.
  split; [|lia].
  apply hull_chain_Permutation in Hc1, Hc2. unfold upper, lower in *.
  rewrite sort_Permutation in Hc1, Hc2.
  rewrite iter_rotate1_Permutation.
  transitivity ((c1 ++ r1) ++ (take kk c2 ++ drop kk c2) ++ r2).
  { rewrite <- !app_assoc. apply Permutation_app_head.
    rewrite !app_assoc. apply Permutation_app_tail.
    rewrite <- !app_assoc. apply Permutation_app_swap_app. }
  rewrite take_drop, Hc1, Hc2.
  clear. induction s as [|q s IH]; simpl; [done|].
  destruct (upper_side right' (left' - right') q); simpl; [by rewrite IH|].
  by rewrite <- Permutation_middle, IH.
Qed.
(** ** The engines on degenerate inputs *)

(** C1. [quickHull] on the three points (0,0), (1,0), (1,0): the largest
    point is there twice, both copies go to the upper side, and [findHull]
    returns both: the hull prefix holds the vertex (1,0) twice. *)
Theorem quickHull_duplicate_vertex :
  quickHull [Point 0 0; Point 1 0; Point 1 0] 0 3
  = Ok ([Point 1 0; Point 1 0; Point 0 0], 3%Z) ∧
  ¬ NoDup (take 3 [Point 1 0; Point 1 0; Point 0 0]).
Proof.
  split; [reflexivity|].
  intros H. apply NoDup_cons in H as [H _]. apply H. by left.
Qed.

(** C2. On two equal points [quickHull] does not return: every point
    equals [right] and goes to the upper side, the lower side is empty, and
    the assertion [*pivot == left] reads the slot behind the range.
    [grahamScan] returns a hull prefix of two vertices on the same input. *)
Theorem engines_differ_on_equal_points :
  quickHull [Point 0 0; Point 0 0; Point 7 7] 0 2 = Fault AssertFailed ∧
  quickHull [Point 0 0; Point 0 0] 0 2 = Fault OutOfBounds ∧
  grahamScan [Point 0 0; Point 0 0; Point 7 7] 2
  = Ok ([Point 0 0; Point 0 0; Point 7 7], 2%Z).
Proof. repeat split; reflexivity. Qed.

(** C5. The hull prefix that [quickHull] returns for (0,0), (1,0), (1,0)
    has three consecutive vertices on one line. *)
Theorem quickHull_collinear_triple :
  ∃ a b c,
    quickHull [Point 0 0; Point 1 0; Point 1 0] 0 3 = Ok ([a; b; c], 3%Z) ∧
    collinear a b c.
Proof. exists (Point 1 0), (Point 1 0), (Point 0 0). split; reflexivity. Qed.

(** C8. One point: [grahamScan] returns the count 2 when the array has a
    second slot and reads outside the array when it has none; [quickHull]
    does not return in either case. *)
Theorem single_point_hull :
  grahamScan [Point 0 0; Point 7 7] 1 = Ok ([Point 0 0; Point 7 7], 2%Z) ∧
  grahamScan [Point 0 0] 1 = Fault OutOfBounds ∧
  quickHull [Point 0 0; Point 7 7] 0 1 = Fault AssertFailed ∧
  quickHull [Point 0 0] 0 1 = Fault OutOfBounds.
Proof. repeat split; reflexivity. Qed.

(** [quickHull] never returns on a range of one point. *)
Lemma quickHull_single_point (a : list point) (first : nat) (a' : list point)
    (k : Z) :
  quickHull a first (first + 1) ≠ Ok (a', k).
Proof.
  intros H. apply quickHull_sound in H as (Hrange & res & k' & Hspec & _).
  destruct Hspec as (left' & right' & c1 & r1 & c2 & r2 & kk & Hmin & Hmax
                     & Hc1 & Hc2 & _).
  pose proof (hull_chain_length _ _ _ _ _ Hc1) as Hlen1.
  pose proof (hull_chain_length _ _ _ _ _ Hc2) as Hlen2.
  pose proof (hull_chain_pos _ _ _ _ _ Hc1).
  pose proof (hull_chain_pos _ _ _ _ _ Hc2).
  pose proof (upper_lower_length left' right' (seg a first (first + 1))) as Hul.
  rewrite seg_length in Hul by lia. lia.
Qed.
(** ** The order of [grahamScan] on the half plane *)

Local Open Scope Z_scope.

Lemma in_half_spec (p : point) :
  in_half p ↔ (0 < x p ∨ (x p = 0 ∧ 0 ≤ y p)).
Proof. unfold in_half. rewrite point_lt_false. simpl. lia. Qed.

Lemma angle_lt_spec (p q : point) :
  angle_lt p q = true ↔
  (0 < cross p q ∨ (cross p q = 0 ∧ point_lt p q = true)).
Proof.
  unfold angle_lt. rewrite point_lt_spec.
  destruct (Z.eqb_spec (cross p q) 0) as [->|Hne]; simpl.
  - destruct (Z.eqb_spec (x p) (x q)) as [Hx|Hx]; simpl; rewrite Z.ltb_lt; lia.
  - rewrite Z.ltb_lt. lia.
Qed.

(** Behind a strict turn every later point is a strict turn too. *)
Lemma angle_step (u v w : point) :
  in_half u → in_half v → in_half w →
  0 < cross u v → (angle_lt v w = true ∨ v = w) → 0 < cross u w.
Proof.
  rewrite !in_half_spec, angle_lt_spec, point_lt_spec. unfold cross.
  destruct u as [ux uy], v as [vx vy], w as [wx wy]. simpl.
  intros Hu Hv Hw Huv [H|[= -> ->]]; [|done].
  assert ((ux * vy - uy * vx) * wx - (ux * wy - uy * wx) * vx
          + (vx * wy - vy * wx) * ux = 0) as Ix by ring.
  assert ((ux * vy - uy * vx) * wy - (ux * wy - uy * wx) * vy
          + (vx * wy - vy * wx) * uy = 0) as Iy by ring.
  nia.
Qed.

Lemma angle_lt_trans (p q r : point) :
  in_half p → in_half q → in_half r →
  angle_lt p q = true → angle_lt q r = true → angle_lt p r = true.
Proof.
  rewrite !in_half_spec, !angle_lt_spec, !point_lt_spec. unfold cross.
  destruct p as [px p_y], q as [qx qy], r as [rx ry]. simpl.
  intros Hp Hq Hr Hpq Hqr.
  assert ((px * qy - p_y * qx) * rx - (px * ry - p_y * rx) * qx
          + (qx * ry - qy * rx) * px = 0) as Ix by ring.
  assert ((px * qy - p_y * qx) * ry - (px * ry - p_y * rx) * qy
          + (qx * ry - qy * rx) * p_y = 0) as Iy by ring.
  destruct Hpq as [Hpq|[Hpq0 Hpq]], Hqr as [Hqr|[Hqr0 Hqr]].
  - left. nia.
  - left. nia.
  - destruct (Z.eq_dec px 0) as [->|?], (Z.eq_dec p_y 0) as [->|?];
      try (left; nia). right. nia.
  - right. split; nia.
Qed.

Lemma angle_lt_connex (p q : point) :
  angle_lt p q = false → angle_lt q p = true ∨ q = p.
Proof.
  intros H. destruct (angle_lt q p) eqn:E; [by left|right].
  apply not_true_iff_false in H, E. rewrite angle_lt_spec in H, E.
  rewrite point_lt_spec in H, E.
  assert (cross q p = - cross p q) as Hc by (unfold cross; ring).
  destruct p as [px p_y], q as [qx qy]. simpl in *. f_equal; lia.
Qed.

Local Close Scope Z_scope.

(** ** The collapse of the runs of equal angle *)

Lemma skip_suffix (u : point) (l : list point) :
  ∃ l1, l = l1 ++ (skip u l).2.
Proof.
  revert u. induction l as [|v l IH]; intros u; simpl; [by exists []|].
  destruct (cross u v =? 0)%Z; [|by exists []].
  destruct (IH v) as (l1 & Hl1). exists (v :: l1). simpl. by f_equal.
Qed.

Lemma skip_length (u : point) (l : list point) :
  length (skip u l).2 ≤ length l.
Proof.
  destruct (skip_suffix u l) as (l1 & Hl1).
  rewrite Hl1 at 2. rewrite length_app. lia.
Qed.

Lemma compact_skip (u : point) (l : list point) :
  compact (u :: l) = (skip u l).1 :: compact (skip u l).2.
Proof.
  revert u. induction l as [|v l IH]; intros u; [done|].
  change (compact (u :: v :: l))
    with (if (cross u v =? 0)%Z then compact (v :: l) else u :: compact (v :: l)).
  simpl skip. destruct (cross u v =? 0)%Z; [apply IH|done].
Qed.

Lemma compact_length (l : list point) : length (compact l) ≤ length l.
Proof.
  induction l as [|u [|v l] IH]; simpl in *; [lia..|].
  destruct (cross u v =? 0)%Z; simpl; lia.
Qed.

Lemma compact_nonempty (u : point) (l : list point) : compact (u :: l) ≠ [].
Proof. by rewrite compact_skip. Qed.

Lemma rdZ_nat (a : list point) (i : nat) : rdZ a (Z.of_nat i) = rd a i.
Proof.
  unfold rdZ. destruct (Z.ltb_spec (Z.of_nat i) 0); [lia|].
  by rewrite Nat2Z.id.
Qed.

Lemma wrZ_nat (a : list point) (i : nat) (p : point) :
  wrZ a (Z.of_nat i) p = wr a i p.
Proof.
  unfold wrZ. destruct (Z.ltb_spec (Z.of_nat i) 0); [lia|].
  by rewrite Nat2Z.id.
Qed.

Lemma swapZ_nat (a : list point) (i j : nat) :
  swapZ a (Z.of_nat i) (Z.of_nat j) = swap a i j.
Proof.
  unfold swapZ.
  destruct (Z.ltb_spec (Z.of_nat i) 0); [lia|].
  destruct (Z.ltb_spec (Z.of_nat j) 0); [lia|].
  simpl. by rewrite !Nat2Z.id.
Qed.

Lemma skip_run_spec (l : list point) :
  ∀ (fuel : nat) (ps : list point) (n : nat) (u : point) (i : nat),
    seg ps (S i) n = l → n ≤ length ps → i < n → length l ≤ fuel →
    skip_run fuel ps (Z.of_nat n) u (Z.of_nat i)
    = Ok ((skip u l).1, Z.of_nat (n - 1 - length (skip u l).2)).
Proof.
  induction l as [|v l IH]; intros fuel ps n u i Hseg Hn Hi Hfuel.
  - assert (n = S i) as ->.
    { apply (f_equal length) in Hseg. rewrite seg_length in Hseg by done.
      simpl in Hseg. lia. }
    assert (skip_run fuel ps (Z.of_nat (S i)) u (Z.of_nat i) = Ok (u, Z.of_nat i))
      as ->.
    { destruct fuel; simpl;
        (destruct (Z.ltb_spec (Z.of_nat i) (Z.of_nat (S i) - 1)); [lia|done]). }
    simpl. do 3 f_equal. lia.
  - assert (S i < n) as Hlt.
    { apply (f_equal length) in Hseg. rewrite seg_length in Hseg by done.
      simpl in Hseg. lia. }
    destruct fuel as [|fuel]; [simpl in Hfuel; lia|]. simpl skip_run.
    destruct (Z.ltb_spec (Z.of_nat i) (Z.of_nat n - 1)); [|lia].
    assert (ps !! S i = Some v) as Hv.
    { unfold seg in Hseg. apply (f_equal (fun l => l !! 0)) in Hseg.
      rewrite lookup_take_lt, lookup_drop in Hseg by lia.
      rewrite Nat.add_0_r in Hseg. done. }
    replace (Z.of_nat i + 1)%Z with (Z.of_nat (S i)) by lia.
    rewrite rdZ_nat. rewrite (proj2 (rd_Ok _ _ _) Hv). simpl.
    destruct (cross u v =? 0)%Z; simpl.
    + rewrite (IH fuel ps n v (S i)); [done| |done|lia|simpl in Hfuel; lia].
      rewrite (seg_cons ps (S i) n v) in Hseg by done.
      by injection Hseg.
    + do 3 f_equal. apply (f_equal length) in Hseg.
      rewrite seg_length in Hseg by done. simpl in Hseg. lia.
Qed.
Lemma seg_insert_before (a : list point) (m first last : nat) (p : point) :
  m < first → seg (<[m := p]> a) first last = seg a first last.
Proof. intros H. unfold seg. by rewrite drop_insert_lt. Qed.

Lemma seg_suffix (a : list point) (first last : nat) (l1 l2 : list point) :
  last ≤ length a → first ≤ last → seg a first last = l1 ++ l2 →
  seg a (last - length l2) last = l2.
Proof.
  intros Hlast Hle Hseg.
  assert (length l1 + length l2 = last - first) as Hlen.
  { rewrite <- length_app, <- Hseg. by apply seg_length. }
  rewrite (seg_app a first (last - length l2) last) in Hseg by lia.
  apply app_inj_2 in Hseg; [by destruct Hseg|].
  rewrite seg_length by done. lia.
Qed.

Lemma collapse_spec (fuel : nat) :
  ∀ (ps : list point) (n m i : nat) (l : list point),
    seg ps i n = l → n ≤ length ps → m ≤ i → i ≤ n → length l ≤ fuel →
    collapse fuel ps (Z.of_nat n) (Z.of_nat m) (Z.of_nat i)
    = Ok (take m ps ++ compact l ++ drop (m + length (compact l)) ps,
          Z.of_nat (m + length (compact l))).
Proof.
  induction fuel as [|fuel IH]; intros ps n m i l Hseg Hn Hm Hi Hfuel.
  - assert (l = []) as -> by (apply length_zero_iff_nil; lia).
    assert (i = n) as ->.
    { apply (f_equal length) in Hseg. rewrite seg_length in Hseg by done.
      simpl in Hseg. lia. }
    simpl. destruct (Z.ltb_spec (Z.of_nat n) (Z.of_nat n)); [lia|].
    rewrite Nat.add_0_r, take_drop. done.
  - simpl collapse.
    destruct (Z.ltb_spec (Z.of_nat i) (Z.of_nat n)) as [Hlt|Hge].
    + assert (i < n) as Hlt' by lia.
      destruct (lookup_lt_is_Some_2 ps i) as [u Hu]; [lia|].
      rewrite (seg_cons ps i n u) in Hseg by done.
      destruct l as [|u' l0]; [done|]. injection Hseg as <- Hseg.
      rewrite rdZ_nat, (proj2 (rd_Ok _ _ _) Hu). simpl.
      replace (Z.to_nat (Z.of_nat n - Z.of_nat i)) with (n - i) by lia.
      assert (length l0 = n - S i) as Hl0.
      { rewrite <- Hseg. by apply seg_length. }
      rewrite (skip_run_spec l0) by (done || lia). simpl.
      pose proof (skip_length u l0) as Hskip.
      destruct (skip_suffix u l0) as (l1 & Hl1).
      pose proof (compact_skip u l0) as Hcompact.
      destruct (skip u l0) as [u' l'] eqn:Eskip. simpl in *.
      rewrite wrZ_nat. unfold wr. rewrite decide_True by lia. simpl.
      replace (Z.of_nat m + 1)%Z with (Z.of_nat (S m)) by lia.
      replace (Z.of_nat (n - 1 - length l') + 1)%Z
        with (Z.of_nat (n - length l')) by lia.
      rewrite (IH _ n (S m) (n - length l') l').
      * rewrite Hcompact. simpl. f_equal. f_equal; [|f_equal; lia].
        rewrite (take_S_r _ _ u')
          by (rewrite list_lookup_insert_eq by lia; done).
        rewrite take_insert_ge by lia.
        rewrite drop_insert_lt by lia.
        rewrite <- app_assoc. simpl. do 4 f_equal. lia.
      * rewrite seg_insert_before by lia.
        apply (seg_suffix ps (S i) n l1); [done|lia|]. by rewrite Hseg.
      * by rewrite length_insert.
      * lia.
      * lia.
      * simpl in Hfuel. lia.
    + assert (i = n) as -> by lia. rewrite seg_nil in Hseg. subst l. simpl.
      rewrite Nat.add_0_r, take_drop. done.
Qed.
(** ** [std::min_element] and [std::transform] *)

Lemma min_element_spec (a : list point) (first last : nat) :
  first < last ≤ length a →
  ∃ smallest, min_element a first last = Ok smallest ∧
              min_at a first last smallest.
Proof.
  intros [H1 H2]. unfold min_element.
  destruct (Nat.eqb_spec first last) as [?|_]; [lia|].
  destruct (lookup_lt_is_Some_2 a first) as [p0 Hp0]; [lia|].
  apply (for_ptr_total (min_at a first)); [lia|lia| |].
  - split; [lia|]. exists p0. split; [done|].
    rewrite (seg_cons a first (S first) p0), !seg_nil by (done || lia).
    split; [|done].
    split; [by apply list_elem_of_singleton
           |repeat constructor; apply point_lt_irrefl].
  - intros it smallest Hit (Hsm & m & Hm & Hmin & Hbefore).
    destruct (lookup_lt_is_Some_2 a it) as [p Hp]; [lia|].
    rewrite (proj2 (rd_Ok _ _ _) Hp), (proj2 (rd_Ok _ _ _) Hm). simpl.
    eexists. split; [done|].
    pose proof (is_min_snoc _ _ p Hmin) as Hmin'.
    rewrite <- (seg_snoc a first it p) in Hmin' by (done || lia).
    destruct (point_lt p m) eqn:E.
    + split; [lia|]. exists p. split; [done|]. split; [done|].
      destruct Hmin as [_ Hall].
      eapply Forall_impl; [exact Hall|]. simpl. intros q Hq.
      rewrite point_lt_spec in E. rewrite point_lt_false in Hq.
      apply point_lt_spec. lia.
    + split; [lia|]. exists m. done.
Qed.


Lemma transform_run (a : list point) (first : nat) (f : point → point)
    (k : nat) :
  first + k ≤ length a →
  transform a first (first + k) f
  = Ok (splice a first (first + k) (map f (seg a first (first + k)))).
Proof.
  unfold transform. induction k as [|k IH]; intros Hk.
  - rewrite Nat.add_0_r, for_ptr_done, seg_nil. simpl.
    by rewrite splice_empty.
  - replace (first + S k) with (S (first + k)) by lia.
    rewrite for_ptr_snoc by lia. rewrite IH by lia. clear IH. simpl.
    destruct (lookup_lt_is_Some_2 a (first + k)) as [p Hp]; [lia|].
    rewrite (seg_snoc a first (first + k) p) by (done || lia).
    set (s := seg a first (first + k)).
    assert (length s = k) as Hs by (unfold s; rewrite seg_length; lia).
    assert (length (take first a) = first) as Htk by (rewrite length_take; lia).
    unfold splice. rewrite (drop_S a p (first + k) Hp).
    rewrite (rd_mid _ (take first a ++ map f s) (drop (S (first + k)) a) p);
      [|list_eq|rewrite length_app, length_map; lia].
    simpl. unfold wr.
    rewrite decide_True.
    2:{ rewrite !length_app, length_map. simpl. lia. }
    f_equal. rewrite map_app. simpl.
    replace (take first a ++ map f s ++ p :: drop (S (first + k)) a)
      with ((take first a ++ map f s) ++ p :: drop (S (first + k)) a)
      by list_eq.
    rewrite insert_app_r_alt by (rewrite length_app, length_map; lia).
    replace (first + k - length (take first a ++ map f s)) with 0
      by (rewrite length_app, length_map; lia).
    simpl. list_eq.
Qed.

Lemma transform_Ok (a : list point) (n : nat) (f : point → point) :
  n ≤ length a → transform a 0 n f = Ok (map f (take n a) ++ drop n a).
Proof.
  intros Hn. pose proof (transform_run a 0 f n Hn) as H. simpl in H.
  rewrite H. unfold splice, seg. simpl. by rewrite drop_0, Nat.sub_0_r.
Qed.
(** ** The sweep *)

Lemma point_add_sub (p q : point) : (p + (q - p))%pt = q.
Proof. destruct p, q. unfold point_add, point_sub. simpl. f_equal; lia. Qed.

Lemma point_sub_add (p v : point) : ((p + v) - p)%pt = v.
Proof. destruct p, v. unfold point_add, point_sub. simpl. f_equal; lia. Qed.

Lemma point_add_origin (v : point) : (origin + v)%pt = v.
Proof. by destruct v. Qed.

Lemma point_sub_origin (p : point) : (p - origin)%pt = p.
Proof. destruct p. unfold point_sub. simpl. f_equal; lia. Qed.

Lemma point_sub_diag (p : point) : (p - p)%pt = origin.
Proof. destruct p. unfold point_sub, origin. simpl. f_equal; lia. Qed.

Lemma cross_antisym (u v : point) : cross u v = (- cross v u)%Z.
Proof. unfold cross. lia. Qed.

Lemma left_turns_prefix (l1 l2 : list point) :
  left_turns (l1 ++ l2) → left_turns l1.
Proof.
  induction l1 as [|a [|b [|c l1]] IH]; simpl; try done.
  intros [H1 H2]. split; [done|]. by apply IH.
Qed.

Lemma left_turns_snoc (l : list point) (a b c : point) :
  left_turns (l ++ [a; b]) → (cross (c - a) (b - a) < 0)%Z →
  left_turns (l ++ [a; b; c]).
Proof.
  induction l as [|x [|y [|z l]] IH]; simpl; intros H Hc.
  - done.
  - destruct H as [H _]. done.
  - destruct H as [H1 [H2 _]]. done.
  - destruct H as [H1 H2]. split; [done|]. by apply IH.
Qed.



(** The pops: under the invariant the stack keeps its two lowest points,
    so that no slot below the array is read. *)
Lemma pop_spec (fuel : nat) :
  ∀ (ps : list point) (cur p v c1 : point) (s : nat),
    1 ≤ s → s < length ps → s ≤ fuel →
    ps !! 0 = Some origin → ps !! 1 = Some c1 → (0 < cross c1 cur)%Z →
    ps !! (s - 1) = Some p → ps !! s = Some (p + v)%pt →
    ∃ p' v' s',
      pop fuel ps cur p v (Z.of_nat s) = Ok (p', v', Z.of_nat s') ∧
      1 ≤ s' ≤ s ∧
      ps !! (s' - 1) = Some p' ∧ ps !! s' = Some (p' + v')%pt ∧
      (cross (cur - p') v' < 0)%Z ∧
      rev (take (S s') ps) = pops cur (rev (take (S s) ps)).
Proof.
  induction fuel as [|fuel IH]; intros ps cur p v c1 s Hs Hlen Hfuel H0 H1 Hc1
    Hp Hv; [lia|].
  assert (rev (take (S s) ps)
          = (p + v)%pt :: p :: rev (take (s - 1) ps)) as Hstack.
  { rewrite (take_S_r _ _ (p + v)%pt) by done.
    replace s with (S (s - 1)) at 1 by lia.
    rewrite (take_S_r _ _ p) by done.
    by rewrite !rev_app_distr. }
  simpl pop.
  destruct (Z.ltb_spec 0 (Z.of_nat s)) as [_|?]; [|lia]. simpl.
  destruct (Z.leb_spec 0 (cross (cur - p) v)) as [Hpop|Hkeep].
  - assert (2 ≤ s) as Hs2.
    { destruct (decide (s = 1)) as [->|?]; [exfalso|lia].
      simpl in Hp. rewrite H0 in Hp. injection Hp as <-.
      rewrite H1, point_add_origin in Hv. injection Hv as <-.
      rewrite point_sub_origin, cross_antisym in Hpop. lia. }
    replace (Z.of_nat s - 1 - 1)%Z with (Z.of_nat (s - 2)) by lia.
    replace (Z.of_nat s - 1)%Z with (Z.of_nat (s - 1)) by lia.
    rewrite !rdZ_nat.
    destruct (lookup_lt_is_Some_2 ps (s - 2)) as [p1 Hp1]; [lia|].
    rewrite (proj2 (rd_Ok _ _ _) Hp1), (proj2 (rd_Ok _ _ _) Hp). simpl.
    destruct (IH ps cur p1 (p - p1)%pt c1 (s - 1))
      as (p' & v' & s' & Hrun & Hs' & Hp' & Hv' & Hturn & Hpops);
      try done; try lia.
    + by replace (s - 1 - 1) with (s - 2) by lia.
    + by rewrite point_add_sub.
    + exists p', v', s'. split_and!; try done; try lia.
      rewrite Hpops, Hstack.
      replace (S (s - 1)) with s by lia.
      replace s with (S (s - 1)) at 1 by lia.
      rewrite (take_S_r _ _ p) by done. rewrite rev_app_distr.
      cbn [rev app pops].
      replace (p + v - p)%pt with v by (by rewrite point_sub_add).
      destruct (Z.leb_spec 0 (cross (cur - p) v)); [done|lia].
  - exists p, v, s. split_and!; try done; try lia.
    rewrite Hstack. cbn [pops].
    replace (p + v - p)%pt with v by (by rewrite point_sub_add).
    destruct (Z.leb_spec 0 (cross (cur - p) v)); [lia|done].
Qed.

Lemma swap_lookup (a : list point) (i j : nat) (a' : list point) (pi pj : point) :
  a !! i = Some pi → a !! j = Some pj → swap a i j = Ok a' →
  a' !! i = Some pj ∧ a' !! j = Some pi ∧
  (∀ k, k ≠ i → k ≠ j → a' !! k = a !! k).
Proof.
  intros Hi Hj H. apply swap_Ok in H as (p & q & Hp & Hq & ->).
  assert (p = pi) as -> by congruence. assert (q = pj) as -> by congruence.
  apply lookup_lt_Some in Hp as Hli, Hq as Hlj.
  split_and!.
  - destruct (decide (i = j)) as [->|Hne].
    + rewrite list_lookup_insert_eq by (by rewrite length_insert). congruence.
    + rewrite list_lookup_insert_ne by done.
      by rewrite list_lookup_insert_eq.
  - by rewrite list_lookup_insert_eq by (by rewrite length_insert).
  - intros k Hki Hkj. by rewrite !list_lookup_insert_ne.
Qed.

(** One round of the sweep keeps the invariant. *)
Lemma sweep_step (ps0 : list point) (m : nat) (ps : list point) (p v : point)
    (s i : nat) (c1 cur : point) :
  sweep_inv ps0 m ps p v s i → i < m →
  ps0 !! 0 = Some origin → ps0 !! 1 = Some c1 → ps0 !! i = Some cur →
  (0 < cross c1 cur)%Z →
  ∃ p' v' s' ps',
    pop (s) ps cur p v (Z.of_nat s) = Ok (p', v', Z.of_nat s') ∧
    swap ps i (S s') = Ok ps' ∧
    sweep_inv ps0 m ps' (p' + v')%pt (cur - (p' + v'))%pt (S s') (S i) ∧
    rev (take (S (S s')) ps') = cur :: pops cur (rev (take (S s) ps)).
Proof.
  intros (Hlen & Hs1 & Hsi & Him & Hm & Hdrop & H0 & H1 & Hp & Hv & Hturns
          & Hsub) Hi HO Hc1 Hcur Hcross.
  assert (ps !! i = Some cur) as Hcur'.
  { pose proof (f_equal (fun l : list point => l !! 0) Hdrop) as E.
    simpl in E. rewrite !lookup_drop, Nat.add_0_r in E. congruence. }
  destruct (pop_spec s ps cur p v c1 s)
    as (p' & v' & s' & Hpop & Hs' & Hp' & Hv' & Hturn & Hpops);
    try done; try lia; try congruence.
  destruct (lookup_lt_is_Some_2 ps (S s')) as [x Hx]; [lia|].
  destruct (swap_total ps i (S s')) as [ps' Hswap]; [lia..|].
  destruct (swap_lookup _ _ _ _ _ _ Hcur' Hx Hswap) as (Hi' & Hs'' & Hother).
  exists p', v', s', ps'. split; [done|]. split; [done|].
  assert (take (S s') ps' = take (S s') ps) as Htake.
  { apply list_eq. intros k. destruct (decide (k < S s')) as [Hk|Hk].
    - rewrite !lookup_take_lt by done. apply Hother; lia.
    - rewrite !lookup_take_ge by lia. done. }
  assert (take (S (S s')) ps' = take (S s') ps ++ [cur]) as Hstack.
  { rewrite (take_S_r _ _ cur) by done. by rewrite Htake. }
  assert (take (S s') ps = take (S s') (take (S s) ps)) as Hpre.
  { rewrite take_take. f_equal. lia. }
  split; [|by rewrite Hstack, rev_app_distr, Hpops].
  unfold sweep_inv. split_and!; try lia.
  - by rewrite (swap_length _ _ _ _ Hswap).
  - apply swap_Ok in Hswap as (? & ? & _ & _ & ->).
    rewrite !drop_insert_lt by lia.
    replace (S i) with (i + 1) by lia.
    by rewrite <- !(drop_drop _ 1 i), Hdrop.
  - rewrite Hother by lia. done.
  - rewrite Hother by lia. done.
  - replace (S s' - 1) with s' by lia. rewrite Hother by lia. done.
  - by rewrite point_add_sub.
  - rewrite Hstack.
    assert (left_turns (take (S s') ps)) as Hturns'.
    { rewrite Hpre. rewrite <- (take_drop (S s') (take (S s) ps)) in Hturns.
      by apply left_turns_prefix in Hturns. }
    assert (take (S s') ps = take (s' - 1) ps ++ [p'; (p' + v')%pt]) as Hlast.
    { replace (S s') with (S (S (s' - 1))) at 1 by lia.
      rewrite (take_S_r _ _ (p' + v')%pt)
        by (by replace (S (s' - 1)) with s' by lia).
      rewrite (take_S_r _ _ p') by done. by rewrite <- app_assoc. }
    rewrite Hlast, <- app_assoc. simpl.
    apply left_turns_snoc; [by rewrite <- Hlast|].
    by rewrite point_sub_add.
  - rewrite Hstack, (take_S_r ps0 i cur) by done.
    apply sublist_app; [|done].
    rewrite Hpre. etrans; [apply sublist_take|done].
Qed.
Lemma sweep_spec (fuel : nat) :
  ∀ (ps0 : list point) (m : nat) (cs junk : list point) (ps : list point)
    (p v : point) (s i : nat),
    ps0 = origin :: cs ++ junk → m = S (length cs) →
    StronglySorted (fun a b => (0 < cross a b)%Z) cs →
    sweep_inv ps0 m ps p v s i → m - i ≤ fuel →
    ∃ ps' p' v' s',
      sweep fuel ps (Z.of_nat m) p v (Z.of_nat s) (Z.of_nat i)
      = Ok (ps', Z.of_nat s') ∧
      sweep_inv ps0 m ps' p' v' s' m ∧
      rev (take (S s') ps') = scan (rev (take (S s) ps)) (seg ps0 i m).
Proof.
  induction fuel as [|fuel IH]; intros ps0 m cs junk ps p v s i Hps0 Hm Hcs
    Hinv Hfuel.
  - assert (i = m) as -> by (destruct Hinv as (_ & _ & _ & ? & _); lia).
    exists ps, p, v, s. simpl. rewrite seg_nil.
    destruct (Z.ltb_spec (Z.of_nat m) (Z.of_nat m)); [lia|done].
  - simpl sweep.
    destruct (Z.ltb_spec (Z.of_nat i) (Z.of_nat m)) as [Hlt|Hge].
    + assert (i < m) as Hlt' by lia.
      pose proof Hinv as (Hlen & Hs1 & Hsi & Him & Hmlen & Hdrop & _).
      destruct cs as [|c1 cs']; [simpl in *; lia|].
      destruct (lookup_lt_is_Some_2 cs' (i - 2)) as [cur Hcur].
      { simpl in Hm. lia. }
      assert (ps0 !! i = Some cur) as Hcur0.
      { rewrite Hps0. replace i with (S (S (i - 2))) by lia. simpl.
        by rewrite lookup_app_l by (by eapply lookup_lt_Some). }
      assert (0 < cross c1 cur)%Z as Hcross.
      { apply StronglySorted_inv in Hcs as [_ Hall].
        by apply (Forall_lookup_1 _ _ _ _ Hall Hcur). }
      destruct (sweep_step ps0 m ps p v s i c1 cur)
        as (p' & v' & s' & ps' & Hpop & Hswap & Hinv' & Hstack); try done.
      { by rewrite Hps0. }
      { by rewrite Hps0. }
      assert (ps !! i = Some cur) as Hcur'.
      { pose proof (f_equal (fun l : list point => l !! 0) Hdrop) as E.
        simpl in E. rewrite !lookup_drop, Nat.add_0_r in E. congruence. }
      rewrite rdZ_nat, (proj2 (rd_Ok _ _ _) Hcur'). simpl.
      rewrite Nat2Z.id, Hpop. simpl.
      replace (Z.of_nat s' + 1)%Z with (Z.of_nat (S s')) by lia.
      rewrite swapZ_nat, Hswap. simpl.
      replace (Z.of_nat i + 1)%Z with (Z.of_nat (S i)) by lia.
      destruct (IH ps0 m (c1 :: cs') junk ps' (p' + v')%pt
                  (cur - (p' + v'))%pt (S s') (S i))
        as (ps'' & p'' & v'' & s'' & Hrun & Hinv'' & Hscan); try done; [lia|].
      exists ps'', p'', v'', s''. split_and!; try done.
      rewrite Hscan, Hstack, (seg_cons ps0 i m cur) by done. done.
    + assert (i = m) as -> by (destruct Hinv as (_ & _ & _ & ? & _); lia).
      exists ps, p, v, s. by rewrite seg_nil.
Qed.

(** ** The points that the sweep works on *)

Lemma compact_subset (l : list point) (w : point) :
  w ∈ compact l → w ∈ l.
Proof.
  induction l as [|u [|v l] IH]; [done..|].
  change (compact (u :: v :: l))
    with (if (cross u v =? 0)%Z then compact (v :: l) else u :: compact (v :: l)).
  destruct (cross u v =? 0)%Z.
  - intros H. right. by apply IH.
  - intros [->|H]%elem_of_cons; [by left|]. right. by apply IH.
Qed.

(** After the sort and the collapse the angles increase strictly. *)
Lemma compact_increasing (l : list point) :
  Forall in_half l → ordered angle_lt l →
  StronglySorted (fun a b => (0 < cross a b)%Z) (compact l).
Proof.
  intros Hhalf Hord.
  assert (StronglySorted
            (fun p q => in_half p ∧ in_half q ∧
                        (angle_lt p q = true ∨ p = q)) l) as Hss.
  { apply Sorted.Sorted_StronglySorted.
    - intros p q r (Hp & Hq & Hpq) (_ & Hr & Hqr). split_and!; [done..|].
      destruct Hpq as [Hpq| ->]; [|done].
      destruct Hqr as [Hqr| <-]; [|by left].
      left. by apply (angle_lt_trans p q r).
    - unfold ordered in Hord. clear -Hhalf Hord.
      induction Hord as [|p l Hs IH Hhd]; [constructor|].
      apply Forall_cons in Hhalf as [Hp Hl].
      constructor; [by apply IH|].
      destruct Hhd as [|q l Hpq]; constructor.
      apply Forall_cons in Hl as [Hq _]. done. }
  clear Hhalf Hord.
  induction l as [|u [|v l] IH]; [constructor|repeat constructor|].
  change (compact (u :: v :: l))
    with (if (cross u v =? 0)%Z then compact (v :: l) else u :: compact (v :: l)).
  apply StronglySorted_inv in Hss as [Hss Hall].
  destruct (Z.eqb_spec (cross u v) 0) as [Hz|Hnz]; [by apply IH|].
  constructor; [by apply IH|].
  apply List.Forall_forall. intros w Hw%list_elem_of_In%compact_subset.
  apply Forall_cons in Hall as [(Hu & Hv & Huv) Hall].
  assert (0 < cross u v)%Z as Hpos.
  { destruct Huv as [Huv| ->]; [|unfold cross in Hnz; lia].
    apply angle_lt_spec in Huv. lia. }
  apply elem_of_cons in Hw as [->|Hw]; [done|].
  apply StronglySorted_inv in Hss as [_ Hvall].
  rewrite List.Forall_forall in Hvall.
  destruct (Hvall w) as (_ & Hwh & Hvw); [by apply list_elem_of_In|].
  by apply (angle_step u v w).
Qed.

Lemma in_half_sub (q m : point) :
  point_lt q m = false → in_half (q - m).
Proof.
  rewrite point_lt_false, in_half_spec. destruct q, m. simpl. lia.
Qed.


Lemma point_sub_add_cancel (p m : point) : ((p + m) - m)%pt = p.
Proof. destruct p, m. unfold point_add, point_sub. simpl. f_equal; lia. Qed.

Lemma point_add_sub_cancel (p m : point) : ((p - m) + m)%pt = p.
Proof. destruct p, m. unfold point_add, point_sub. simpl. f_equal; lia. Qed.
(** ** [grahamScan] on two points or more *)

Lemma swap_elements (P : point → Prop) (a : list point) (i j n : nat)
    (a' : list point) :
  swap a i j = Ok a' → i < n → j < n →
  Forall P (take n a) → Forall P (take n a').
Proof.
  intros Hswap Hi Hj Hall.
  apply swap_Ok in Hswap as (p & q & Hp & Hq & ->).
  rewrite !take_insert_lt by lia.
  apply Forall_insert; [apply Forall_insert; [done|]|].
  - apply (Forall_lookup_1 _ _ j _ Hall). by rewrite lookup_take_lt.
  - apply (Forall_lookup_1 _ _ i _ Hall). by rewrite lookup_take_lt.
Qed.

Lemma swap_drop (a : list point) (i j n : nat) (a' : list point) :
  swap a i j = Ok a' → i < n → j < n → drop n a' = drop n a.
Proof.
  intros Hswap Hi Hj. apply swap_Ok in Hswap as (p & q & _ & _ & ->).
  by rewrite !drop_insert_lt by lia.
Qed.

Lemma swap_take_Permutation (a : list point) (i j n : nat)
    (a' : list point) :
  swap a i j = Ok a' → i < n → j < n → take n a' ≡ₚ take n a.
Proof.
  intros Hswap Hi Hj.
  pose proof (swap_Permutation _ _ _ _ Hswap) as Hperm.
  pose proof (swap_drop _ _ _ n _ Hswap Hi Hj) as Hdrop.
  rewrite <- (take_drop n a), <- (take_drop n a'), Hdrop in Hperm.
  symmetry. by apply Permutation_app_inv_r in Hperm.
Qed.

Lemma map_sub_add (mn : point) (l : list point) :
  map (fun q => q + mn)%pt (map (fun q => q - mn)%pt l) = l.
Proof.
  rewrite map_map. rewrite <- (map_id l) at 2.
  apply map_ext. intros q. apply point_add_sub_cancel.
Qed.

(** The run of [grahamScan], stage by stage: [mn] is the smallest point,
    [Ss] the other points, translated and sorted, [cs] what the collapse
    keeps of them, and the stack that the sweep leaves is [scan] of
    [cs]. *)
Lemma grahamScan_run_full (ps : list point) (n : nat) :
  2 ≤ n ≤ length ps →
  ∃ mn Ss cs junk ps5 p v s,
    is_min (take n ps) mn ∧
    map (fun q => q + mn)%pt (origin :: Ss) ≡ₚ take n ps ∧
    Forall in_half Ss ∧ ordered angle_lt Ss ∧ cs = compact Ss ∧
    cs ≠ [] ∧ S (length cs) ≤ n ∧
    Forall in_half cs ∧
    StronglySorted (fun a b => (0 < cross a b)%Z) cs ∧
    sweep_inv (origin :: cs ++ junk) (S (length cs)) ps5 p v s
      (S (length cs)) ∧
    rev (take (S s) ps5) = scan [origin] cs ∧
    length ps5 = length ps ∧
    drop n ps5 = drop n ps ∧
    grahamScan ps n
    = Ok (map (fun q => q + mn)%pt (take n ps5) ++ drop n ps5,
          (Z.of_nat s + 1)%Z).
Proof.
  intros [Hn2 Hn]. unfold grahamScan.
  (* the smallest point goes to the front *)
  destruct (min_element_spec ps 0 n) as (mi & -> & Hmi & mn & Hmn & Hmin & _);
    [lia|].
  assert (seg ps 0 n = take n ps) as Hseg0
    by (unfold seg; by rewrite drop_0, Nat.sub_0_r).
  rewrite Hseg0 in Hmin.
  simpl. rewrite (proj2 (rd_Ok _ _ _) Hmn). simpl.
  destruct (swap_total ps mi 0) as [ps1 Hswap]; [lia..|].
  rewrite Hswap. simpl.
  pose proof (swap_length _ _ _ _ Hswap) as Hlen1.
  destruct (lookup_lt_is_Some_2 ps 0) as [p0 Hp0]; [lia|].
  destruct (swap_lookup _ _ _ _ _ _ Hmn Hp0 Hswap) as (_ & Hfront & _).
  assert (Forall (fun q => point_lt q mn = false) (take n ps1)) as Hall1.
  { eapply swap_elements; [done|lia|lia|]. by destruct Hmin. }
  (* the translation *)
  rewrite transform_Ok by lia. simpl.
  set (ps2 := map (fun q => q - mn)%pt (take n ps1) ++ drop n ps1).
  assert (length ps2 = length ps) as Hlen2.
  { unfold ps2. rewrite length_app, length_map, length_take, length_drop. lia. }
  assert (take n ps2 = map (fun q => q - mn)%pt (take n ps1)) as Htake2.
  { unfold ps2. rewrite take_app_length'; [done|].
    rewrite length_map, length_take. lia. }
  assert (Forall in_half (take n ps2)) as Hhalf2.
  { rewrite Htake2. apply Forall_map.
    eapply Forall_impl; [exact Hall1|]. intros q. apply in_half_sub. }
  assert (ps2 !! 0 = Some origin) as Horigin.
  { rewrite <- (lookup_take_lt ps2 n 0) by lia. rewrite Htake2.
    rewrite list_lookup_fmap, lookup_take_lt by lia. rewrite Hfront. simpl.
    by rewrite point_sub_diag. }
  (* the sort *)
  unfold sort_range. rewrite decide_True by lia. simpl.
  set (S0 := seg ps2 1 n). set (Ss := sort angle_lt S0).
  assert (length S0 = n - 1) as HS0 by (unfold S0; rewrite seg_length; lia).
  assert (length Ss = n - 1) as HSs by (unfold Ss; by rewrite sort_length).
  assert (Forall in_half Ss) as HhalfS.
  { unfold Ss. rewrite sort_Permutation. unfold S0, seg.
    rewrite <- (take_drop 1 (take n ps2)) in Hhalf2.
    apply Forall_app in Hhalf2 as [_ Hhalf2].
    rewrite take_drop_commute. replace (1 + (n - 1)) with n by lia. done. }
  assert (ordered angle_lt Ss) as HordS.
  { apply sort_ordered. apply angle_lt_connex. }
  set (ps3 := splice ps2 1 n Ss).
  assert (length ps3 = length ps) as Hlen3.
  { unfold ps3. rewrite splice_length; lia. }
  assert (seg ps3 1 n = Ss) as Hseg3.
  { unfold ps3. apply seg_splice; lia. }
  assert (take 1 ps3 = [origin]) as Htake3.
  { unfold ps3. rewrite take_splice by lia.
    rewrite (take_S_r ps2 0 origin Horigin). done. }
  (* the collapse *)
  change (collapse n ps3 (Z.of_nat n) 1 1)
    with (collapse n ps3 (Z.of_nat n) (Z.of_nat 1) (Z.of_nat 1)).
  rewrite (collapse_spec n ps3 n 1 1 Ss) by (done || lia).
  rewrite bind_Ok. cbv beta iota.
  set (cs := compact Ss).
  assert (cs ≠ []) as Hcs.
  { unfold cs. destruct Ss as [|c Ss']; [simpl in *; lia|].
    apply compact_nonempty. }
  pose proof (compact_length Ss) as Hcslen. fold cs in Hcslen.
  rewrite Htake3.
  set (junk := drop (1 + length cs) ps3).
  set (ps4 := [origin] ++ cs ++ junk).
  assert (length ps4 = length ps) as Hlen4.
  { unfold ps4, junk. rewrite !length_app, length_drop. simpl. lia. }
  assert (Forall in_half cs) as HhalfC.
  { apply List.Forall_forall. intros w Hw%list_elem_of_In%compact_subset.
    rewrite List.Forall_forall in HhalfS. by apply HhalfS, list_elem_of_In. }
  pose proof (compact_increasing Ss HhalfS HordS) as Hinc. fold cs in Hinc.
  (* the sweep *)
  destruct cs as [|c1 cs'] eqn:Ecs; [done|].
  assert (rdZ ps4 0 = Ok origin) as -> by done.
  assert (rdZ ps4 1 = Ok c1) as -> by done.
  rewrite !bind_Ok.
  replace (Z.to_nat (Z.of_nat (1 + length (c1 :: cs'))))
    with (S (length (c1 :: cs'))) by lia.
  destruct (sweep_spec (S (length (c1 :: cs'))) ps4 (S (length (c1 :: cs')))
              (c1 :: cs') junk ps4 origin (c1 - origin)%pt 1 2)
    as (ps5 & p' & v' & s' & Hsweep & Hinv & Hscan); try done.
  { unfold sweep_inv. simpl length in *. split_and!; try done; try lia.
    - by rewrite point_add_sub. }
  { lia. }
  replace (Z.of_nat (1 + length (c1 :: cs')))
    with (Z.of_nat (S (length (c1 :: cs')))) by lia.
  change (sweep (S (length (c1 :: cs'))) ps4
            (Z.of_nat (S (length (c1 :: cs')))) origin (c1 - origin)%pt 1 2)
    with (sweep (S (length (c1 :: cs'))) ps4
            (Z.of_nat (S (length (c1 :: cs')))) origin (c1 - origin)%pt
            (Z.of_nat 1) (Z.of_nat 2)).
  rewrite Hsweep. rewrite bind_Ok. cbv beta iota.
  pose proof Hinv as (Hlen5 & _).
  change ((origin :: (c1 :: cs') ++ junk)) with ps4 in Hlen5.
  rewrite transform_Ok by lia. rewrite bind_Ok.
  exists mn, Ss, (c1 :: cs'), junk, ps5, p', v', s'.
  split_and!; try done.
  - assert (take n ps2 = origin :: S0) as E2.
    { rewrite <- (take_drop 1 (take n ps2)), take_take.
      replace (1 `min` n) with 1 by lia.
      rewrite (take_S_r ps2 0 origin Horigin). simpl. f_equal.
      unfold S0, seg. rewrite take_drop_commute.
      by replace (1 + (n - 1)) with n by lia. }
    transitivity (map (fun q => q + mn)%pt (origin :: S0)).
    { simpl. constructor. apply Permutation_map, sort_Permutation. }
    rewrite <- E2, Htake2, map_sub_add.
    eapply swap_take_Permutation; [done|lia..].
  - simpl in *. lia.
  - change ps4 with ([origin; c1] ++ cs' ++ junk) in Hscan.
    rewrite (seg_mid [origin; c1] cs' junk) in Hscan by (simpl; lia).
    by rewrite Hscan.
  - lia.
  - destruct Hinv as (_ & _ & _ & _ & _ & Hdrop5 & _).
    set (m := S (length (c1 :: cs'))) in *.
    assert (m ≤ n) as Hmle by (unfold m; simpl in *; lia).
    assert (∀ X : list point, drop n X = drop (n - m) (drop m X)) as Hd.
    { intros X. rewrite drop_drop. f_equal. lia. }
    rewrite (Hd ps5), Hdrop5, <- Hd.
    assert (drop n ps4 = drop n ps3) as ->.
    { unfold ps4. rewrite app_assoc.
      rewrite drop_app_ge by (simpl; unfold m in Hmle; simpl in Hmle; lia).
      unfold junk. rewrite drop_drop. f_equal.
      unfold m in Hmle. simpl in *. lia. }
    unfold ps3. rewrite drop_splice by lia.
    unfold ps2. rewrite drop_app_length'
      by (rewrite length_map, length_take; lia).
    eapply swap_drop; [done|lia..].
Qed.



(** ** [grahamScan] on the vertices it has returned *)

Lemma Forall_sublist (P : point → Prop) (l1 l2 : list point) :
  l1 `sublist_of` l2 → Forall P l2 → Forall P l1.
Proof.
  intros Hsub Hall. apply List.Forall_forall. intros q Hq%list_elem_of_In.
  rewrite List.Forall_forall in Hall. apply Hall, list_elem_of_In.
  by eapply elem_of_sublist.
Qed.

Lemma StronglySorted_sublist (R : point → point → Prop) (l1 l2 : list point) :
  l1 `sublist_of` l2 → StronglySorted R l2 → StronglySorted R l1.
Proof.
  induction 1 as [|p l1 l2 Hsub IH|p l1 l2 Hsub IH]; intros H; [constructor|..].
  - apply StronglySorted_inv in H as [Hs Hall]. constructor; [by apply IH|].
    by apply (Forall_sublist _ l1 l2).
  - apply StronglySorted_inv in H as [Hs _]. by apply IH.
Qed.






Lemma transform_length (a : list point) (first last : nat)
    (f : point → point) (a' : list point) :
  transform a first last f = Ok a' → length a' = length a.
Proof.
  unfold transform. intros H.
  eapply (for_ptr_inv (fun _ a1 => length a1 = length a)) in H.
  - by destruct H.
  - done.
  - intros it a1 a2 _ Hl Hb. bind_inv Hb as p Hrd.
    apply wr_Ok in Hb as [_ ->]. by rewrite length_insert.
Qed.

(** What a successful [grahamScan] tells about [n]. *)
Lemma grahamScan_range (ps : list point) (n : nat) (ps' : list point)
    (k : Z) :
  grahamScan ps n = Ok (ps', k) → 1 ≤ n ≤ length ps.
Proof.
  unfold grahamScan. intros H.
  bind_inv H as mi Hmin. bind_inv H as mn Hrd.
  bind_inv H as ps1 Hswap. bind_inv H as ps2 Htr.
  bind_inv H as ps3 Hsort.
  apply swap_length in Hswap. apply transform_length in Htr.
  unfold sort_range in Hsort. case_decide; [lia|done].
Qed.

Lemma grahamScan_one (ps : list point) (ps' : list point) (k : Z) :
  grahamScan ps 1 = Ok (ps', k) → k = 2%Z ∧ 2 ≤ length ps'.
Proof.
  unfold grahamScan. intros H.
  bind_inv H as mi Hmin. bind_inv H as mn Hrd.
  bind_inv H as ps1 Hswap. bind_inv H as ps2 Htr.
  bind_inv H as ps3 Hsort. bind_inv H as [ps4 m] Hcol.
  simpl in Hcol. injection Hcol as <- <-.
  bind_inv H as p Hp. bind_inv H as q Hq.
  bind_inv H as [ps5 s] Hsweep. simpl in Hsweep. injection Hsweep as <- <-.
  bind_inv H as ps6 Htr2. injection H as <- <-.
  apply transform_length in Htr2.
  change 1%Z with (Z.of_nat 1) in Hq. rewrite rdZ_nat in Hq.
  apply rd_lt in Hq. split; [done|lia].
Qed.

Lemma sublist_cons_inv (p : point) (l1 l2 : list point) :
  p :: l1 `sublist_of` p :: l2 → l1 `sublist_of` l2.
Proof.
  intros H. apply sublist_cons_l in H as (k1 & k2 & Hk & Hsub).
  destruct k1 as [|q k1]; simpl in Hk.
  - by injection Hk as <-.
  - injection Hk as _ ->. by apply sublist_inserts_l, sublist_cons.
Qed.


(** ** [quickHull] on the vertices it has returned *)

Lemma filter_sublist (pred : point → bool) (l : list point) :
  List.filter pred l `sublist_of` l.
Proof.
  induction l as [|p l IH]; simpl; [constructor|].
  destruct (pred p); by constructor.
Qed.

(** The chain keeps the order of the range. *)
Lemma hull_chain_sublist (l : list point) (u v : point) (c r : list point) :
  hull_chain l u v c r → c `sublist_of` l.
Proof.
  induction 1 as [u v|u v rest f D far_p c1 r1 c2 r2 Hmax Hfar _ IH1 _ IH2];
    [done|].
  rewrite <- (take_drop_middle rest f far_p Hfar).
  change (u :: take f rest ++ far_p :: drop (S f) rest)
    with ((u :: take f rest) ++ far_p :: drop (S f) rest).
  apply sublist_app.
  - etrans; [exact IH1|]. apply sublist_skip, filter_sublist.
  - etrans; [exact IH2|]. apply sublist_skip, filter_sublist.
Qed.

Lemma dists_sublist (d u : point) (l1 l2 : list point) :
  l1 `sublist_of` l2 → dists d u l1 `sublist_of` dists d u l2.
Proof.
  induction 1; simpl; by constructor.
Qed.

Lemma Forall_sublist_Z (P : Z → Prop) (l1 l2 : list Z) :
  l1 `sublist_of` l2 → Forall P l2 → Forall P l1.
Proof.
  intros Hsub Hall. apply List.Forall_forall. intros q Hq%list_elem_of_In.
  rewrite List.Forall_forall in Hall. apply Hall, list_elem_of_In.
  by eapply elem_of_sublist.
Qed.

(** On its own chain [findHull] keeps every point. *)
Lemma hull_chain_idem (l : list point) (u v : point) (c r : list point) :
  hull_chain l u v c r → hull_chain c u v c [].
Proof.
  induction 1 as [u v|u v rest f D far_p c1 r1 c2 r2 Hmax Hfar H1 IH1 H2 IH2];
    [constructor|].
  set (out := isOuterior (u - far_p) (v - far_p) far_p) in *.
  destruct (hull_chain_head _ _ _ _ _ H1) as (? & c1' & _ & ->).
  destruct (hull_chain_head _ _ _ _ _ H2) as (? & c2' & _ & ->).
  apply hull_chain_sublist in H1 as Hsub1, H2 as Hsub2.
  apply sublist_cons_inv in Hsub1, Hsub2.
  assert (Forall (fun q => out q = true) c1') as Hout1.
  { eapply Forall_sublist; [exact Hsub1|]. apply Forall_filter_true. }
  assert (Forall (fun q => out q = true) c2') as Hout2.
  { eapply Forall_sublist; [exact Hsub2|]. apply Forall_filter_true. }
  assert (c1' `sublist_of` take f rest) as Hsub1'.
  { etrans; [exact Hsub1|]. apply filter_sublist. }
  assert (c2' `sublist_of` drop (S f) rest) as Hsub2'.
  { etrans; [exact Hsub2|]. apply filter_sublist. }
  destruct Hmax as (HD & Hall & Hbefore).
  assert (cross (v - u) (u - far_p) = D) as HDfar.
  { unfold dists in HD. rewrite list_lookup_fmap, Hfar in HD. by injection HD. }
  assert (take (length c1') (c1' ++ far_p :: c2') = c1') as Htake
    by apply take_app_length.
  assert (drop (S (length c1')) (c1' ++ far_p :: c2') = c2') as Hdrop.
  { change (c1' ++ far_p :: c2') with (c1' ++ [far_p] ++ c2').
    rewrite app_assoc, drop_app_length'; [done|].
    rewrite length_app. simpl. lia. }
  pose proof (hull_chain_far u v (c1' ++ far_p :: c2') (length c1') D far_p
                (u :: c1') [] (far_p :: c2') []) as Hstep.
  fold out in Hstep.
  rewrite Htake, Hdrop, !filter_all, !hsp_back_all in Hstep by done.
  rewrite iter_rotate1_nil in Hstep. simpl in Hstep.
  apply Hstep; try done.
  - split_and!.
    + unfold dists. rewrite list_lookup_fmap, list_lookup_middle by done.
      simpl. by rewrite HDfar.
    + eapply Forall_sublist_Z; [|exact Hall]. apply dists_sublist.
      rewrite <- (take_drop_middle rest f far_p Hfar).
      apply sublist_app; [done|]. by apply sublist_skip.
    + unfold dists in *. rewrite firstn_map, Htake.
      rewrite firstn_map in Hbefore.
      eapply Forall_sublist_Z; [|exact Hbefore].
      by apply (dists_sublist (v - u) u).
  - by apply list_lookup_middle.
Qed.







(** ** The array after the engines *)

Lemma collapse_length (fuel : nat) :
  ∀ (ps : list point) (n m i : Z) (ps' : list point) (m' : Z),
    collapse fuel ps n m i = Ok (ps', m') → length ps' = length ps.
Proof.
  induction fuel as [|fuel IH]; intros ps n m i ps' m' H; simpl in H.
  - destruct (i <? n)%Z; [done|]. by injection H as <- _.
  - destruct (i <? n)%Z; [|by injection H as <- _].
    bind_inv H as u Hu. bind_inv H as [u' i'] Hskip. bind_inv H as ps1 Hwr.
    apply IH in H. rewrite H. unfold wrZ in Hwr.
    destruct (m <? 0)%Z; [done|]. apply wr_Ok in Hwr as [_ ->].
    by rewrite length_insert.
Qed.

Lemma sweep_length (fuel : nat) :
  ∀ (ps : list point) (m : Z) (p v : point) (s i : Z) (ps' : list point)
    (s' : Z),
    sweep fuel ps m p v s i = Ok (ps', s') → length ps' = length ps.
Proof.
  induction fuel as [|fuel IH]; intros ps m p v s i ps' s' H; simpl in H.
  - destruct (i <? m)%Z; [done|]. by injection H as <- _.
  - destruct (i <? m)%Z; [|by injection H as <- _].
    bind_inv H as cur Hcur. bind_inv H as [[p1 v1] s1] Hpop.
    bind_inv H as ps1 Hswap. apply IH in H. rewrite H.
    unfold swapZ in Hswap.
    destruct ((i <? 0)%Z || (s1 + 1 <? 0)%Z); [done|].
    by apply swap_length in Hswap.
Qed.

Lemma grahamScan_length (ps : list point) (n : nat) (ps' : list point)
    (k : Z) :
  grahamScan ps n = Ok (ps', k) → length ps' = length ps.
Proof.
  unfold grahamScan. intros H.
  bind_inv H as mi Hmin. bind_inv H as mn Hrd.
  bind_inv H as ps1 Hswap. bind_inv H as ps2 Htr.
  bind_inv H as ps3 Hsort. bind_inv H as [ps4 m] Hcol.
  bind_inv H as p Hp. bind_inv H as q Hq.
  bind_inv H as [ps5 s] Hsweep. bind_inv H as ps6 Htr2.
  injection H as <- <-.
  apply swap_length in Hswap. apply transform_length in Htr, Htr2.
  apply collapse_length in Hcol. apply sweep_length in Hsweep.
  unfold sort_range in Hsort. case_decide; [|done]. injection Hsort as <-.
  rewrite Htr2, Hsweep, Hcol, splice_length;
    rewrite ?sort_length, ?seg_length; lia.
Qed.

(** C3, the counterexample: [grahamScan] on (0,0), (1,0), (2,0) returns an
    array that has lost the point (1,0). *)
Lemma grahamScan_loses_points :
  ∃ ps' k,
    grahamScan [Point 0 0; Point 1 0; Point 2 0] 3 = Ok (ps', k) ∧
    ¬ (ps' ≡ₚ [Point 0 0; Point 1 0; Point 2 0]).
Proof.
  exists [Point 0 0; Point 2 0; Point 2 0], 2%Z. split; [reflexivity|].
  intros H.
  assert (Point 1 0 ∈ [Point 0 0; Point 2 0; Point 2 0]) as Hin.
  { rewrite H. apply elem_of_cons. right. by left. }
  repeat (apply elem_of_cons in Hin as [Hin|Hin]; [discriminate|]).
  by apply elem_of_nil in Hin.
Qed.

(** C3, as amended.  Both engines return an array of the length of the
    input.  When [quickHull] returns the count [k], the first [n] slots are
    a permutation of the first [n] slots of the input, the slots behind
    them are untouched and [0 < k ≤ n]: the slots [k, n) hold exactly the
    points of the input that are not in the slots [0, k). *)
Theorem engines_rearrange (e : engine) (a : list point) (n : nat)
    (a' : list point) (k : Z) :
  run_engine e a n = Ok (a', k) →
  length a' = length a ∧
  match e with
  | QuickHull =>
      take n a' ≡ₚ take n a ∧ drop n a' = drop n a ∧
      (0 < k ≤ Z.of_nat n)%Z
  | GrahamScan => True
  end.
Proof.
  destruct e; simpl; intros H; [|by apply grahamScan_length in H].
  apply quickHull_sound in H as (Hrange & res & k' & Hspec & -> & ->).
  pose proof (quickHull_spec_Permutation _ _ _ Hspec) as [Hperm Hk].
  assert (length res = n) as Hres.
  { rewrite Hperm, seg_length; lia. }
  rewrite seg_length in Hk by lia.
  assert (seg a 0 n = take n a) as Hseg
    by (unfold seg; by rewrite drop_0, Nat.sub_0_r).
  unfold splice. simpl. split_and!.
  - rewrite length_app, length_drop. lia.
  - rewrite take_app_length' by done. by rewrite Hperm, Hseg.
  - by rewrite drop_app_length'.
  - destruct Hspec as (? & ? & c1 & ? & ? & ? & ? & _ & _ & Hc1 & _ & _ & _ & ->).
    apply hull_chain_pos in Hc1. lia.
  - lia.
Qed.

Lemma engines_rearrange_witness :
  length [Point 2 2; Point 0 2; Point 0 0; Point 2 0; Point 0 1]
  = length [Point 0 0; Point 0 2; Point 2 2; Point 2 0; Point 0 1] ∧
  take 5 [Point 2 2; Point 0 2; Point 0 0; Point 2 0; Point 0 1]
  ≡ₚ take 5 [Point 0 0; Point 0 2; Point 2 2; Point 2 0; Point 0 1] ∧
  drop 5 [Point 2 2; Point 0 2; Point 0 0; Point 2 0; Point 0 1]
  = drop 5 [Point 0 0; Point 0 2; Point 2 2; Point 2 0; Point 0 1] ∧
  (0 < 4 ≤ Z.of_nat 5)%Z.
Proof.
  apply (engines_rearrange QuickHull
           [Point 0 0; Point 0 2; Point 2 2; Point 2 0; Point 0 1] 5
           [Point 2 2; Point 0 2; Point 0 0; Point 2 0; Point 0 1] 4).
  vm_compute. reflexivity.
Defined.
(** ** The orchestrator on an empty input *)

Lemma grahamScan_empty (ps : list point) :
  grahamScan ps 0
  = Fault (match ps with [] => OutOfBounds | _ :: _ => InvalidRange end).
Proof.
  unfold grahamScan. destruct ps as [|p ps]; [done|].
  change (min_element (p :: ps) 0 0) with (Ok 0 : outcome nat).
  rewrite bind_Ok. change (rd (p :: ps) 0) with (Ok p).
  rewrite bind_Ok, swap_self, bind_Ok by (simpl; lia).
  unfold transform. rewrite for_ptr_done, bind_Ok.
  unfold sort_range. rewrite decide_False by lia. done.
Qed.

(** C6, the counterexample: on [n = 0] the engine has been started when
    the fault comes. *)
Lemma calculate_not_rejected :
  ¬ rejected_up_front (calculate (fun _ => Point 0 0) (Globals [] []) 0).
Proof.
  intros [_ H]. apply (H "Graham Scan"%string).
  vm_compute. apply elem_of_cons. right. by left.
Qed.

(** C6, as amended.  [calculate] has no test on [n]: for [n = 0] it logs
    its line, starts the timer of Graham Scan and calls [grahamScan], and
    the computation halts there: on the read of [ps[0]] when the array is
    empty, and else on the call of [std::sort] on the range
    [ps + 1, ps + 0).  [quickHull] is not reached. *)
Theorem calculate_empty (gen : nat → point) (g : globals) :
  ∃ e,
    calculate gen g 0 = ([Print 0; TimerStart "Graham Scan"], Fault e) ∧
    grahamScan (ps g) 0 = Fault e ∧
    (e = OutOfBounds ∨ e = InvalidRange).
Proof.
  exists (match ps g with [] => OutOfBounds | _ :: _ => InvalidRange end).
  split_and!.
  - unfold calculate, generate. simpl. rewrite grahamScan_empty. done.
  - apply grahamScan_empty.
  - destruct (ps g); [by left|by right].
Qed.
Local Open Scope Z_scope.

Lemma lex_le_spec (p q : point) :
  lex_le p q ↔ (x p < x q ∨ (x p = x q ∧ y p ≤ y q)).
Proof.
  unfold lex_le, point_lt.
  rewrite orb_false_iff, andb_false_iff, Z.ltb_ge, Z.eqb_neq, Z.ltb_ge. lia.
Qed.








Local Close Scope Z_scope.
Local Open Scope Z_scope.






Local Close Scope Z_scope.





Local Open Scope Z_scope.

(** ** The geometry of the sweep *)

(** A popped point [t] is on the left of the line from [y] to [c]; then so
    is every point [q] on the left of the edge from [y] to [t] whose angle
    is not below that of [y]. *)
Lemma pop_covers (y t c q : point) :
  0 < cross y t → 0 < cross y c →
  left_of y c t → left_of y t q → 0 ≤ cross y q →
  left_of y c q.
Proof.
  unfold left_of. destruct y as [yx yy], t as [tx ty], c as [cx cy],
    q as [qx qy]. unfold cross. simpl. intros H1 H2 H3 H4 H5.
  assert (((yx * ty - yy * tx)
           * ((cx - yx) * (qy - yy) - (cy - yy) * (qx - yx)))
          = (yx * qy - yy * qx)
            * ((cx - yx) * (ty - yy) - (cy - yy) * (tx - yx))
            + ((tx - yx) * (qy - yy) - (ty - yy) * (qx - yx))
              * (yx * cy - yy * cx)) as E by ring.
  nia.
Qed.

(** The point [c] makes a strict left turn with the edge from [z] to [y];
    then every point [q] on the left of that edge whose angle is below
    that of [y] is on the left of the line from [y] to [c]. *)
Lemma stop_covers (z y c q : point) :
  0 ≤ cross z y → 0 < cross y c →
  0 < cross (y - z) (c - z) → left_of z y q → 0 < cross q y →
  left_of y c q.
Proof.
  unfold left_of. destruct z as [zx zy], y as [yx yy], c as [cx cy],
    q as [qx qy]. unfold cross. simpl. intros H1 H2 H3 H4 H5.
  assert (((zx * yy - zy * yx)
           * ((cx - yx) * (qy - yy) - (cy - yy) * (qx - yx)))
          = ((yx - zx) * (qy - zy) - (yy - zy) * (qx - zx))
            * (yx * cy - yy * cx)
            + (qx * yy - qy * yx)
              * ((yx - zx) * (cy - zy) - (yy - zy) * (cx - zx))) as E by ring.
  nia.
Qed.

(** The point [c] makes a strict left turn with the edge from [z] to [t];
    then it does with the edge below, from [y] to [z]. *)
Lemma turn_below (y z t c : point) :
  0 ≤ cross y z → 0 < cross z t → 0 < cross z c →
  0 < cross (z - y) (t - z) → 0 < cross (t - z) (c - z) →
  0 < cross (z - y) (c - y).
Proof.
  destruct y as [yx yy], z as [zx zy], t as [tx ty], c as [cx cy].
  unfold cross. simpl. intros H1 H2 H3 H4 H5.
  assert (((zx * ty - zy * tx)
           * ((zx - yx) * (cy - yy) - (zy - yy) * (cx - yx)))
          = (zx * cy - zy * cx)
            * ((zx - yx) * (ty - zy) - (zy - yy) * (tx - zx))
            + ((tx - zx) * (cy - zy) - (ty - zy) * (cx - zx))
              * (yx * zy - yy * zx)) as E by ring.
  nia.
Qed.


Lemma left_of_self (a b : point) : left_of a b b ∧ left_of a b a.
Proof.
  unfold left_of. destruct a, b. unfold cross. simpl. lia.
Qed.

(** The pops for the point [c], on a stack whose points all have a smaller
    angle than [c]: a point [T'] of the stack becomes the top, every
    point of [Q] is on the left of the line from [T'] to [c], and [c]
    makes a strict left turn with the edge below [T']. *)
Lemma pops_spec (c : point) (Q : list point) :
  ∀ (t : list point) (T : point),
    Forall (fun a => 0 < cross a c) (T :: t) →
    StronglySorted (fun a b => 0 < cross b a) (T :: t) →
    (∀ q, q ∈ Q → edges_ok (T :: t ++ [origin]) q) →
    (∀ q, q ∈ Q → 0 ≤ cross T q → left_of T c q) →
    ∃ T' t' popped,
      pops c (T :: t ++ [origin]) = T' :: t' ++ [origin] ∧
      T :: t = popped ++ T' :: t' ∧
      (∀ q, q ∈ Q → left_of T' c q) ∧
      (∀ z, (t' ++ [origin]) !! 0%nat = Some z →
            0 < cross (T' - z) (c - z)).
Proof.
  induction t as [|Y t2 IH]; intros T Hlt Hsort Hedges Htop.
  - apply Forall_cons in Hlt as [HTc _].
    exists T, [], []. simpl.
    rewrite !point_sub_origin.
    destruct (Z.leb_spec 0 (cross c T)) as [Hge|_].
    { rewrite cross_antisym in Hge. lia. }
    split_and!; try done.
    + intros q Hq. destruct (Z.le_gt_cases 0 (cross T q)) as [H|H].
      { by apply Htop. }
      apply (stop_covers origin T c q).
      * unfold origin, cross. simpl. lia.
      * done.
      * by rewrite !point_sub_origin.
      * by destruct (Hedges q Hq) as [? _].
      * rewrite cross_antisym. lia.
    + intros z [= <-]. by rewrite !point_sub_origin.
  - apply Forall_cons in Hlt as [HTc Hlt].
    pose proof Hlt as HYc0. apply Forall_cons in HYc0 as [HYc _].
    apply StronglySorted_cons in Hsort as [HT Hsort].
    pose proof HT as HYT0. apply Forall_cons in HYT0 as [HYT _].
    cbn [pops app].
    destruct (Z.leb_spec 0 (cross (c - Y) (T - Y))) as [Hpop|Hstop].
    + destruct (IH Y) as (T' & t' & popped & Hrun & Hsplit & Hleft & Hz);
        try done.
      * intros q Hq. by destruct (Hedges q Hq) as [_ ?].
      * intros q Hq HYq. apply (pop_covers Y T c q); try done.
        by destruct (Hedges q Hq) as [? _].
      * exists T', t', (T :: popped). split_and!; try done.
        by rewrite Hsplit.
    + exists T, (Y :: t2), []. split_and!; try done.
      * intros q Hq. destruct (Z.le_gt_cases 0 (cross T q)) as [H|H].
        { by apply Htop. }
        apply (stop_covers Y T c q); try done.
        -- lia.
        -- rewrite cross_antisym. lia.
        -- by destruct (Hedges q Hq) as [? _].
        -- rewrite cross_antisym. lia.
      * intros z [= <-]. rewrite cross_antisym. lia.
Qed.

Local Close Scope Z_scope.
Local Open Scope Z_scope.

Lemma left_of_origin (t c : point) : left_of t c origin ↔ 0 ≤ cross t c.
Proof.
  unfold left_of, origin. destruct t, c. unfold cross. simpl.
  split; intros H; nia.
Qed.

Lemma cross_sub_l (a z c : point) :
  cross (a - z) (c - a) = cross (a - z) (c - z).
Proof. destruct a, z, c. unfold cross. simpl. ring. Qed.

Lemma edges_ok_suffix (popped st : list point) (q : point) :
  edges_ok (popped ++ st) q → edges_ok st q.
Proof.
  induction popped as [|p popped IH]; [done|]. intros H. apply IH.
  simpl in H. destruct (popped ++ st); [done|]. by destruct H.
Qed.

Lemma turns_ok_suffix (popped st : list point) :
  turns_ok (popped ++ st) → turns_ok st.
Proof.
  induction popped as [|p popped IH]; [done|]. intros H. apply IH.
  simpl in H. destruct (popped ++ st) as [|y [|x l]]; try done.
  by destruct H.
Qed.

Lemma StronglySorted_rev (R : point → point → Prop) (l : list point) :
  StronglySorted R (rev l) → StronglySorted (fun a b => R b a) l.
Proof.
  induction l as [|p l IH]; [constructor|]. simpl. intros H.
  apply StronglySorted_app in H as (Hcross & Hl & _).
  apply StronglySorted_cons. split; [|by apply IH].
  apply Forall_forall. intros q Hq. apply Hcross.
  - apply list_elem_of_In, in_rev. rewrite rev_involutive.
    by apply list_elem_of_In.
  - by left.
Qed.

(** The point [c] that is pushed is on the left of every edge of the stack
    below it. *)
Lemma edges_ok_new (c : point) :
  ∀ (t : list point) (T : point),
    Forall (fun a => 0 < cross a c) (T :: t) →
    StronglySorted (fun a b => 0 < cross b a) (T :: t) →
    turns_ok (T :: t ++ [origin]) →
    (∀ z, (t ++ [origin]) !! 0%nat = Some z → 0 < cross (T - z) (c - z)) →
    edges_ok (T :: t ++ [origin]) c.
Proof.
  induction t as [|Z t IH]; intros T Hlt Hsort Hturns Hstop.
  - simpl. split; [|done]. unfold left_of.
    specialize (Hstop origin eq_refl). lia.
  - apply Forall_cons in Hlt as [HTc Hlt].
    pose proof Hlt as HZc0. apply Forall_cons in HZc0 as [HZc _].
    apply StronglySorted_cons in Hsort as [HT Hsort].
    pose proof HT as HZT0. apply Forall_cons in HZT0 as [HZT _].
    cbn [app edges_ok]. split.
    { unfold left_of. specialize (Hstop Z eq_refl). lia. }
    apply IH; try done.
    + cbn [app turns_ok] in Hturns.
      destruct (t ++ [origin]) as [|y l] eqn:E; [done|]. by destruct Hturns.
    + intros y Hy. apply (turn_below y Z T c); try done.
      * destruct t as [|y' t']; simpl in Hy; injection Hy as <-.
        -- unfold origin, cross. simpl. lia.
        -- apply StronglySorted_cons in Hsort as [HZ _].
           apply Forall_cons in HZ as [HZ _]. lia.
      * cbn [app turns_ok] in Hturns.
        destruct (t ++ [origin]) as [|y' l] eqn:E; [done|].
        simpl in Hy. injection Hy as ->. by destruct Hturns.
      * by apply (Hstop Z).
Qed.

(** One round of the sweep keeps the invariant. *)
Lemma scan_step (done st : list point) (c : point) :
  StronglySorted (fun a b => 0 < cross a b) (done ++ [c]) →
  scan_inv done st → scan_inv (done ++ [c]) (c :: pops c st).
Proof.
  intros Hsorted (T & t & -> & Hlast & Hsub & Hturns & Hedges).
  apply StronglySorted_app in Hsorted as (Hdc & Hdone & _).
  assert (∀ a, a ∈ done → 0 < cross a c) as Hlt_c.
  { intros a Ha. apply Hdc; [done|by left]. }
  assert (∀ a, a ∈ T :: t → a ∈ done) as Hin.
  { intros a Ha. eapply elem_of_sublist; [|exact Hsub].
    apply list_elem_of_In, in_rev. rewrite rev_involutive.
    by apply list_elem_of_In. }
  assert (Forall (fun a => 0 < cross a c) (T :: t)) as Hlt.
  { apply Forall_forall. intros a Ha. by apply Hlt_c, Hin. }
  assert (StronglySorted (fun a b => 0 < cross b a) (T :: t)) as Hsort.
  { apply StronglySorted_rev.
    by apply (StronglySorted_sublist _ _ done). }
  apply last_Some in Hlast as [d1 ->].
  assert (0 < cross T c) as HTc by (by apply Forall_cons in Hlt as [? _]).
  destruct (pops_spec c (origin :: d1 ++ [T]) t T)
    as (T' & t' & popped & Hrun & Hsplit & Hleft & Hstop); try done.
  { intros q Hq HTq. apply elem_of_cons in Hq as [->|Hq].
    { apply left_of_origin. lia. }
    apply elem_of_app in Hq as [Hq|Hq].
    - apply StronglySorted_app in Hdone as (Hd1T & _ & _).
      assert (0 < cross q T) as H by (apply Hd1T; [done|by left]).
      rewrite cross_antisym in H. lia.
    - apply list_elem_of_singleton in Hq as ->. apply left_of_self. }
  rewrite Hrun.
  assert (T :: t ++ [origin] = popped ++ T' :: t' ++ [origin]) as Hst.
  { change (T :: t ++ [origin]) with ((T :: t) ++ [origin]).
    rewrite Hsplit. by rewrite <- app_assoc. }
  assert (Forall (fun a => 0 < cross a c) (T' :: t')) as Hlt'.
  { rewrite Hsplit in Hlt. by apply Forall_app in Hlt as [_ ?]. }
  assert (StronglySorted (fun a b => 0 < cross b a) (T' :: t')) as Hsort'.
  { rewrite Hsplit in Hsort. by apply StronglySorted_app in Hsort as (_ & _ & ?). }
  assert (turns_ok (T' :: t' ++ [origin])) as Hturns'.
  { rewrite Hst in Hturns. by apply turns_ok_suffix in Hturns. }
  exists c, (T' :: t'). split_and!.
  - done.
  - by rewrite last_snoc.
  - change (rev (c :: T' :: t')) with (rev (T' :: t') ++ [c]).
    apply sublist_app; [|done].
    etrans; [|exact Hsub]. rewrite Hsplit, rev_app_distr.
    by apply sublist_inserts_r.
  - cbn [app turns_ok].
    destruct (t' ++ [origin]) as [|z l] eqn:E.
    { by destruct t'. }
    split; [|done]. rewrite cross_sub_l. by apply Hstop.
  - intros q Hq. cbn [app edges_ok]. split.
    + rewrite app_comm_cons in Hq. apply elem_of_app in Hq as [Hq|Hq].
      * by apply Hleft.
      * apply list_elem_of_singleton in Hq as ->. apply left_of_self.
    + rewrite app_comm_cons in Hq. apply elem_of_app in Hq as [Hq|Hq].
      * specialize (Hedges q Hq). rewrite Hst in Hedges.
        by apply edges_ok_suffix in Hedges.
      * apply list_elem_of_singleton in Hq as ->.
        by apply edges_ok_new.
Qed.

Lemma scan_run (todo : list point) :
  ∀ (done st : list point),
    StronglySorted (fun a b => 0 < cross a b) (done ++ todo) →
    scan_inv done st → scan_inv (done ++ todo) (scan st todo).
Proof.
  induction todo as [|c todo IH]; intros done st Hsorted Hinv.
  - by rewrite app_nil_r.
  - simpl. rewrite (cons_middle c done todo), app_assoc.
    rewrite (cons_middle c done todo), app_assoc in Hsorted.
    apply IH; [done|]. apply scan_step; [|done].
    by apply StronglySorted_app in Hsorted as (_ & ? & _).
Qed.

(** The stack that the sweep leaves for the points [cs]. *)
Lemma scan_all (cs : list point) :
  cs ≠ [] → StronglySorted (fun a b => 0 < cross a b) cs →
  scan_inv cs (scan [origin] cs).
Proof.
  destruct cs as [|c1 cs']; [done|]. intros _ Hsorted.
  change (scan [origin] (c1 :: cs')) with (scan [c1; origin] cs').
  apply (scan_run cs' [c1] [c1; origin]); [done|].
  exists c1, []. split_and!; try done.
  - intros q Hq. simpl. split; [|done].
    apply elem_of_cons in Hq as [->|Hq%list_elem_of_singleton].
    + apply left_of_self.
    + subst q. apply left_of_self.
Qed.

Local Close Scope Z_scope.
Local Open Scope Z_scope.

(** ** From the stack to the polygon *)

Lemma lookup_pair_split (l : list point) (j : nat) (a b : point) :
  l !! j = Some a → l !! S j = Some b →
  l = take j l ++ a :: b :: drop (S (S j)) l.
Proof.
  intros Ha Hb.
  rewrite <- (take_drop_middle l j a Ha) at 1. do 2 f_equal.
  apply drop_S in Hb. congruence.
Qed.

Lemma edges_ok_pair (st l1 l2 : list point) (t y q : point) :
  edges_ok st q → st = l1 ++ t :: y :: l2 → left_of y t q.
Proof.
  intros H ->. apply edges_ok_suffix in H. by destruct H.
Qed.

Lemma turns_ok_triple (st l1 l2 : list point) (t y z : point) :
  turns_ok st → st = l1 ++ t :: y :: z :: l2 → 0 < cross (y - z) (t - y).
Proof.
  intros H ->. apply turns_ok_suffix in H. by destruct H.
Qed.

Lemma rev_split_pair (st : list point) (j : nat) (a b : point) :
  rev st !! j = Some a → rev st !! S j = Some b →
  ∃ l1 l2, st = l1 ++ b :: a :: l2.
Proof.
  intros Ha Hb. pose proof (lookup_pair_split _ _ _ _ Ha Hb) as E.
  apply (f_equal (@rev point)) in E. rewrite rev_involutive in E.
  rewrite rev_app_distr in E. simpl in E. rewrite <- !app_assoc in E.
  simpl in E. eauto.
Qed.

Lemma rev_split_triple (st : list point) (j : nat) (a b c : point) :
  rev st !! j = Some a → rev st !! S j = Some b →
  rev st !! S (S j) = Some c →
  ∃ l1 l2, st = l1 ++ c :: b :: a :: l2.
Proof.
  intros Ha Hb Hc. pose proof (lookup_pair_split _ _ _ _ Ha Hb) as E.
  apply drop_S in Hc. rewrite Hc in E.
  apply (f_equal (@rev point)) in E. rewrite rev_involutive in E.
  rewrite rev_app_distr in E. simpl in E. rewrite <- !app_assoc in E.
  simpl in E. eauto.
Qed.

(** Every point of the sweep is inside the polygon of the stack that the
    sweep leaves. *)
Lemma scan_inv_inside (cs st : list point) (q : point) :
  StronglySorted (fun a b => 0 < cross a b) cs →
  scan_inv cs st → q ∈ origin :: cs → inside (rev st) q.
Proof.
  intros Hsorted (T & t & -> & Hlast & Hsub & Hturns & Hedges) Hq.
  intros j a b Ha Hb.
  set (st := T :: t ++ [origin]) in *.
  assert (rev st = origin :: rev t ++ [T]) as Hrev.
  { unfold st. simpl. rewrite rev_app_distr. simpl. done. }
  pose proof (lookup_lt_Some _ _ _ Ha) as Hj.
  destruct (decide (S j < length (rev st))%nat) as [Hlt|Hge].
  - rewrite lookup_app_l in Hb by done.
    destruct (rev_split_pair st j a b Ha Hb) as (l1 & l2 & E).
    by apply (edges_ok_pair st l1 l2 b a q); [apply Hedges|].
  - assert (S j = length (rev st)) as HSj by lia.
    rewrite lookup_app_r in Hb by lia.
    rewrite HSj, Nat.sub_diag, Hrev in Hb. simpl in Hb.
    injection Hb as <-.
    assert (a = T) as ->.
    { rewrite Hrev in Ha, HSj. simpl in HSj. rewrite length_app in HSj.
      simpl in HSj. assert (j = S (length (rev t))) as -> by lia.
      simpl in Ha. rewrite lookup_app_r in Ha by lia.
      rewrite Nat.sub_diag in Ha. simpl in Ha. congruence. }
    unfold left_of.
    apply last_Some in Hlast as [d1 ->].
    apply elem_of_cons in Hq as [->|Hq].
    { unfold origin, cross. destruct T. simpl. lia. }
    apply elem_of_app in Hq as [Hq|Hq].
    + apply StronglySorted_app in Hsorted as (Hd1T & _ & _).
      assert (0 < cross q T) as H by (apply Hd1T; [done|by left]).
      destruct T, q. unfold cross in *. simpl in *. lia.
    + apply list_elem_of_singleton in Hq as ->.
      destruct T. unfold cross. simpl. lia.
Qed.

(** The polygon of the stack that the sweep leaves is strictly convex, when
    it has three vertices or more. *)
Lemma scan_inv_convex (cs st : list point) :
  StronglySorted (fun a b => 0 < cross a b) cs →
  scan_inv cs st → (3 ≤ length st)%nat → strictly_convex (rev st).
Proof.
  intros Hsorted (T & t & -> & Hlast & Hsub & Hturns & Hedges) Hlen.
  assert (StronglySorted (fun a b => 0 < cross b a) (T :: t)) as Hsort.
  { apply StronglySorted_rev.
    by apply (StronglySorted_sublist _ _ cs). }
  apply StronglySorted_cons in Hsort as [HT _].
  set (st := T :: t ++ [origin]) in *.
  set (r := rev t).
  assert (rev st = origin :: r ++ [T]) as Hrev.
  { unfold st, r. simpl. rewrite rev_app_distr. simpl. done. }
  assert (∀ y, y ∈ r → 0 < cross y T) as Hr.
  { intros y Hy. rewrite Forall_forall in HT. apply HT.
    apply list_elem_of_In, in_rev, list_elem_of_In. done. }
  assert (length (rev st) = S (S (length r))) as Hlenp.
  { rewrite Hrev. simpl. rewrite length_app. simpl. lia. }
  assert (1 ≤ length r)%nat as Hrpos.
  { unfold st in Hlen. simpl in Hlen. rewrite length_app in Hlen.
    simpl in Hlen. unfold r. rewrite length_rev. lia. }
  intros j a b c Ha Hb Hc.
  pose proof (lookup_lt_Some _ _ _ Ha) as Hj.
  destruct (decide (S (S j) < length (rev st))%nat) as [Hlt|Hge].
  - rewrite lookup_app_l in Hb by lia. rewrite lookup_app_l in Hc by lia.
    destruct (rev_split_triple st j a b c Ha Hb Hc) as (l1 & l2 & E).
    by apply (turns_ok_triple st l1 l2 c b a).
  - destruct (decide (S j < length (rev st))%nat) as [Hlt1|Hge1].
    + assert (j = length r) as -> by lia.
      rewrite lookup_app_l in Hb by lia.
      rewrite lookup_app_r in Hc by lia.
      replace (S (S (length r)) - length (rev st))%nat with 0%nat in Hc by lia.
      rewrite Hrev in Ha, Hb, Hc. simpl in Hc. injection Hc as <-.
      simpl in Hb. rewrite lookup_app_r in Hb by lia.
      rewrite Nat.sub_diag in Hb. simpl in Hb. injection Hb as <-.
      assert (a ∈ r) as Hain.
      { rewrite lookup_cons_ne_0 in Ha by lia.
        rewrite lookup_app_l in Ha by lia.
        by eapply list_elem_of_lookup_2. }
      specialize (Hr a Hain).
      destruct a, T. unfold cross, origin in *. simpl in *. lia.
    + assert (j = S (length r)) as -> by lia.
      rewrite lookup_app_r in Hb by lia.
      rewrite lookup_app_r in Hc by lia.
      replace (S (S (length r)) - length (rev st))%nat with 0%nat in Hb by lia.
      replace (S (S (S (length r))) - length (rev st))%nat
        with 1%nat in Hc by lia.
      rewrite Hrev in Ha, Hb, Hc. simpl in Hb. injection Hb as <-.
      simpl in Ha. rewrite lookup_app_r in Ha by lia.
      rewrite Nat.sub_diag in Ha. simpl in Ha. injection Ha as <-.
      assert (c ∈ r) as Hcin.
      { simpl in Hc. destruct r as [|r0 r']; [simpl in Hrpos; lia|].
        simpl in Hc. injection Hc as <-. by left. }
      specialize (Hr c Hcin).
      destruct c, T. unfold cross, origin in *. simpl in *. lia.
Qed.

(** ** The points that the collapse drops *)

(** A point [q] that the collapse drops lies between the origin and the
    point [c] that is kept for its angle: on the left of whatever line
    has the two on its left. *)
Lemma dominated_left_of (a b q c : point) :
  in_half q → in_half c → cross q c = 0 →
  angle_lt q c = true ∨ q = c →
  left_of a b origin → left_of a b c → left_of a b q.
Proof.
  intros Hq Hc Hcross [Hlt| ->] Ho Hcl; [|done].
  apply angle_lt_spec in Hlt as [Hlt|[_ Hlt]]; [lia|].
  apply point_lt_spec in Hlt. apply in_half_spec in Hq, Hc.
  unfold left_of in *.
  destruct a as [ax ay], b as [bx b_y], q as [qx qy], c as [cx cy].
  unfold cross, origin in *. simpl in *.
  destruct (Z.eq_dec cx 0) as [->|Hcx].
  - assert (qx = 0) as -> by lia.
    assert (cy * ((bx - ax) * (qy - ay) - (b_y - ay) * (0 - ax))
            = qy * ((bx - ax) * (cy - ay) - (b_y - ay) * (0 - ax))
              + (cy - qy) * ((bx - ax) * (0 - ay) - (b_y - ay) * (0 - ax)))
      as E by ring.
    nia.
  - assert (cx * qy = qx * cy) as Hcol by lia.
    assert (cx * ((bx - ax) * (qy - ay) - (b_y - ay) * (qx - ax))
            = qx * ((bx - ax) * (cy - ay) - (b_y - ay) * (cx - ax))
              + (cx - qx) * ((bx - ax) * (0 - ay) - (b_y - ay) * (0 - ax))
              + (bx - ax) * (cx * qy - qx * cy)) as E by ring.
    rewrite Hcol, Z.sub_diag, Z.mul_0_r, Z.add_0_r in E.
    assert (0 ≤ qx * ((bx - ax) * (cy - ay) - (b_y - ay) * (cx - ax)))
      as P1 by (apply Z.mul_nonneg_nonneg; lia).
    assert (0 ≤ (cx - qx)
                * ((bx - ax) * (0 - ay) - (b_y - ay) * (0 - ax)))
      as P2 by (apply Z.mul_nonneg_nonneg; lia).
    assert (0 < cx) as Hpos by lia.
    apply (Z.mul_le_mono_pos_l _ _ cx); [done|]. lia.
Qed.

Lemma collinear_trans (u v c : point) :
  in_half u → in_half v → angle_lt u v = true →
  cross u v = 0 → cross v c = 0 → cross u c = 0.
Proof.
  intros Hu Hv Hlt Huv Hvc.
  apply angle_lt_spec in Hlt as [Hlt|[_ Hlt]]; [lia|].
  apply point_lt_spec in Hlt. apply in_half_spec in Hu, Hv.
  destruct u as [ux uy], v as [vx vy], c as [cx cy].
  unfold cross in *. simpl in *.
  assert (vx * (ux * cy - uy * cx)
          = ux * (vx * cy - vy * cx) + cx * (ux * vy - uy * vx))
    as E1 by ring.
  assert (vy * (ux * cy - uy * cx)
          = uy * (vx * cy - vy * cx) + cy * (ux * vy - uy * vx))
    as E2 by ring.
  rewrite Huv, Hvc, !Z.mul_0_r, Z.add_0_r in E1, E2.
  apply Z.mul_eq_0 in E1 as [E1|E1]; [|done].
  apply Z.mul_eq_0 in E2 as [E2|E2]; [|done].
  lia.
Qed.

Lemma compact_dominates (l : list point) (q : point) :
  Forall in_half l → ordered angle_lt l → q ∈ l →
  ∃ c, c ∈ compact l ∧ cross q c = 0 ∧ (angle_lt q c = true ∨ q = c).
Proof.
  intros Hhalf Hord. revert q.
  induction l as [|u l IH]; intros q Hq; [by apply elem_of_nil in Hq|].
  apply Forall_cons in Hhalf as [Hu Hhalf].
  apply Sorted_inv in Hord as [Hord Hhd].
  destruct l as [|v l'].
  { apply list_elem_of_singleton in Hq as ->. exists u. split; [by left|].
    split; [|by right]. unfold cross. lia. }
  specialize (IH Hhalf Hord).
  change (compact (u :: v :: l'))
    with (if (cross u v =? 0)%Z then compact (v :: l')
          else u :: compact (v :: l')).
  apply elem_of_cons in Hq as [->|Hq].
  - destruct (Z.eqb_spec (cross u v) 0) as [Huv|Huv].
    + destruct (IH v) as (c & Hc & Hvc & Hlt); [by left|].
      exists c. split; [done|].
      apply HdRel_inv in Hhd as [Huv'| ->]; [|done].
      pose proof Hhalf as Hv. apply Forall_cons in Hv as [Hv _].
      assert (in_half c) as Hch.
      { rewrite Forall_forall in Hhalf. by apply Hhalf, compact_subset. }
      split; [by apply (collinear_trans u v c)|].
      left. destruct Hlt as [Hlt| <-]; [|done].
      by apply (angle_lt_trans u v c).
    + exists u. split; [by left|]. split; [|by right]. unfold cross. lia.
  - destruct (IH q Hq) as (c & Hc & H).
    exists c. split; [|done].
    destruct (cross u v =? 0)%Z; [done|by right].
Qed.

Local Close Scope Z_scope.
(** ** The hull of [grahamScan] *)







(** What [grahamScan] returns on two points or more, in the coordinates
    that have the smallest point [mn] at the origin: the polygon [poly] of
    the hull prefix. *)
Lemma grahamScan_hull (ps : list point) (n : nat) :
  2 ≤ n ≤ length ps →
  ∃ mn poly ps',
    grahamScan ps n = Ok (ps', Z.of_nat (length poly)) ∧
    take (length poly) ps' = map (fun q => q + mn)%pt poly ∧
    2 ≤ length poly ≤ n ∧
    is_min (take n ps) mn ∧
    poly !! 0 = Some origin ∧
    (∀ v, v ∈ poly → (v + mn)%pt ∈ take n ps) ∧
    (∀ q, q ∈ take n ps → inside poly (q - mn)%pt) ∧
    (3 ≤ length poly → strictly_convex poly) ∧
    drop n ps' = drop n ps ∧ length ps' = length ps.
Proof.
  intros Hn.
  destruct (grahamScan_run_full ps n Hn)
    as (mn & Ss & cs & junk & ps5 & p & v & s & Hmin & Hperm & HhalfS & HordS
        & Ecs & Hcs & Hlen & Hhalf & Hinc & Hinv & Hscan & Hlen5 & Hdrop
        & Hrun).
  pose proof Hinv as (Hlen0 & Hs1 & Hsm & _ & _ & _ & H0 & _ & _ & _ & _
                      & Hsub).
  set (poly := take (S s) ps5).
  assert (length poly = S s) as Hpoly.
  { unfold poly. rewrite length_take. simpl in Hlen0.
    rewrite length_app in Hlen0. lia. }
  pose proof (scan_all cs Hcs Hinc) as Hsinv. rewrite <- Hscan in Hsinv.
  fold poly in Hsinv.
  assert (take (S (length cs)) (origin :: cs ++ junk) = origin :: cs)
    as Htake0.
  { simpl. by rewrite take_app_length. }
  rewrite Htake0 in Hsub. fold poly in Hsub.
  assert (∀ w, w ∈ origin :: Ss → (w + mn)%pt ∈ take n ps) as Hback.
  { intros w Hw. rewrite <- Hperm.
    apply list_elem_of_In, (in_map (fun q => (q + mn)%pt)).
    by apply list_elem_of_In. }
  assert (∀ c, c ∈ cs → c ∈ Ss) as Hcsub.
  { intros c Hc. rewrite Ecs in Hc. by apply compact_subset. }
  exists mn, poly, (map (fun q => q + mn)%pt (take n ps5) ++ drop n ps5).
  split_and!.
  - rewrite Hrun, Hpoly. do 2 f_equal. lia.
  - rewrite Hpoly. rewrite take_app_le by (rewrite length_map, length_take; lia).
    rewrite firstn_map, take_take. unfold poly. do 2 f_equal. lia.
  - lia.
  - lia.
  - done.
  - unfold poly. rewrite lookup_take_lt by lia. done.
  - intros w Hw. apply Hback.
    pose proof (elem_of_sublist _ _ _ Hw Hsub) as Hw'.
    apply elem_of_cons in Hw' as [->|Hw']; [by left|].
    right. by apply Hcsub.
  - intros q Hq. rewrite <- Hperm in Hq.
    apply list_elem_of_In, in_map_iff in Hq as (w & <- & Hw%list_elem_of_In).
    rewrite point_sub_add_cancel.
    rewrite <- (rev_involutive poly).
    assert (inside (rev (rev poly)) origin) as Hio.
    { apply (scan_inv_inside cs); [done|done|by left]. }
    apply elem_of_cons in Hw as [->|Hw]; [done|].
    destruct (compact_dominates Ss w HhalfS HordS Hw)
      as (c & Hc & Hwc & Hlt).
    rewrite <- Ecs in Hc.
    assert (inside (rev (rev poly)) c) as Hic.
    { apply (scan_inv_inside cs); [done|done|by right]. }
    intros j a b Ha Hb.
    apply (dominated_left_of a b w c); try done.
    + rewrite Forall_forall in HhalfS. by apply HhalfS.
    + rewrite Forall_forall in Hhalf. by apply Hhalf.
    + by apply (Hio j).
    + by apply (Hic j).
  - intros H3. rewrite <- (rev_involutive poly).
    apply (scan_inv_convex cs); [done|done|]. by rewrite length_rev.
  - rewrite drop_app_length' by (rewrite length_map, length_take; lia).
    done.
  - rewrite length_app, length_map, length_take, length_drop. lia.
Qed.

Lemma grahamScan_one_run (p q : point) (rest : list point) :
  grahamScan (p :: q :: rest) 1 = Ok (p :: q :: rest, 2%Z).
Proof.
  unfold grahamScan, min_element, transform, sort_range. simpl.
  unfold splice, seg. simpl.
  by rewrite point_add_sub_cancel.
Qed.

(** [grahamScan] writes to the first [n] slots only. *)
Lemma grahamScan_drop (ps : list point) (n : nat) (ps' : list point)
    (k : Z) :
  grahamScan ps n = Ok (ps', k) → drop n ps' = drop n ps.
Proof.
  intros H. pose proof (grahamScan_range _ _ _ _ H) as [Hn1 Hn].
  destruct (decide (n = 1)) as [->|Hn2].
  - pose proof (grahamScan_length _ _ _ _ H) as Hlen.
    pose proof (grahamScan_one _ _ _ H) as [_ Hlen2].
    destruct ps as [|p [|q rest]]; simpl in Hlen; [lia..|].
    rewrite grahamScan_one_run in H. by injection H as <- _.
  - destruct (grahamScan_hull ps n)
      as (mn & poly & ps0 & Hrun & _ & _ & _ & _ & _ & _ & _ & Hdrop & _);
      [lia|].
    rewrite Hrun in H. by injection H as <- _.
Qed.
Local Open Scope Z_scope.



Lemma before_sub (desc : bool) (a b c : point) :
  before desc a b ↔ before desc (a - c)%pt (b - c)%pt.
Proof.
  unfold before. destruct a, b, c.
  destruct desc; rewrite !lex_le_spec; simpl; lia.
Qed.









Local Close Scope Z_scope.
(** ** The chain of [findHull] contains the input *)


Local Open Scope Z_scope.









Local Close Scope Z_scope.

(** * Further properties of the code *)

(** ** The point primitive *)

(** X1. The comparisons of [point] (lines 117-130): of [p < q], [p == q]
    and [p > q] exactly one holds, [<] is transitive, and [==] holds for
    equal points only: a strict total order. *)
Theorem point_order_strict_total :
  (∀ p q,
     (point_lt p q = true ∧ point_eq p q = false ∧ point_gt p q = false) ∨
     (point_lt p q = false ∧ point_eq p q = true ∧ point_gt p q = false) ∨
     (point_lt p q = false ∧ point_eq p q = false ∧ point_gt p q = true)) ∧
  (∀ p q r,
     point_lt p q = true → point_lt q r = true → point_lt p r = true) ∧
  (∀ p q, point_eq p q = true ↔ p = q).
Proof.
  split_and!.
  - intros [px py] [qx qy]. unfold point_gt, point_lt, point_eq. simpl.
    destruct (Z.ltb_spec px qx), (Z.ltb_spec qx px), (Z.eqb_spec px qx),
      (Z.eqb_spec qx px), (Z.ltb_spec py qy), (Z.ltb_spec qy py),
      (Z.eqb_spec py qy); simpl; try lia; auto.
  - apply point_lt_trans.
  - apply point_eq_spec.
Qed.

(** ** The partition utility, once more *)

Lemma hsp_back_app_sorted (pred : point → bool) (l1 l2 : list point) :
  Forall (fun p => pred p = true) l1 →
  Forall (fun p => pred p = false) l2 →
  hsp_back pred (l1 ++ l2) = l2.
Proof.
  intros H1. induction l2 as [|p l2 IH] using rev_ind; intros H2.
  - rewrite app_nil_r. by apply hsp_back_all.
  - apply Forall_app in H2 as [H2 Hp]. apply Forall_cons in Hp as [Hp _].
    rewrite app_assoc, hsp_back_snoc, Hp. by rewrite (IH H2).
Qed.

Lemma hsp_back_fails (pred : point → bool) (l : list point) :
  Forall (fun p => pred p = false) (hsp_back pred l).
Proof.
  eapply Permutation_Forall; [symmetry; apply hsp_back_Permutation|].
  apply List.Forall_forall. intros q Hq.
  apply List.filter_In in Hq as [_ Hq]. by apply negb_true_iff.
Qed.

(** X2. A second pass of [half_stable_partition] with the same predicate
    over the same range changes nothing and returns the same boundary. *)
Theorem half_stable_partition_idempotent (a : list point) (first last : nat)
    (pred : point → bool) (a' : list point) (p : nat) :
  half_stable_partition a first last pred = Ok (a', p) →
  half_stable_partition a' first last pred = Ok (a', p).
Proof.
  intros H. pose proof H as Hrun.
  apply half_stable_partition_inv in H as (H1 & H2 & Ha' & Hp).
  destruct H2 as [<-|H2].
  { unfold half_stable_partition in Hrun |- *.
    rewrite for_ptr_done in Hrun |- *. by injection Hrun as <- <-. }
  set (s := seg a first last) in *.
  assert (length s = last - first) as Hs by (by apply seg_length).
  pose proof (hsp_back_length pred s) as Hlen.
  assert (length (List.filter pred s ++ hsp_back pred s) = last - first)
    as Hmid by (rewrite length_app; lia).
  assert (length a' = length a) as Hlen'
    by (rewrite Ha'; by apply splice_length).
  assert (seg a' first last = List.filter pred s ++ hsp_back pred s) as Hseg
    by (rewrite Ha'; by apply seg_splice).
  rewrite half_stable_partition_Ok by lia.
  rewrite Hseg, List.filter_app.
  rewrite (filter_all pred (List.filter pred s))
    by apply Forall_filter_true.
  rewrite (filter_none pred (hsp_back pred s)) by apply hsp_back_fails.
  rewrite app_nil_r.
  rewrite hsp_back_app_sorted
    by (apply Forall_filter_true || apply hsp_back_fails).
  rewrite <- Hseg, splice_seg by done. by rewrite Hp.
Qed.

Lemma half_stable_partition_idempotent_witness :
  half_stable_partition
    [Point 0 0; Point 1 0; Point 5 0; Point 2 2; Point 3 1] 1 5
    (fun q => (y q =? 0)%Z)
  = Ok ([Point 0 0; Point 1 0; Point 5 0; Point 2 2; Point 3 1], 3).
Proof.
  apply (half_stable_partition_idempotent
           [Point 0 0; Point 3 1; Point 1 0; Point 2 2; Point 5 0] 1 5
           (fun q => (y q =? 0)%Z)).
  vm_compute. reflexivity.
Defined.
(** ** [findHull] *)

Lemma findHull_range (fuel : nat) (a : list point) (first last : nat)
    (u v : point) (a' : list point) (b : nat) :
  findHull fuel a first last u v = Ok (a', b) → first < last ≤ length a.
Proof.
  destruct fuel as [|fuel]; [done|]. rewrite findHull_unfold. intros H.
  bind_inv H as p Hp. apply rd_lt in Hp. bind_inv H as ? Hassert.
  destruct (Nat.eqb_spec (first + 1) last) as [<-|Hne]; [lia|].
  bind_inv H as [D far] Hfar.
  apply farthest_inv in Hfar as (H1 & H2 & _). lia.
Qed.

(** X3. When [findHull] returns, its range was a non-empty range of the
    array that started with [u]; the call has permuted the range and left
    everything outside as it was, [u] is still the first point of the
    range, and the returned boundary lies behind it, within the range. *)
Theorem findHull_rearranges (fuel : nat) (a : list point) (first last : nat)
    (u v : point) (a' : list point) (b : nat) :
  findHull fuel a first last u v = Ok (a', b) →
  first < b ≤ last ∧ last ≤ length a ∧
  length a' = length a ∧
  take first a' = take first a ∧
  drop last a' = drop last a ∧
  seg a' first last ≡ₚ seg a first last ∧
  a !! first = Some u ∧ a' !! first = Some u.
Proof.
  intros H. pose proof (findHull_range _ _ _ _ _ _ _ _ H) as [Hfl Hlen].
  pose proof (seg_split a first last ltac:(lia)) as Hsplit.
  pose proof (seg_length a first last Hlen) as Hl.
  assert (length (take first a) = first) as Hpre
    by (rewrite length_take; lia).
  revert Hsplit Hl Hpre.
  generalize (seg a first last) (take first a) (drop last a).
  intros l pre post -> Hl Hpre.
  apply (findHull_sound fuel pre l post) in H as (c & r & Hchain & -> & ->);
    [|done|lia].
  pose proof (hull_chain_Permutation _ _ _ _ _ Hchain) as Hperm.
  pose proof (hull_chain_length _ _ _ _ _ Hchain) as Hcr.
  destruct (hull_chain_head _ _ _ _ _ Hchain) as (l' & c' & El & ->).
  assert (length ((u :: c') ++ r) = length l) as Hmid
    by (rewrite length_app; lia).
  split_and!.
  - simpl. lia.
  - lia.
  - done.
  - rewrite !length_app. lia.
  - by rewrite take_app_length'.
  - replace last with (length (pre ++ (u :: c') ++ r))
      by (rewrite length_app; lia).
    by rewrite !app_assoc, drop_app_length.
  - rewrite seg_mid by (done || lia). done.
  - rewrite lookup_app_r by lia. rewrite Hpre, Nat.sub_diag, El. done.
  - rewrite lookup_app_r by lia. rewrite Hpre, Nat.sub_diag. done.
Qed.

Lemma findHull_rearranges_witness :
  0 < 2 ≤ 2 ∧ 2 ≤ length [Point 2 0; Point 1 1; Point 0 0] ∧
  length [Point 2 0; Point 1 1; Point 0 0]
  = length [Point 2 0; Point 1 1; Point 0 0] ∧
  take 0 [Point 2 0; Point 1 1; Point 0 0]
  = take 0 [Point 2 0; Point 1 1; Point 0 0] ∧
  drop 2 [Point 2 0; Point 1 1; Point 0 0]
  = drop 2 [Point 2 0; Point 1 1; Point 0 0] ∧
  seg [Point 2 0; Point 1 1; Point 0 0] 0 2
  ≡ₚ seg [Point 2 0; Point 1 1; Point 0 0] 0 2 ∧
  [Point 2 0; Point 1 1; Point 0 0] !! 0 = Some (Point 2 0) ∧
  [Point 2 0; Point 1 1; Point 0 0] !! 0 = Some (Point 2 0).
Proof.
  apply (findHull_rearranges 3 [Point 2 0; Point 1 1; Point 0 0] 0 2
           (Point 2 0) (Point 0 0)).
  vm_compute. reflexivity.
Defined.



(** What a call of [findHull] that returns has done, on the contents of
    its range. *)
Lemma findHull_chain (fuel : nat) (a : list point) (first last : nat)
    (u v : point) (a' : list point) (b : nat) :
  findHull fuel a first last u v = Ok (a', b) →
  ∃ c r, hull_chain (seg a first last) u v c r ∧
         a' = take first a ++ (c ++ r) ++ drop last a ∧
         b = first + length c ∧ length (take first a) = first ∧
         seg a' first b = c.
Proof.
  intros H. pose proof (findHull_range _ _ _ _ _ _ _ _ H) as [Hfl Hlen].
  pose proof (seg_split a first last ltac:(lia)) as Hsplit.
  pose proof (seg_length a first last Hlen) as Hl.
  assert (length (take first a) = first) as Hpre
    by (rewrite length_take; lia).
  rewrite Hsplit in H.
  apply (findHull_sound fuel (take first a) (seg a first last) (drop last a))
    in H as (c & r & Hchain & -> & ->); [|done|lia].
  exists c, r. split_and!; try done.
  rewrite <- app_assoc. by apply seg_mid.
Qed.

(** X16. The points that [findHull] keeps are in the order that they had in
    the range: the kept prefix is the range with some points left out. *)
Theorem findHull_keeps_order (fuel : nat) (a : list point)
    (first last : nat) (u v : point) (a' : list point) (b : nat) :
  findHull fuel a first last u v = Ok (a', b) →
  seg a' first b `sublist_of` seg a first last.
Proof.
  intros H. apply findHull_chain in H as (c & r & Hchain & _ & _ & _ & ->).
  by apply (hull_chain_sublist _ u v c r).
Qed.

Lemma findHull_keeps_order_witness :
  seg [Point 4 0; Point 2 3; Point 1 2; Point 3 1; Point 0 0] 0 3
    `sublist_of` seg [Point 4 0; Point 3 1; Point 2 3; Point 1 2; Point 0 0]
                   0 4.
Proof.
  apply (findHull_keeps_order 4
           [Point 4 0; Point 3 1; Point 2 3; Point 1 2; Point 0 0] 0 4
           (Point 4 0) (Point 0 0)).
  vm_compute. reflexivity.
Defined.



(** X18. Called again on the points that it has kept, with fuel for that
    many points, [findHull] keeps them all and leaves the array as it
    is. *)
Theorem findHull_idempotent (fuel : nat) (a : list point)
    (first last : nat) (u v : point) (a' : list point) (b : nat) :
  findHull fuel a first last u v = Ok (a', b) → b - first ≤ fuel →
  findHull fuel a' first b u v = Ok (a', b).
Proof.
  intros H Hfuel.
  pose proof (findHull_range _ _ _ _ _ _ _ _ H) as [Hfl Hlen].
  apply findHull_chain in H as (c & r & Hchain & -> & -> & Hpre & _).
  apply hull_chain_idem in Hchain.
  pose proof (findHull_complete _ _ _ _ _ Hchain fuel (take first a)
                (r ++ drop last a) first (first + length c)) as Hrun.
  rewrite app_nil_r, <- !app_assoc in *. apply Hrun; [lia|done|done].
Qed.

Lemma findHull_idempotent_witness :
  findHull 4 [Point 4 0; Point 2 3; Point 1 2; Point 3 1; Point 0 0] 0 3
    (Point 4 0) (Point 0 0)
  = Ok ([Point 4 0; Point 2 3; Point 1 2; Point 3 1; Point 0 0], 3).
Proof.
  apply (findHull_idempotent 4
           [Point 4 0; Point 3 1; Point 2 3; Point 1 2; Point 0 0] 0 4
           (Point 4 0) (Point 0 0)).
  - vm_compute. reflexivity.
  - simpl. lia.
Defined.
(** ** [quickHull] *)

(** What every result of [quickHull] has: the prefix starts with the largest
    point and holds the smallest one, and they differ. *)
Lemma quickHull_spec_extremes (s res : list point) (k : nat) :
  quickHull_spec s res k →
  ∃ left right,
    is_min s left ∧ is_max s right ∧ left ≠ right ∧
    res !! 0 = Some right ∧ left ∈ take k res ∧ 2 ≤ k.
Proof.
  intros (left' & right' & c1 & r1 & c2 & r2 & kk & Hmin & Hmax & Hc1 & Hc2
          & Hkeep & -> & ->).
  pose proof (hull_chain_pos _ _ _ _ _ Hc2) as Hpos.
  pose proof (edge_keep_le _ _ _ _ _ Hkeep Hpos) as Hkk.
  destruct (hull_chain_head _ _ _ _ _ Hc1) as (l1 & c1' & El1 & ->).
  destruct (hull_chain_head _ _ _ _ _ Hc2) as (l2 & c2' & El2 & ->).
  exists left', right'. split_and!; try done.
  - intros ->.
    assert (right' ∈ lower right' right' s) as Hin
      by (rewrite El2; by left).
    unfold lower in Hin. rewrite sort_Permutation in Hin.
    apply list_elem_of_In, List.filter_In in Hin as [_ Hin].
    unfold upper_side in Hin. by rewrite point_eq_refl in Hin.
  - rewrite app_assoc.
    rewrite take_app_length' by (rewrite length_app, length_take; lia).
    apply elem_of_app. right.
    destruct kk as [|kk]; [lia|]. by left.
  - simpl. lia.
Qed.


(** X6. When [quickHull] returns the count [k], the first slot of the range
    holds the largest point of the range, the smallest point is among the
    first [k] slots, the two differ, and [k] is at least 2. *)
Theorem quickHull_extremes (a : list point) (first last : nat)
    (a' : list point) (k : Z) :
  quickHull a first last = Ok (a', k) →
  ∃ left right,
    is_min (seg a first last) left ∧ is_max (seg a first last) right ∧
    left ≠ right ∧
    a' !! first = Some right ∧
    left ∈ seg a' first (first + Z.to_nat k) ∧
    (2 ≤ k)%Z.
Proof.
  intros H. apply quickHull_sound in H
    as ([Hfl Hlen] & res & k' & Hspec & -> & ->).
  pose proof (quickHull_spec_Permutation _ _ _ Hspec) as [Hperm Hk].
  assert (length res = last - first) as Hres
    by (rewrite Hperm; by apply seg_length).
  rewrite seg_length in Hk by done.
  destruct (quickHull_spec_extremes _ _ _ Hspec)
    as (left' & right' & Hmin & Hmax & Hne & H0 & Hin & Hk2).
  exists left', right'. split_and!; try done.
  - unfold splice. rewrite lookup_app_r by (rewrite length_take; lia).
    rewrite length_take.
    replace (first - first `min` length a) with 0 by lia.
    by rewrite lookup_app_l by lia.
  - rewrite Nat2Z.id. unfold splice, seg.
    rewrite drop_app_length' by (rewrite length_take; lia).
    replace (first + k' - first) with k' by lia.
    by rewrite take_app_le by lia.
  - lia.
Qed.

Lemma quickHull_extremes_witness :
  ∃ left right,
    is_min (seg [Point 0 0; Point 0 2; Point 2 2; Point 2 0; Point 1 1] 0 5)
      left ∧
    is_max (seg [Point 0 0; Point 0 2; Point 2 2; Point 2 0; Point 1 1] 0 5)
      right ∧
    left ≠ right ∧
    [Point 2 2; Point 0 2; Point 0 0; Point 2 0; Point 1 1] !! 0
    = Some right ∧
    left ∈ seg [Point 2 2; Point 0 2; Point 0 0; Point 2 0; Point 1 1] 0
             (0 + Z.to_nat 4) ∧
    (2 ≤ 4)%Z.
Proof.
  apply (quickHull_extremes
           [Point 0 0; Point 0 2; Point 2 2; Point 2 0; Point 1 1] 0 5).
  vm_compute. reflexivity.
Defined.



(** ** Two points *)


(** ** [grahamScan]: when it returns *)

(** ** [grahamScan]: the hull *)







(** X12. [grahamScan] writes to the first [n] slots only: the slots from
    [n] on are as they were. *)
Theorem grahamScan_tail (ps : list point) (n : nat) (ps' : list point)
    (k : Z) :
  grahamScan ps n = Ok (ps', k) → drop n ps' = drop n ps.
Proof. apply grahamScan_drop. Qed.

Lemma grahamScan_tail_witness :
  drop 5 [Point 0 0; Point 2 0; Point 2 2; Point 0 2; Point 0 2; Point 7 7]
  = drop 5 [Point 1 1; Point 2 0; Point 2 2; Point 0 2; Point 0 0;
            Point 7 7].
Proof.
  apply (grahamScan_tail
           [Point 1 1; Point 2 0; Point 2 2; Point 0 2; Point 0 0; Point 7 7]
           5
           [Point 0 0; Point 2 0; Point 2 2; Point 0 2; Point 0 2; Point 7 7]
           4).
  vm_compute. reflexivity.
Defined.
(** ** The orchestrator *)

Lemma logged_bind_Ok_inv {A B : Type} (m : logged A) (f : A → logged B)
    (log : list event) (b : B) :
  m ≫= f = (log, Ok b) →
  ∃ l1 a l2, m = (l1, Ok a) ∧ f a = (l2, Ok b) ∧ log = l1 ++ l2.
Proof.
  destruct m as [l1 [a|e]]; unfold mbind, logged_bind; [|done].
  destruct (f a) as [l2 r] eqn:E. intros [= <- ->]. by exists l1, a, l2.
Qed.

Lemma logged_bind_run {A B : Type} (l1 : list event) (a : A)
    (f : A → logged B) :
  (l1, Ok a) ≫= f = (l1 ++ (f a).1, (f a).2).
Proof. unfold mbind, logged_bind. by destruct (f a). Qed.

Lemma filled_length (G a : list point) (n : nat) :
  length G = n → n ≤ length a → length (G ++ drop n a) = length a.
Proof. intros HG Hn. rewrite length_app, length_drop. lia. Qed.

Lemma generate_S (gen : nat → point) (g : globals) (n : nat) :
  generate gen g (S n)
  = (g ← generate gen g n;
     b ← wr (buffer g) n (gen n);
     a ← wr (ps g) n (gen n);
     Ok (Globals a b)).
Proof. unfold generate. by rewrite seq_S, foldl_app. Qed.

Lemma insert_filled (G a : list point) (n : nat) (p : point) :
  length G = n → n < length a →
  <[n := p]> (G ++ drop n a) = (G ++ [p]) ++ drop (S n) a.
Proof.
  intros HG Hn. destruct (lookup_lt_is_Some_2 a n Hn) as [q Hq].
  rewrite (drop_S a q n Hq).
  rewrite insert_app_r_alt by lia. rewrite HG, Nat.sub_diag. simpl.
  by rewrite <- app_assoc.
Qed.

(** Lines 82-88: the loop fills the first [n] slots of both arrays, and
    needs them to be there. *)
Lemma generate_spec (gen : nat → point) (g : globals) (n : nat) :
  (n ≤ length (ps g) ∧ n ≤ length (buffer g) →
   generate gen g n
   = Ok (Globals (map gen (seq 0 n) ++ drop n (ps g))
                 (map gen (seq 0 n) ++ drop n (buffer g)))) ∧
  (∀ g', generate gen g n = Ok g' →
         n ≤ length (ps g) ∧ n ≤ length (buffer g)).
Proof.
  induction n as [|n [IHrun IHinv]].
  - split; [|intros; lia]. intros _. destruct g. by rewrite !drop_0.
  - assert (n ≤ length (ps g) ∧ n ≤ length (buffer g) →
            generate gen g (S n)
            = (b ← wr (map gen (seq 0 n) ++ drop n (buffer g)) n (gen n);
               a ← wr (map gen (seq 0 n) ++ drop n (ps g)) n (gen n);
               Ok (Globals a b))) as Hstep.
    { intros H. by rewrite generate_S, (IHrun H). }
    assert (length (map gen (seq 0 n)) = n) as HG
      by (by rewrite length_map, length_seq).
    split.
    + intros [H1 H2]. rewrite Hstep by lia.
      rewrite seq_S, map_app.
      unfold wr. rewrite !decide_True by (rewrite filled_length; lia).
      rewrite !bind_Ok. by rewrite !insert_filled by (done || lia).
    + intros g' H. rewrite generate_S in H.
      bind_inv H as g1 Hg1. destruct (IHinv _ Hg1) as [H1 H2].
      rewrite (IHrun (conj H1 H2)) in Hg1. injection Hg1 as <-.
      simpl in H. bind_inv H as b Hb. bind_inv H as a Ha.
      unfold wr in Ha, Hb. repeat case_decide; try done.
      rewrite filled_length in * by (done || lia). lia.
Qed.

Lemma copy_S (src : list point) (n : nat) (dst : list point) :
  copy src (S n) dst = (dst ← copy src n dst; p ← rd src n; wr dst n p).
Proof. unfold copy. by rewrite seq_S, foldl_app. Qed.

(** [std::copy(buffer, buffer + n, ps)] *)
Lemma copy_spec (src : list point) (n : nat) (dst : list point) :
  (n ≤ length src ∧ n ≤ length dst →
   copy src n dst = Ok (take n src ++ drop n dst)) ∧
  (∀ dst', copy src n dst = Ok dst' → n ≤ length src ∧ n ≤ length dst).
Proof.
  induction n as [|n [IHrun IHinv]].
  - split; [|intros; lia]. intros _. by rewrite take_0, drop_0.
  - assert (length (take n src) = n `min` length src) as HG
      by apply length_take.
    split.
    + intros [H1 H2]. rewrite copy_S, IHrun by lia. simpl.
      destruct (lookup_lt_is_Some_2 src n) as [p Hp]; [lia|].
      rewrite (proj2 (rd_Ok _ _ _) Hp). simpl.
      unfold wr. rewrite decide_True by (rewrite filled_length; lia).
      rewrite insert_filled by lia.
      by rewrite (take_S_r src n p Hp).
    + intros dst' H. rewrite copy_S in H.
      bind_inv H as d1 Hd1. destruct (IHinv _ Hd1) as [H1 H2].
      rewrite (IHrun (conj H1 H2)) in Hd1. injection Hd1 as <-.
      bind_inv H as p Hp. apply rd_lt in Hp.
      unfold wr in H. case_decide; [|done].
      rewrite filled_length in * by lia. lia.
Qed.

(** The run of [calculate] that returns, stage by stage. *)
Lemma calculate_stages (gen : nat → point) (g : globals) (n : nat)
    (log : list event) (g' : globals) (k : Z) :
  calculate gen g n = (log, Ok (g', k)) ↔
  ∃ g1 a1 k1 a2 a3,
    generate gen g n = Ok g1 ∧
    grahamScan (ps g1) n = Ok (a1, k1) ∧
    copy (buffer g1) n a1 = Ok a2 ∧
    quickHull a2 0 n = Ok (a3, k) ∧
    g' = Globals a3 (buffer g1) ∧
    log = [Print n; TimerStart "Graham Scan"; TimerStop "Graham Scan";
           TimerStart "QuickHull"; TimerStop "QuickHull";
           BufferSubData n a3].
Proof.
  unfold calculate, emit, run, mbind, logged_bind, mret, logged_ret.
  split.
  - destruct (generate gen g n) as [g1|e1] eqn:E1; [|done].
    destruct (grahamScan (ps g1) n) as [[a1 k1]|e2] eqn:E2; [|done].
    destruct (copy (buffer g1) n a1) as [a2|e3] eqn:E3; [|done].
    destruct (quickHull a2 0 n) as [[a3 k3]|e4] eqn:E4; [|done].
    simpl. intros [= <- <- <-]. by exists g1, a1, k1, a2, a3.
  - intros (g1 & a1 & k1 & a2 & a3 & -> & -> & -> & -> & -> & ->). done.
Qed.

(** X13. When [calculate] returns, the two arrays had [n] slots, the log
    holds the announcement, the two timers one after the other, Graham
    Scan first, and then the upload of the array; [buffer] holds the
    generated points, and the array and the count that are returned are
    those of [quickHull] on the generated points: the run of [grahamScan]
    leaves no trace in the result. *)
Theorem calculate_result (gen : nat → point) (g : globals) (n : nat)
    (log : list event) (g' : globals) (k : Z) :
  calculate gen g n = (log, Ok (g', k)) →
  n ≤ length (ps g) ∧ n ≤ length (buffer g) ∧
  log = [Print n; TimerStart "Graham Scan"; TimerStop "Graham Scan";
         TimerStart "QuickHull"; TimerStop "QuickHull";
         BufferSubData n (ps g')] ∧
  buffer g' = map gen (seq 0 n) ++ drop n (buffer g) ∧
  quickHull (map gen (seq 0 n) ++ drop n (ps g)) 0 n = Ok (ps g', k).
Proof.
  intros H. apply calculate_stages in H
    as (g1 & a1 & k1 & a2 & a3 & Hgen & Hgraham & Hcopy & Hquick & -> & ->).
  destruct (generate_spec gen g n) as [Hrun Hinv].
  destruct (Hinv _ Hgen) as [H1 H2].
  rewrite (Hrun (conj H1 H2)) in Hgen. injection Hgen as <-.
  simpl in *.
  assert (length (map gen (seq 0 n)) = n) as HG
    by (by rewrite length_map, length_seq).
  pose proof (grahamScan_length _ _ _ _ Hgraham) as Hlen1.
  rewrite filled_length in Hlen1 by done.
  assert (drop n a1 = drop n (ps g)) as Htail.
  { rewrite (grahamScan_drop _ _ _ _ Hgraham).
    by rewrite drop_app_length'. }
  destruct (copy_spec (map gen (seq 0 n) ++ drop n (buffer g)) n a1)
    as [Hcrun _].
  rewrite Hcrun in Hcopy by (rewrite filled_length; lia).
  injection Hcopy as <-.
  rewrite take_app_length', Htail in Hquick by done.
  split_and!; done.
Qed.

Lemma calculate_result_witness :
  2 ≤ length (ps (Globals [Point 7 7; Point 7 7; Point 7 7]
                    [Point 7 7; Point 7 7])) ∧
  2 ≤ length (buffer (Globals [Point 7 7; Point 7 7; Point 7 7]
                        [Point 7 7; Point 7 7])) ∧
  [Print 2; TimerStart "Graham Scan"; TimerStop "Graham Scan";
   TimerStart "QuickHull"; TimerStop "QuickHull";
   BufferSubData 2 [Point 1 0; Point 0 0; Point 7 7]]
  = [Print 2; TimerStart "Graham Scan"; TimerStop "Graham Scan";
     TimerStart "QuickHull"; TimerStop "QuickHull";
     BufferSubData 2
       (ps (Globals [Point 1 0; Point 0 0; Point 7 7]
              [Point 0 0; Point 1 0]))] ∧
  buffer (Globals [Point 1 0; Point 0 0; Point 7 7] [Point 0 0; Point 1 0])
  = map (fun i => Point (Z.of_nat i) 0) (seq 0 2)
    ++ drop 2 (buffer (Globals [Point 7 7; Point 7 7; Point 7 7]
                         [Point 7 7; Point 7 7])) ∧
  quickHull
    (map (fun i => Point (Z.of_nat i) 0) (seq 0 2)
     ++ drop 2 (ps (Globals [Point 7 7; Point 7 7; Point 7 7]
                      [Point 7 7; Point 7 7]))) 0 2
  = Ok (ps (Globals [Point 1 0; Point 0 0; Point 7 7]
              [Point 0 0; Point 1 0]), 2%Z).
Proof.
  apply (calculate_result (fun i => Point (Z.of_nat i) 0)
           (Globals [Point 7 7; Point 7 7; Point 7 7]
              [Point 7 7; Point 7 7]) 2
           [Print 2; TimerStart "Graham Scan"; TimerStop "Graham Scan";
            TimerStart "QuickHull"; TimerStop "QuickHull";
            BufferSubData 2 [Point 1 0; Point 0 0; Point 7 7]]
           (Globals [Point 1 0; Point 0 0; Point 7 7]
              [Point 0 0; Point 1 0]) 2).
  vm_compute. reflexivity.
Defined.

